(** * Bond price calculator: yield-curve interpolation and discounting

    A shallow embedding of [bond_price_calc.cpp] (classes [YieldCurve] and
    [BondPriceCalculator]) and the properties of its specification.

    Conventions of the embedding.
    - [double] is IEEE 754 binary64, modelled by the primitive type [float];
      [+], [-], [*], [/], [sqrt], [<], [<=] and [==] are the primitive
      operations, with NaN, infinities and signed zeros as in the program.
    - [int] is modelled by [Z], a 32-bit [int] having the values from
      [INT_MIN] to [INT_MAX].  Signed overflow is undefined behaviour in
      C++: the product of two [int]s that leaves the range ([int_mul]) and
      the increment of a loop counter that stands at [INT_MAX] ([for_le])
      are the outcome [Undefined].  [of_int] is the conversion of an [int]
      to [double].
    - [std::pow] comes from the C library and the pseudo-random generator
      from [<random>]: both are parameters of the engine ([pow], [draw]).
    - [std::lower_bound] is the binary search of the standard library,
      [std::max(a, b)] is [(a < b) ? b : a] and [std::accumulate] folds from
      the left.
    - [throw std::invalid_argument(msg)] is the outcome [Throws msg]; an
      out-of-range element access ([front], [back] or [operator[]] outside
      the vector), undefined behaviour in C++ too, is the outcome
      [Undefined]. *)

From Stdlib Require Import ZArith List Bool Lia String Floats Uint63.
Import ListNotations.

Local Open Scope Z_scope.

(** ** Outcomes of a call *)

Inductive outcome (A : Type) : Type :=
| Returns (a : A)
| Throws (what : string)
| Undefined.

Arguments Returns {A} a.
Arguments Throws {A} what.
Arguments Undefined {A}.

Definition bind {A B : Type} (m : outcome A) (k : A -> outcome B) : outcome B :=
  match m with
  | Returns a => k a
  | Throws w => Throws w
  | Undefined => Undefined
  end.

Notation "x <- m ;; k" := (bind m (fun x => k))
  (at level 61, m at next level, right associativity).

(** [for (int i = lo; ...; ++i) body], run for [n] iterations from [i]. *)
Fixpoint for_loop {A : Type} (n : nat) (i : Z) (body : Z -> A -> outcome A)
  (s : A) : outcome A :=
  match n with
  | O => Returns s
  | S n' => s' <- body i s ;; for_loop n' (i + 1) body s'
  end.

(** The range of [int]. *)
Definition INT_MAX : Z := 2147483647.
Definition INT_MIN : Z := -2147483648.

(** [a * b] on two [int]s: the product when it is an [int]; signed
    overflow is undefined behaviour. *)
Definition int_mul (a b : Z) : outcome Z :=
  if (INT_MIN <=? a * b) && (a * b <=? INT_MAX) then Returns (a * b)
  else Undefined.

(** [for (int i = lo; i <= hi; ++i) body]: the body runs for
    [i = lo, ..., hi] (no time at all when [hi < lo]).  The loop ends when
    [++i] has taken [i] above [hi]: when [hi] is [INT_MAX] there is no such
    [int], and the increment after the turn [i = INT_MAX] overflows, which
    is undefined behaviour. *)
Definition for_le {A : Type} (lo hi : Z) (body : Z -> A -> outcome A) (s : A)
  : outcome A :=
  s' <- for_loop (Z.to_nat (hi + 1 - lo)) lo body s ;;
  if hi <? INT_MAX then Returns s' else Undefined.

(** [for (int i = lo; i < hi; ++i) body]. *)
Definition for_lt {A : Type} (lo hi : Z) (body : Z -> A -> outcome A) (s : A)
  : outcome A :=
  for_loop (Z.to_nat (hi - lo)) lo body s.

(** ** Numbers *)

(** Conversion of an [int] to [double]; exact on the range of [int]. *)
Definition of_int (z : Z) : float :=
  if z <? 0 then (- of_uint63 (Uint63.of_Z (- z)))%float
  else of_uint63 (Uint63.of_Z z).

(** [std::max(a, b)] is [(a < b) ? b : a]. *)
Definition std_max (a b : float) : float := if (a <? b)%float then b else a.

(** [std::accumulate(first, last, init, op)]. *)
Definition accumulate {A B : Type} (l : list B) (init : A) (op : A -> B -> A) : A :=
  fold_left op l init.

(** Classes of [double] values, read off the IEEE 754 decoding. *)
Definition is_NaN (x : float) : bool :=
  match Prim2SF x with S754_nan => true | _ => false end.

Definition is_inf (x : float) : bool :=
  match Prim2SF x with S754_infinity _ => true | _ => false end.

(** A number: zero, subnormal or normal (neither NaN nor infinite). *)
Definition SFnumber (x : spec_float) : bool :=
  match x with
  | S754_zero _ | S754_finite _ _ _ => true
  | _ => false
  end.

Definition finite (x : float) : bool := SFnumber (Prim2SF x).

(** ** YieldCurve *)

Record YieldCurve : Type := mkYieldCurve {
  maturities : list float;
  rates : list float
}.

Definition msg_curve_size : string := "Maturities and rates must have the same size".

(** The constructor [YieldCurve(maturities, rates)]. *)
Definition YieldCurve_new (ms rs : list float) : outcome YieldCurve :=
  if negb (List.length ms =? List.length rs)%nat then Throws msg_curve_size
  else Returns (mkYieldCurve ms rs).

(** [std::lower_bound(first, last, t)]: the binary search of the standard
    library, on positions.  [first] and [len] are the start and the length of
    the range still searched; each step halves [len].  The element read,
    at [first + len / 2], is inside the range, so the default of [nth] is
    never what is read. *)
Fixpoint lower_bound_loop (fuel : nat) (v : list float) (t : float)
  (first len : nat) : nat :=
  match fuel with
  | O => first
  | S fuel' =>
      if (0 <? len)%nat then
        let half := Nat.div2 len in
        let middle := (first + half)%nat in
        if (nth middle v nan <? t)%float
        then lower_bound_loop fuel' v t (S middle) (len - half - 1)%nat
        else lower_bound_loop fuel' v t first half
      else first
  end.

Definition lower_bound (v : list float) (t : float) : nat :=
  lower_bound_loop (List.length v) v t 0%nat (List.length v).

(** Element access: [v[i]], [v.front()] and [v.back()]. *)
Definition at_index (v : list float) (i : nat) : outcome float :=
  match nth_error v i with
  | Some x => Returns x
  | None => Undefined
  end.

Definition front (v : list float) : outcome float := at_index v 0.

Definition back (v : list float) : outcome float :=
  match v with
  | [] => Undefined
  | _ :: _ => at_index v (List.length v - 1)
  end.

(** [double YieldCurve::interpolate(double t) const]. *)
Definition interpolate (c : YieldCurve) (t : float) : outcome float :=
  let it := lower_bound (maturities c) t in
  if (it =? 0)%nat then front (rates c)
  else if (it =? List.length (maturities c))%nat then back (rates c)
  else
    let index := it in
    t0 <- at_index (maturities c) (index - 1) ;;
    t1 <- at_index (maturities c) index ;;
    r0 <- at_index (rates c) (index - 1) ;;
    r1 <- at_index (rates c) index ;;
    Returns (r0 + (r1 - r0) * (t - t0) / (t1 - t0))%float.

(** ** BondPriceCalculator *)

Definition msg_face_value : string := "Face value must be positive".
Definition msg_coupon_rate : string := "Coupon rate cannot be negative".
Definition msg_maturity : string := "Years to maturity must be positive".
Definition msg_frequency : string := "Coupons per year must be positive".
Definition msg_simulations : string := "Number of simulations must be positive".

Section Engine.

(** [std::pow] on doubles. *)
Variable pow : float -> float -> float.

(** The state of the generator [gen] and of the distribution [dist], and
    one draw [dist(gen)], which returns a sample and advances the state. *)
Variable Gen : Type.
Variable draw : Gen -> float * Gen.

Record BondPriceCalculator : Type := mkEngine {
  face_value : float;
  coupon_rate : float;
  years_to_maturity : Z;
  coupons_per_year : Z;
  yield_curve : YieldCurve;
  num_simulations : Z;
  is_zero_coupon : bool;
  gen : Gen
}.

(** [void validateInputs()], on the members it reads. *)
Definition validateInputs (fv cr : float) (ytm cpy sims : Z) : outcome unit :=
  if (fv <=? of_int 0)%float then Throws msg_face_value
  else if (cr <? of_int 0)%float then Throws msg_coupon_rate
  else if ytm <=? 0 then Throws msg_maturity
  else if cpy <=? 0 then Throws msg_frequency
  else if sims <=? 0 then Throws msg_simulations
  else Returns tt.

(** The constructor; [seed] is the generator state that
    [std::random_device] produced. *)
Definition BondPriceCalculator_new (fv cr : float) (ytm cpy : Z)
  (yc : YieldCurve) (sims : Z) (seed : Gen) : outcome BondPriceCalculator :=
  _ <- validateInputs fv cr ytm cpy sims ;;
  Returns (mkEngine fv cr ytm cpy yc sims
             ((cr =? 0)%float && (cpy =? 1)) seed).

(** [double calculateStaticPrice()].  [periods] is the product
    [years_to_maturity * coupons_per_year] of two [int]s, which the loop
    test and the last exponent take. *)
Definition calculateStaticPrice (e : BondPriceCalculator) : outcome float :=
  if is_zero_coupon e then
    ytm <- interpolate (yield_curve e) (of_int (years_to_maturity e)) ;;
    Returns (face_value e / pow (of_int 1 + ytm) (of_int (years_to_maturity e)))%float
  else
    let price := 0%float in
    let coupon_payment :=
      (face_value e * coupon_rate e / of_int (coupons_per_year e))%float in
    price <- (periods <- int_mul (years_to_maturity e) (coupons_per_year e) ;;
              for_le 1 periods
                (fun i price =>
                   let t := (of_int i / of_int (coupons_per_year e))%float in
                   ytm <- interpolate (yield_curve e) t ;;
                   Returns (price + coupon_payment /
                              pow (of_int 1 + ytm / of_int (coupons_per_year e))
                                  (of_int i))%float)
                price) ;;
    final_ytm <- interpolate (yield_curve e) (of_int (years_to_maturity e)) ;;
    periods <- int_mul (years_to_maturity e) (coupons_per_year e) ;;
    Returns (price + face_value e /
               pow (of_int 1 + final_ytm / of_int (coupons_per_year e))
                   (of_int periods))%float.

(** [double calculatePrice(const YieldCurve& curve)], with the product
    [years_to_maturity * coupons_per_year] as in [calculateStaticPrice]. *)
Definition calculatePrice (e : BondPriceCalculator) (curve : YieldCurve)
  : outcome float :=
  if is_zero_coupon e then
    ytm <- interpolate curve (of_int (years_to_maturity e)) ;;
    Returns (face_value e / pow (of_int 1 + ytm) (of_int (years_to_maturity e)))%float
  else
    let price := 0%float in
    let coupon_payment :=
      (face_value e * coupon_rate e / of_int (coupons_per_year e))%float in
    price <- (periods <- int_mul (years_to_maturity e) (coupons_per_year e) ;;
              for_le 1 periods
                (fun i price =>
                   let t := (of_int i / of_int (coupons_per_year e))%float in
                   ytm <- interpolate curve t ;;
                   Returns (price + coupon_payment /
                              pow (of_int 1 + ytm / of_int (coupons_per_year e))
                                  (of_int i))%float)
                price) ;;
    final_ytm <- interpolate curve (of_int (years_to_maturity e)) ;;
    periods <- int_mul (years_to_maturity e) (coupons_per_year e) ;;
    Returns (price + face_value e /
               pow (of_int 1 + final_ytm / of_int (coupons_per_year e))
                   (of_int periods))%float.

(** The engine with the state of its generator replaced. *)
Definition with_gen (e : BondPriceCalculator) (g : Gen) : BondPriceCalculator :=
  mkEngine (face_value e) (coupon_rate e) (years_to_maturity e)
    (coupons_per_year e) (yield_curve e) (num_simulations e)
    (is_zero_coupon e) g.

(** [dist(gen)] on the engine: the sample, and the engine with the
    generator advanced. *)
Definition sample (e : BondPriceCalculator) : float * BondPriceCalculator :=
  let (x, g) := draw (gen e) in (x, with_gen e g).

(** [YieldCurve shiftYieldCurve()].  The loop state is the two vectors
    being filled and the engine. *)
Definition shiftYieldCurve (e : BondPriceCalculator)
  : outcome (YieldCurve * BondPriceCalculator) :=
  st <- for_le 1 (years_to_maturity e)
          (fun i (st : list float * list float * BondPriceCalculator) =>
             let '(maturities, rates, e) := st in
             let maturities := maturities ++ [of_int i] in
             base_rate <- interpolate (yield_curve e) (of_int i) ;;
             let (d, e) := sample e in
             let shifted_rate := (base_rate + d)%float in
             let rates := rates ++ [std_max 0%float shifted_rate] in
             Returns (maturities, rates, e))
          ([], [], e) ;;
  let '(maturities, rates, e) := st in
  c <- YieldCurve_new maturities rates ;;
  Returns (c, e).

(** [std::pair<double, double> calculateMonteCarlo()].  The call
    [prices.reserve(num_simulations)] only allocates and is left out: the
    model is of the engines with a positive [num_simulations], which is what
    the constructor lets through. *)
Definition calculateMonteCarlo (e : BondPriceCalculator)
  : outcome (float * float * BondPriceCalculator) :=
  st <- for_lt 0 (num_simulations e)
          (fun _ (st : list float * BondPriceCalculator) =>
             let (prices, e) := st in
             r <- shiftYieldCurve e ;;
             let (shifted_curve, e) := r in
             price <- calculatePrice e shifted_curve ;;
             Returns (prices ++ [price], e))
          ([], e) ;;
  let (prices, e) := st in
  let mean :=
    (accumulate prices 0 PrimFloat.add / of_int (num_simulations e))%float in
  let variance :=
    (accumulate prices 0
       (fun acc price => acc + pow (price - mean) (of_int 2))
     / of_int (num_simulations e - 1))%float in
  Returns (mean, PrimFloat.sqrt variance, e).

End Engine.

Arguments face_value {Gen} _.
Arguments coupon_rate {Gen} _.
Arguments years_to_maturity {Gen} _.
Arguments coupons_per_year {Gen} _.
Arguments yield_curve {Gen} _.
Arguments num_simulations {Gen} _.
Arguments is_zero_coupon {Gen} _.
Arguments gen {Gen} _.
Arguments mkEngine {Gen} _ _ _ _ _ _ _ _.
Arguments validateInputs _ _ _ _ _ : assert.
Arguments BondPriceCalculator_new {Gen} _ _ _ _ _ _ _.
Arguments calculateStaticPrice pow {Gen} e.
Arguments calculatePrice pow {Gen} e curve.
Arguments with_gen {Gen} e g.
Arguments sample {Gen} draw e.
Arguments shiftYieldCurve {Gen} draw e.
Arguments calculateMonteCarlo pow {Gen} draw e.

(** ** Reference formulas of the specification *)

(** The rate the curve gives at [t], as a value ([nan] stands in where
    [interpolate] has no defined result; it never shows on a curve with a
    point). *)
Definition rate_at (c : YieldCurve) (t : float) : float :=
  match interpolate c t with
  | Returns r => r
  | _ => nan
  end.

(** [f 1 + f 2 + ... + f n], added up from [0.0] in increasing order of [i]. *)
Fixpoint sum_1_to (n : nat) (f : Z -> float) : float :=
  match n with
  | O => 0%float
  | S k => (sum_1_to k f + f (Z.of_nat (S k)))%float
  end.


(** [p_1 + ... + p_n] over a list, added up from [0.0] from the left. *)
Definition sum_list (l : list float) : float := fold_left PrimFloat.add l 0%float.

Section Formulas.

Variable pow : float -> float -> float.

(** Price of a coupon-bearing bond:
    sum over i = 1..N of coupon / (1 + y(i/cpy)/cpy)^i, plus
    face / (1 + y(ytm)/cpy)^N, where N = ytm * cpy. *)
Definition coupon_bond_price (fv cr : float) (ytm cpy : Z) (c : YieldCurve)
  : float :=
  let N := ytm * cpy in
  let coupon_payment := (fv * cr / of_int cpy)%float in
  (sum_1_to (Z.to_nat N)
     (fun i => coupon_payment /
               pow (1 + rate_at c (of_int i / of_int cpy) / of_int cpy)
                   (of_int i))
   + fv / pow (1 + rate_at c (of_int ytm) / of_int cpy) (of_int N))%float.


(** Price of a zero-coupon bond: face / (1 + y(ytm))^ytm. *)
Definition zero_coupon_price (fv : float) (ytm : Z) (c : YieldCurve) : float :=
  (fv / pow (1 + rate_at c (of_int ytm)) (of_int ytm))%float.

(** Sample mean and sample standard deviation (Bessel's correction) of the
    prices [ps] of [n] trials. *)
Definition sample_mean (ps : list float) (n : Z) : float :=
  (sum_list ps / of_int n)%float.

Definition sample_stddev (ps : list float) (n : Z) : float :=
  PrimFloat.sqrt
    (sum_list (map (fun p => pow (p - sample_mean ps n) 2) ps)
     / of_int (n - 1))%float.

Variable Gen : Type.
Variable draw : Gen -> float * Gen.

(** One Monte Carlo trial: perturb the curve, then price it. *)
Definition trial (e : BondPriceCalculator Gen)
  : outcome (float * BondPriceCalculator Gen) :=
  r <- shiftYieldCurve draw e ;;
  p <- calculatePrice pow (snd r) (fst r) ;;
  Returns (p, snd r).

(** [n] trials in a row, each starting from the generator state the
    previous one left; the prices in the order of the trials. *)
Fixpoint trials (n : nat) (e : BondPriceCalculator Gen)
  : outcome (list float * BondPriceCalculator Gen) :=
  match n with
  | O => Returns ([], e)
  | S k =>
      r <- trial e ;;
      rest <- trials k (snd r) ;;
      Returns (fst r :: fst rest, snd rest)
  end.

(** [n] successive draws from the generator state [g]. *)
Fixpoint draws (n : nat) (g : Gen) : list float * Gen :=
  match n with
  | O => ([], g)
  | S k =>
      let (x, g1) := draw g in
      let (xs, g2) := draws k g1 in
      (x :: xs, g2)
  end.

End Formulas.

Arguments trial pow {Gen} draw e.
Arguments trials pow {Gen} draw n e.
Arguments draws {Gen} draw n g.

(** The integers [1, 2, ..., n]. *)
Definition one_to (n : nat) : list Z := map Z.of_nat (seq 1 n).

(** The rates of a perturbed curve with [n] points: at maturity [i] the
    rate of the base curve plus the [i]-th sample, floored at zero. *)
Definition perturbed_rates (base : YieldCurve) (n : nat) (ds : list float)
  : list float :=
  map (fun p : Z * float =>
         std_max 0%float (rate_at base (of_int (fst p)) + snd p)%float)
      (combine (one_to n) ds).

(** Strictly increasing under the [<] of doubles. *)
Fixpoint strictly_increasing (v : list float) : bool :=
  match v with
  | [] => true
  | x :: tl =>
      match tl with
      | [] => true
      | y :: _ => (x <? y)%float && strictly_increasing tl
      end
  end.

(** ** Instances for the examples *)

(** A [pow] for examples: [x] times itself [y] times, for a small whole [y]. *)
Fixpoint pow_iter (fuel : nat) (x y : float) : float :=
  match fuel with
  | O => 1%float
  | S k => if (y <? 1)%float then 1%float else (x * pow_iter k x (y - 1))%float
  end.

Definition pow_example : float -> float -> float := pow_iter 4096.

(** A generator for examples: the samples to come, drawn from the head. *)
Definition draw_list (g : list float) : float * list float :=
  match g with
  | [] => (0%float, [])
  | x :: g' => (x, g')
  end.

Set Warnings "-inexact-float".

(** The curve of [main]. *)
Definition demo_curve : YieldCurve :=
  mkYieldCurve [1; 2; 3; 5; 10; 30]%float
               [0.01; 0.015; 0.02; 0.025; 0.03; 0.035]%float.

(** The curve of the interpolation examples of the specification. *)
Definition two_point_curve : YieldCurve :=
  mkYieldCurve [1; 2]%float [0.01; 0.02]%float.

(** ** The program *)

(** What a run of [main] leaves behind: the three numbers it prints, with
    exit status 0, or the message it prints after [Error: ], with exit
    status 1. *)
Inductive report : Type :=
| Results (static_price mc_price mc_std_dev : float)
| Error (what : string).

Definition exit_status (r : report) : Z :=
  match r with
  | Results _ _ _ => 0
  | Error _ => 1
  end.

(** [int main()], from the five values read from the input and the seed of
    the generator to the report.  The [try] block is [run]; the handler
    [catch (const std::exception&)] turns what was thrown into the report
    with exit status 1.  The prompts, the parsing of the input and the
    two-decimal formatting of the numbers are not part of the model. *)
Definition main {Gen : Type} (pow : float -> float -> float)
  (draw : Gen -> float * Gen) (face_value coupon_rate : float)
  (years_to_maturity coupons_per_year num_simulations : Z) (seed : Gen)
  : outcome report :=
  let run :=
    let maturities := [1; 2; 3; 5; 10; 30]%float in
    let rates := [0.01; 0.015; 0.02; 0.025; 0.03; 0.035]%float in
    yield_curve <- YieldCurve_new maturities rates ;;
    calculator <- BondPriceCalculator_new face_value coupon_rate
                    years_to_maturity coupons_per_year yield_curve
                    num_simulations seed ;;
    static_price <- calculateStaticPrice pow calculator ;;
    mc <- calculateMonteCarlo pow draw calculator ;;
    let '(mc_price, mc_std_dev, _) := mc in
    Returns (Results static_price mc_price mc_std_dev) in
  match run with
  | Returns r => Returns r
  | Throws what => Returns (Error what)
  | Undefined => Undefined
  end.

(** ** Statements of the specification, as worded *)

(** The validation rules of the specification, in their order --
    [face_value > 0], [coupon_rate >= 0], [years_to_maturity > 0],
    [coupons_per_year > 0], [num_simulations > 0] --: the message of the
    first rule that fails, if one does. *)
Definition first_failed_rule (fv cr : float) (ytm cpy sims : Z) : option string :=
  if negb (0 <? fv)%float then Some msg_face_value
  else if negb (0 <=? cr)%float then Some msg_coupon_rate
  else if negb (0 <? ytm) then Some msg_maturity
  else if negb (0 <? cpy) then Some msg_frequency
  else if negb (0 <? sims) then Some msg_simulations
  else None.

(** ** Rounding: what a right shift keeps *)

(** After [k] shifts the mantissa is [m / 2^k], and the two bits kept of
    what was shifted out are clear when nothing but zeros was shifted out. *)
Definition shifted (m : Z) (k : Z) (mrs : shr_record) : Prop :=
  shr_m mrs = m / 2 ^ k /\
  (m mod 2 ^ k = 0 -> shr_r mrs = false /\ shr_s mrs = false).

(** ** Values of doubles

    A double that is a number is an integer multiple of [2^emin], the
    smallest positive double; [SFval B x] is the value of [x] in units of
    [2^B], for [B] at or below the exponent of [x]. *)

Definition SFval (B : Z) (x : spec_float) : Z :=
  match x with
  | S754_finite s m e => cond_Zopp s (Zpos m * 2 ^ (e - B))
  | _ => 0
  end.

(** The exponent of the smallest positive double, [-1074]. *)
Definition emin64 : Z := SpecFloat.emin prec emax.

(** The value of a double in units of [2^-1074] ([0] for NaN and the
    infinities, which [finite] tells apart). *)
Definition F2Z (x : float) : Z := SFval emin64 (Prim2SF x).

(** The largest double. *)
Definition DBL_MAX : float := 0x1.fffffffffffffp+1023.

(** The span of the maturities -- the last minus the first, as real
    numbers -- is at most the largest double: the differences of
    maturities that [interpolate] takes on the curve do not overflow.  It
    is so on every curve without a negative maturity. *)
Definition span_in_range (ms : list float) : bool :=
  F2Z (last ms nan) - F2Z (hd nan ms) <=? F2Z DBL_MAX.

(** * Properties *)

(** ** Loops *)

Lemma for_loop_S {A : Type} (n : nat) (i : Z) (body : Z -> A -> outcome A) (s : A) :
  for_loop (S n) i body s = (s' <- body i s ;; for_loop n (i + 1) body s').
Proof. reflexivity. Qed.

Lemma for_loop_snoc {A : Type} (n : nat) (i : Z) (body : Z -> A -> outcome A) (s : A) :
  for_loop (S n) i body s =
  (s' <- for_loop n i body s ;; body (i + Z.of_nat n) s').
Proof.
  revert i s. induction n as [|n IH]; intros i s.
  - simpl. rewrite Z.add_0_r. destruct (body i s); reflexivity.
  - rewrite for_loop_S, (for_loop_S n).
    destruct (body i s) as [a| |]; cbn [bind]; try reflexivity.
    rewrite IH.
    replace (i + 1 + Z.of_nat n) with (i + Z.of_nat (S n)) by lia.
    reflexivity.
Qed.

Lemma bind_bind {A B C : Type} (m : outcome A) (f : A -> outcome B)
  (g : B -> outcome C) :
  bind (bind m f) g = bind m (fun a => bind (f a) g).
Proof. destruct m; reflexivity. Qed.

Lemma bind_Returns {A : Type} (m : outcome A) : bind m Returns = m.
Proof. destruct m; reflexivity. Qed.

(** The loop [for (i = lo; i <= hi; ++i)] tests [i <= hi], runs the body and
    goes on from [i + 1]; it ends with a value when the test fails, which
    takes an [i] above [hi]. *)
Lemma for_le_unfold {A : Type} (lo hi : Z) (body : Z -> A -> outcome A) (s : A) :
  for_le lo hi body s =
  if lo <=? hi then s' <- body lo s ;; for_le (lo + 1) hi body s'
  else if hi <? INT_MAX then Returns s else Undefined.
Proof.
  unfold for_le. destruct (lo <=? hi) eqn:E.
  - apply Z.leb_le in E.
    replace (Z.to_nat (hi + 1 - lo)) with (S (Z.to_nat (hi + 1 - (lo + 1)))) by lia.
    rewrite for_loop_S, bind_bind. reflexivity.
  - apply Z.leb_gt in E.
    replace (Z.to_nat (hi + 1 - lo)) with O by lia. reflexivity.
Qed.

(** Below [INT_MAX] the counter never overflows: the loop is its
    [hi + 1 - lo] turns. *)
Lemma for_le_in_range {A : Type} (lo hi : Z) (body : Z -> A -> outcome A) (s : A) :
  hi < INT_MAX ->
  for_le lo hi body s = for_loop (Z.to_nat (hi + 1 - lo)) lo body s.
Proof.
  intros H. unfold for_le.
  replace (hi <? INT_MAX) with true by (symmetry; apply Z.ltb_lt; exact H).
  apply bind_Returns.
Qed.

Lemma int_mul_in_range (a b : Z) :
  INT_MIN <= a * b <= INT_MAX -> int_mul a b = Returns (a * b).
Proof.
  intros [Hlo Hhi]. unfold int_mul.
  replace (INT_MIN <=? a * b) with true by (symmetry; apply Z.leb_le; exact Hlo).
  replace (a * b <=? INT_MAX) with true by (symmetry; apply Z.leb_le; exact Hhi).
  reflexivity.
Qed.

Lemma for_lt_unfold {A : Type} (lo hi : Z) (body : Z -> A -> outcome A) (s : A) :
  for_lt lo hi body s =
  if lo <? hi then s' <- body lo s ;; for_lt (lo + 1) hi body s'
  else Returns s.
Proof.
  unfold for_lt. destruct (lo <? hi) eqn:E.
  - apply Z.ltb_lt in E.
    replace (Z.to_nat (hi - lo)) with (S (Z.to_nat (hi - (lo + 1)))) by lia.
    reflexivity.
  - apply Z.ltb_ge in E.
    replace (Z.to_nat (hi - lo)) with O by lia. reflexivity.
Qed.

(** A loop whose body adds [f i] to the accumulator computes the sum. *)
Lemma for_loop_sum (n : nat) (body : Z -> float -> outcome float) (f : Z -> float) :
  (forall i p, 1 <= i <= Z.of_nat n -> body i p = Returns (p + f i)%float) ->
  for_loop n 1 body 0%float = Returns (sum_1_to n f).
Proof.
  induction n as [|n IH]; intros Hb.
  - reflexivity.
  - rewrite for_loop_snoc, IH by (intros; apply Hb; lia).
    cbn [bind]. rewrite Hb by lia.
    replace (1 + Z.of_nat n) with (Z.of_nat (S n)) by lia. reflexivity.
Qed.


(** ** The binary search *)

Lemma div2_lt (n : nat) : (0 < n)%nat -> (Nat.div2 n < n)%nat.
Proof. intros H. apply Nat.lt_div2. exact H. Qed.

(** The search stays in the range it was given. *)
Lemma lower_bound_loop_range (fuel : nat) (v : list float) (t : float)
  (first len : nat) :
  (first <= lower_bound_loop fuel v t first len <= first + len)%nat.
Proof.
  revert first len. induction fuel as [|fuel IH]; intros first len;
    cbn [lower_bound_loop].
  - lia.
  - destruct (0 <? len)%nat eqn:E; [|lia].
    apply Nat.ltb_lt in E. pose proof (div2_lt len E) as Hd.
    destruct (nth (first + Nat.div2 len) v nan <? t)%float.
    + specialize (IH (S (first + Nat.div2 len)) (len - Nat.div2 len - 1)%nat).
      revert IH Hd. generalize (Nat.div2 len). intros d IH Hd. lia.
    + specialize (IH first (Nat.div2 len)).
      revert IH Hd. generalize (Nat.div2 len). intros d IH Hd. lia.
Qed.

Lemma lower_bound_le_length (v : list float) (t : float) :
  (lower_bound v t <= List.length v)%nat.
Proof.
  unfold lower_bound.
  pose proof (lower_bound_loop_range (List.length v) v t 0 (List.length v)). lia.
Qed.

(** ** Construction and totality of [YieldCurve] *)

Lemma YieldCurve_new_Returns (ms rs : list float) (c : YieldCurve) :
  YieldCurve_new ms rs = Returns c ->
  c = mkYieldCurve ms rs /\ List.length ms = List.length rs.
Proof.
  unfold YieldCurve_new.
  destruct (List.length ms =? List.length rs)%nat eqn:E; simpl; intros H.
  - inversion H. apply Nat.eqb_eq in E. auto.
  - discriminate.
Qed.

Lemma at_index_lt (v : list float) (i : nat) :
  (i < List.length v)%nat -> at_index v i = Returns (nth i v nan).
Proof.
  intros H. unfold at_index.
  rewrite (nth_error_nth' v nan H). reflexivity.
Qed.

(** On a curve with as many rates as maturities and at least one point,
    [interpolate] returns a value. *)
Lemma interpolate_total (c : YieldCurve) (t : float) :
  List.length (maturities c) = List.length (rates c) ->
  maturities c <> [] ->
  interpolate c t = Returns (rate_at c t).
Proof.
  intros Hlen Hne.
  assert (Hr : exists r, interpolate c t = Returns r).
  { unfold interpolate.
    pose proof (lower_bound_le_length (maturities c) t) as Hle.
    assert (Hpos : (0 < List.length (maturities c))%nat)
      by (destruct (maturities c); [congruence | simpl; lia]).
    destruct (lower_bound (maturities c) t =? 0)%nat eqn:E0.
    - unfold front. rewrite at_index_lt by lia. eauto.
    - destruct (lower_bound (maturities c) t =? List.length (maturities c))%nat eqn:E1.
      + unfold back. destruct (rates c) as [|r rs] eqn:Er; [simpl in Hlen; lia|].
        rewrite at_index_lt by (simpl; lia). eauto.
      + apply Nat.eqb_neq in E0, E1.
        rewrite !at_index_lt by lia. cbn [bind]. eauto. }
  destruct Hr as [r Hr]. unfold rate_at. rewrite Hr. reflexivity.
Qed.

(** C9: construction of a [YieldCurve] throws if and only if the two
    sequences differ in length, and then with the size message; with equal
    lengths it returns the curve holding the two sequences as given, whatever
    they contain -- unsorted, duplicated or negative maturities are accepted. *)
Theorem YieldCurve_new_fails_iff_lengths_differ :
  (forall ms rs : list float,
      YieldCurve_new ms rs = Throws msg_curve_size <->
      List.length ms <> List.length rs) /\
  (forall ms rs : list float,
      List.length ms = List.length rs <->
      YieldCurve_new ms rs = Returns (mkYieldCurve ms rs)) /\
  YieldCurve_new [3; 1; 2]%float [0.03; 0.01; 0.02]%float
    = Returns (mkYieldCurve [3; 1; 2]%float [0.03; 0.01; 0.02]%float) /\
  YieldCurve_new [1; 1; 2]%float [0.01; 0.02; 0.03]%float
    = Returns (mkYieldCurve [1; 1; 2]%float [0.01; 0.02; 0.03]%float) /\
  YieldCurve_new [-2; -1]%float [0.01; 0.02]%float
    = Returns (mkYieldCurve [-2; -1]%float [0.01; 0.02]%float) /\
  YieldCurve_new [1; 2; 3]%float [0.01; 0.02]%float = Throws msg_curve_size.
Proof.
  split; [|split].
  - intros ms rs. unfold YieldCurve_new.
    destruct (List.length ms =? List.length rs)%nat eqn:E; simpl.
    + apply Nat.eqb_eq in E. split; [discriminate | congruence].
    + apply Nat.eqb_neq in E. split; auto.
  - intros ms rs. unfold YieldCurve_new.
    destruct (List.length ms =? List.length rs)%nat eqn:E; simpl.
    + apply Nat.eqb_eq in E. split; auto.
    + apply Nat.eqb_neq in E. split; [congruence | discriminate].
  - repeat split; reflexivity.
Qed.

(** C10: construction accepts two empty sequences, and on the resulting
    curve [interpolate] reads the first element of the empty rate vector,
    whatever [t]: its result is undefined.  On every constructed curve with
    at least one point [interpolate] returns a value. *)
Theorem interpolate_needs_a_point :
  YieldCurve_new [] [] = Returns (mkYieldCurve [] []) /\
  (forall t : float,
      lower_bound (maturities (mkYieldCurve [] [])) t = 0%nat /\
      interpolate (mkYieldCurve [] []) t = front [] /\
      interpolate (mkYieldCurve [] []) t = Undefined) /\
  (forall (ms rs : list float) (c : YieldCurve) (t : float),
      YieldCurve_new ms rs = Returns c ->
      (ms <> [] <-> exists r, interpolate c t = Returns r)).
Proof.
  split; [reflexivity|]. split.
  - intros t. repeat split; reflexivity.
  - intros ms rs c t Hnew.
    apply YieldCurve_new_Returns in Hnew. destruct Hnew as [-> Hlen].
    split.
    + intros Hne. exists (rate_at (mkYieldCurve ms rs) t).
      apply interpolate_total; simpl; assumption.
    + intros [r Hr] ->. destruct rs; [|discriminate].
      discriminate Hr.
Qed.

(** ** Comparisons of doubles with zero *)

Lemma Prim2SF_zero : Prim2SF 0%float = S754_zero false.
Proof. reflexivity. Qed.

Lemma of_int_0 : of_int 0 = 0%float.
Proof. reflexivity. Qed.

Lemma of_int_1 : of_int 1 = 1%float.
Proof. reflexivity. Qed.

Lemma of_int_2 : of_int 2 = 2%float.
Proof. reflexivity. Qed.

(** A double above zero is not equal to zero. *)
Lemma ltb_0_neq (x : float) : (0 <? x)%float = true -> (x =? 0)%float = false.
Proof.
  rewrite FloatAxioms.ltb_spec, FloatAxioms.eqb_spec, Prim2SF_zero.
  destruct (Prim2SF x) as [s|s| |s m e]; try destruct s;
    cbv [SFltb SFeqb SFleb SFcompare]; congruence.
Qed.

(** For a double that is a number, [x > 0] is the negation of [x <= 0]. *)
Lemma leb_0_false_gt (x : float) :
  is_NaN x = false -> ((x <=? 0)%float = false <-> (0 <? x)%float = true).
Proof.
  unfold is_NaN. rewrite FloatAxioms.leb_spec, FloatAxioms.ltb_spec, Prim2SF_zero.
  destruct (Prim2SF x) as [s|s| |s m e]; try destruct s;
    cbv [SFltb SFeqb SFleb SFcompare]; intuition congruence.
Qed.

(** For a double that is a number, [x >= 0] is the negation of [x < 0]. *)
Lemma ltb_0_false_ge (x : float) :
  is_NaN x = false -> ((x <? 0)%float = false <-> (0 <=? x)%float = true).
Proof.
  unfold is_NaN. rewrite FloatAxioms.leb_spec, FloatAxioms.ltb_spec, Prim2SF_zero.
  destruct (Prim2SF x) as [s|s| |s m e]; try destruct s;
    cbv [SFltb SFeqb SFleb SFcompare]; intuition congruence.
Qed.

(** ** Construction of the engine *)

Section EngineConstruction.

Variable Gen : Type.

(** What a successful construction has checked and stored. *)
Lemma BondPriceCalculator_new_Returns (fv cr : float) (ytm cpy : Z)
  (yc : YieldCurve) (sims : Z) (seed : Gen) (e : BondPriceCalculator Gen) :
  BondPriceCalculator_new fv cr ytm cpy yc sims seed = Returns e ->
  e = mkEngine fv cr ytm cpy yc sims ((cr =? 0)%float && (cpy =? 1)) seed /\
  (fv <=? 0)%float = false /\ (cr <? 0)%float = false /\
  0 < ytm /\ 0 < cpy /\ 0 < sims.
Proof.
  unfold BondPriceCalculator_new, validateInputs. rewrite of_int_0.
  destruct (fv <=? 0)%float; [discriminate|].
  destruct (cr <? 0)%float; [discriminate|].
  destruct (ytm <=? 0) eqn:E1; [discriminate|].
  destruct (cpy <=? 0) eqn:E2; [discriminate|].
  destruct (sims <=? 0) eqn:E3; [discriminate|].
  cbn [bind]. intros H. inversion H.
  apply Z.leb_gt in E1, E2, E3. repeat split; assumption.
Qed.

(** The checks of the constructor, in their order: the first check that
    fires decides the message, and when none fires the engine is returned
    with the values as given and the derived flag.  The checks on the two
    doubles are [fv <= 0] and [cr < 0], both false on NaN. *)
Lemma BondPriceCalculator_new_cases (fv cr : float) (ytm cpy : Z)
  (yc : YieldCurve) (sims : Z) (seed : Gen) :
  let r := BondPriceCalculator_new fv cr ytm cpy yc sims seed in
  (r = Throws msg_face_value <-> (fv <=? 0)%float = true) /\
  (r = Throws msg_coupon_rate <->
     (fv <=? 0)%float = false /\ (cr <? 0)%float = true) /\
  (r = Throws msg_maturity <->
     (fv <=? 0)%float = false /\ (cr <? 0)%float = false /\ ytm <= 0) /\
  (r = Throws msg_frequency <->
     (fv <=? 0)%float = false /\ (cr <? 0)%float = false /\ 0 < ytm /\
     cpy <= 0) /\
  (r = Throws msg_simulations <->
     (fv <=? 0)%float = false /\ (cr <? 0)%float = false /\ 0 < ytm /\
     0 < cpy /\ sims <= 0) /\
  (r = Returns (mkEngine fv cr ytm cpy yc sims
                  ((cr =? 0)%float && (cpy =? 1)) seed) <->
     (fv <=? 0)%float = false /\ (cr <? 0)%float = false /\ 0 < ytm /\
     0 < cpy /\ 0 < sims) /\
  r <> Undefined.
Proof.
  unfold BondPriceCalculator_new, validateInputs. rewrite of_int_0.
  destruct (fv <=? 0)%float;
    [cbn; repeat split; intros; try discriminate; intuition congruence|].
  destruct (cr <? 0)%float;
    [cbn; repeat split; intros; try discriminate; intuition congruence|].
  destruct (ytm <=? 0) eqn:E1;
    [apply Z.leb_le in E1 | apply Z.leb_gt in E1].
  { cbn; repeat split; intros; try discriminate; try lia; intuition (try congruence; lia). }
  destruct (cpy <=? 0) eqn:E2;
    [apply Z.leb_le in E2 | apply Z.leb_gt in E2].
  { cbn; repeat split; intros; try discriminate; try lia; intuition (try congruence; lia). }
  destruct (sims <=? 0) eqn:E3;
    [apply Z.leb_le in E3 | apply Z.leb_gt in E3].
  { cbn; repeat split; intros; try discriminate; try lia; intuition (try congruence; lia). }
  cbn; repeat split; intros; try discriminate; try lia; intuition (try congruence; lia).
Qed.

(** C8: on a face value and a coupon rate that are numbers, construction
    follows the rules of the specification -- [face_value > 0],
    [coupon_rate >= 0], [years_to_maturity > 0], [coupons_per_year > 0],
    [num_simulations > 0], in this order: it fails exactly when a rule
    fails, with the message of the first rule that fails, and then returns
    no engine; when no rule fails it returns the engine that holds the
    values as given, on which the five rules hold.  It has no other
    outcome. *)
Theorem BondPriceCalculator_new_validates (fv cr : float) (ytm cpy : Z)
  (yc : YieldCurve) (sims : Z) (seed : Gen) :
  is_NaN fv = false -> is_NaN cr = false ->
  let r := BondPriceCalculator_new fv cr ytm cpy yc sims seed in
  r = match first_failed_rule fv cr ytm cpy sims with
      | Some what => Throws what
      | None => Returns (mkEngine fv cr ytm cpy yc sims
                           ((cr =? 0)%float && (cpy =? 1)) seed)
      end /\
  ((exists what, r = Throws what) <->
   ~ ((0 <? fv)%float = true /\ (0 <=? cr)%float = true /\
      0 < ytm /\ 0 < cpy /\ 0 < sims)) /\
  ((exists what, r = Throws what) -> forall e, r <> Returns e) /\
  (forall e : BondPriceCalculator Gen,
      r = Returns e ->
      face_value e = fv /\ coupon_rate e = cr /\ years_to_maturity e = ytm /\
      coupons_per_year e = cpy /\ yield_curve e = yc /\
      num_simulations e = sims /\
      (0 <? face_value e)%float = true /\ (0 <=? coupon_rate e)%float = true /\
      0 < years_to_maturity e /\ 0 < coupons_per_year e /\
      0 < num_simulations e) /\
  r <> Undefined.
Proof.
  intros Hfv Hcr r.
  pose proof (leb_0_false_gt fv Hfv) as Hb.
  pose proof (ltb_0_false_ge cr Hcr) as Hd.
  assert (Hr : r = match first_failed_rule fv cr ytm cpy sims with
                   | Some what => Throws what
                   | None => Returns (mkEngine fv cr ytm cpy yc sims
                                        ((cr =? 0)%float && (cpy =? 1)) seed)
                   end).
  { assert (Ha : (0 <? fv)%float = negb (fv <=? 0)%float)
      by (destruct (fv <=? 0)%float, (0 <? fv)%float; cbn; intuition congruence).
    assert (Hc : (0 <=? cr)%float = negb (cr <? 0)%float)
      by (destruct (cr <? 0)%float, (0 <=? cr)%float; cbn; intuition congruence).
    unfold r, BondPriceCalculator_new, validateInputs, first_failed_rule.
    rewrite of_int_0, Ha, Hc, !negb_involutive, <- !Z.leb_antisym.
    destruct (fv <=? 0)%float; [reflexivity|].
    destruct (cr <? 0)%float; [reflexivity|].
    destruct (ytm <=? 0); [reflexivity|].
    destruct (cpy <=? 0); [reflexivity|].
    destruct (sims <=? 0); reflexivity. }
  split; [exact Hr|].
  assert (Hrule : first_failed_rule fv cr ytm cpy sims = None <->
                  (0 <? fv)%float = true /\ (0 <=? cr)%float = true /\
                  0 < ytm /\ 0 < cpy /\ 0 < sims).
  { unfold first_failed_rule.
    destruct (0 <? fv)%float; cbn [negb];
      [|split; [discriminate | intros (H & _); discriminate H]].
    destruct (0 <=? cr)%float; cbn [negb];
      [|split; [discriminate | intros (_ & H & _); discriminate H]].
    destruct (0 <? ytm) eqn:E3; cbn [negb];
      [apply Z.ltb_lt in E3 | apply Z.ltb_ge in E3; split; [discriminate | lia]].
    destruct (0 <? cpy) eqn:E4; cbn [negb];
      [apply Z.ltb_lt in E4 | apply Z.ltb_ge in E4; split; [discriminate | lia]].
    destruct (0 <? sims) eqn:E5; cbn [negb];
      [apply Z.ltb_lt in E5 | apply Z.ltb_ge in E5; split; [discriminate | lia]].
    split; auto. }
  rewrite Hr.
  destruct (first_failed_rule fv cr ytm cpy sims) as [what|].
  - split; [|split; [|split]].
    + split; [intros _ H; apply Hrule in H; discriminate | eauto].
    + intros _ e. discriminate.
    + intros e H. discriminate.
    + discriminate.
  - destruct Hrule as [Hrule _]. specialize (Hrule eq_refl).
    split; [|split; [|split]].
    + split; [intros [what H]; discriminate | intros H; contradiction].
    + intros [what H]. discriminate.
    + intros e H. inversion H. cbn. tauto.
    + discriminate.
Qed.

End EngineConstruction.

(** ** Pricing *)

Section Pricing.

Variable pow : float -> float -> float.
Variable Gen : Type.

(** The zero-coupon branch, on any curve: one lookup at the maturity in
    years, and the discount factor with the same number of years. *)
Lemma calculatePrice_zero_coupon (e : BondPriceCalculator Gen) (c : YieldCurve) :
  is_zero_coupon e = true ->
  calculatePrice pow e c =
  (y <- interpolate c (of_int (years_to_maturity e)) ;;
   Returns (face_value e / pow (1 + y) (of_int (years_to_maturity e)))%float).
Proof.
  intros Hz. unfold calculatePrice. rewrite Hz, of_int_1. reflexivity.
Qed.

(** The coupon branch on a curve with a point, when the number of periods
    is an [int] below [INT_MAX]. *)
Lemma calculatePrice_coupon (e : BondPriceCalculator Gen) (c : YieldCurve) :
  is_zero_coupon e = false ->
  List.length (maturities c) = List.length (rates c) ->
  maturities c <> [] ->
  INT_MIN <= years_to_maturity e * coupons_per_year e < INT_MAX ->
  calculatePrice pow e c =
  Returns (coupon_bond_price pow (face_value e) (coupon_rate e)
             (years_to_maturity e) (coupons_per_year e) c).
Proof.
  intros Hz Hlen Hne Hr. unfold calculatePrice, coupon_bond_price.
  rewrite Hz, of_int_1, int_mul_in_range by lia. cbn [bind].
  rewrite for_le_in_range by lia.
  replace (years_to_maturity e * coupons_per_year e + 1 - 1)
    with (years_to_maturity e * coupons_per_year e) by lia.
  erewrite for_loop_sum.
  2:{ intros i p _. rewrite (interpolate_total c _ Hlen Hne). cbn [bind].
      reflexivity. }
  cbn [bind]. rewrite (interpolate_total c _ Hlen Hne). reflexivity.
Qed.


(** C4: [calculateStaticPrice()] returns what [calculatePrice] returns on
    the engine's own curve, in every state of the engine (the outcome is
    the same also where it is not a value). *)
Theorem calculateStaticPrice_eq_calculatePrice (e : BondPriceCalculator Gen) :
  calculateStaticPrice pow e = calculatePrice pow e (yield_curve e).
Proof.
  unfold calculateStaticPrice, calculatePrice.
  destruct (is_zero_coupon e); reflexivity.
Qed.

(** C3: the flag [is_zero_coupon] of a constructed engine is true exactly
    when [coupon_rate == 0] and [coupons_per_year == 1]; when it is,
    the price on a curve is face / (1 + y)^ytm with y the curve's rate at
    [years_to_maturity]: one lookup at the maturity in years and the
    exponent in years, on any curve, and a value on every constructed
    curve with a point. *)
Theorem calculatePrice_zero_coupon_bond (fv cr : float) (ytm cpy : Z)
  (yc : YieldCurve) (sims : Z) (seed : Gen) (e : BondPriceCalculator Gen) :
  BondPriceCalculator_new fv cr ytm cpy yc sims seed = Returns e ->
  (is_zero_coupon e = true <-> (cr =? 0)%float = true /\ cpy = 1) /\
  (is_zero_coupon e = true ->
   (forall c : YieldCurve,
       calculatePrice pow e c =
       (y <- interpolate c (of_int ytm) ;;
        Returns (fv / pow (1 + y) (of_int ytm))%float)) /\
   (forall (ms rs : list float) (c : YieldCurve),
       YieldCurve_new ms rs = Returns c -> ms <> [] ->
       calculatePrice pow e c = Returns (zero_coupon_price pow fv ytm c))).
Proof.
  intros Hnew. apply BondPriceCalculator_new_Returns in Hnew.
  destruct Hnew as (-> & _). cbn [is_zero_coupon]. split.
  - rewrite andb_true_iff, Z.eqb_eq. reflexivity.
  - intros Hz. split.
    + intros c. rewrite calculatePrice_zero_coupon by exact Hz. reflexivity.
    + intros ms rs c Hc Hne.
      apply YieldCurve_new_Returns in Hc. destruct Hc as [-> Hlen].
      rewrite calculatePrice_zero_coupon by exact Hz.
      cbn [years_to_maturity face_value].
      rewrite (interpolate_total (mkYieldCurve ms rs)) by assumption.
      reflexivity.
Qed.


End Pricing.

(** ** The order of doubles *)

Lemma SFcompare_Lt_trans (a b c : spec_float) :
  SFcompare a b = Some Lt -> SFcompare b c = Some Lt -> SFcompare a c = Some Lt.
Proof.
  destruct a as [sa|sa| |sa ma ea], b as [sb|sb| |sb mb eb],
    c as [sc|sc| |sc mc ec]; cbn [SFcompare];
    try destruct sa; try destruct sb; try destruct sc;
    try discriminate; try reflexivity.
  all: change (Pos.compare_cont Eq) with Pos.compare.
  all: destruct (Z.compare_spec ea eb); try discriminate;
    destruct (Z.compare_spec eb ec); try discriminate;
    destruct (Z.compare_spec ea ec); try reflexivity; try lia.
  all: subst; destruct (Pos.compare_spec ma mb); try discriminate;
    destruct (Pos.compare_spec mb mc); try discriminate;
    destruct (Pos.compare_spec ma mc); try reflexivity; try discriminate; lia.
Qed.

Lemma ltb_trans (a b c : float) :
  (a <? b)%float = true -> (b <? c)%float = true -> (a <? c)%float = true.
Proof.
  rewrite !FloatAxioms.ltb_spec. unfold SFltb.
  destruct (SFcompare (Prim2SF a) (Prim2SF b)) as [[]|] eqn:E1; try discriminate.
  destruct (SFcompare (Prim2SF b) (Prim2SF c)) as [[]|] eqn:E2; try discriminate.
  rewrite (SFcompare_Lt_trans _ _ _ E1 E2). reflexivity.
Qed.

Lemma SFcompare_swap (a b : spec_float) :
  SFcompare b a = option_map CompOpp (SFcompare a b).
Proof.
  destruct a as [sa|sa| |sa ma ea], b as [sb|sb| |sb mb eb]; cbn [SFcompare];
    try destruct sa; try destruct sb; try reflexivity.
  all: change (Pos.compare_cont Eq) with Pos.compare; cbn [option_map];
    rewrite (Z.compare_antisym ea eb), (Pos.compare_antisym ma mb);
    destruct (ea ?= eb); cbn [CompOpp]; try reflexivity;
    destruct (ma ?= mb)%positive; reflexivity.
Qed.

(** [t <= m] excludes [m < t]. *)
Lemma leb_true_ltb_false (t m : float) :
  (t <=? m)%float = true -> (m <? t)%float = false.
Proof.
  rewrite FloatAxioms.leb_spec, FloatAxioms.ltb_spec. unfold SFleb, SFltb.
  rewrite (SFcompare_swap (Prim2SF t) (Prim2SF m)).
  destruct (SFcompare (Prim2SF t) (Prim2SF m)) as [[]|]; cbn; congruence.
Qed.

(** Only numbers and infinities compare: neither side of [a < b] is NaN. *)
Lemma ltb_true_not_NaN (a b : float) :
  (a <? b)%float = true -> is_NaN a = false /\ is_NaN b = false.
Proof.
  rewrite FloatAxioms.ltb_spec. unfold SFltb, is_NaN.
  destruct (Prim2SF a), (Prim2SF b); cbn; try discriminate; auto.
Qed.

(** Away from NaN the order is total: not [a < b] gives [b <= a]. *)
Lemma ltb_false_leb (a b : float) :
  is_NaN a = false -> is_NaN b = false ->
  (a <? b)%float = false -> (b <=? a)%float = true.
Proof.
  rewrite FloatAxioms.leb_spec, FloatAxioms.ltb_spec. unfold SFleb, SFltb, is_NaN.
  rewrite (SFcompare_swap (Prim2SF a) (Prim2SF b)).
  destruct (Prim2SF a) as [sa|sa| |sa ma ea], (Prim2SF b) as [sb|sb| |sb mb eb];
    try discriminate; intros _ _;
    destruct (SFcompare _ _) as [[]|] eqn:E; cbn; try congruence;
    try destruct sa; try destruct sb; discriminate.
Qed.

(** NaN is below nothing and above nothing. *)
Lemma ltb_NaN_r (m t : float) : is_NaN t = true -> (m <? t)%float = false.
Proof.
  rewrite FloatAxioms.ltb_spec. unfold SFltb, is_NaN.
  destruct (Prim2SF t); try discriminate.
  destruct (Prim2SF m); reflexivity.
Qed.

(** ** Sorted vectors *)

Lemma strictly_increasing_cons (x : float) (v : list float) :
  strictly_increasing (x :: v) = true -> strictly_increasing v = true.
Proof.
  destruct v as [|y v]; [reflexivity|].
  cbn [strictly_increasing]. rewrite andb_true_iff. intros [_ H]. exact H.
Qed.

Lemma strictly_increasing_head (x : float) (v : list float) (j : nat) :
  strictly_increasing (x :: v) = true -> (j < List.length v)%nat ->
  (x <? nth j v nan)%float = true.
Proof.
  revert x j. induction v as [|y v IH]; intros x j Hs Hj; [simpl in Hj; lia|].
  pose proof Hs as Hs'.
  cbn [strictly_increasing] in Hs. apply andb_true_iff in Hs.
  destruct Hs as [Hxy Hv].
  destruct j as [|j]; [exact Hxy|].
  cbn [nth]. apply (ltb_trans x y); [exact Hxy|].
  apply IH; [exact Hv | simpl in Hj; lia].
Qed.

(** In a strictly increasing vector, an earlier element is below a later one. *)
Lemma strictly_increasing_nth (v : list float) (i j : nat) :
  strictly_increasing v = true -> (i < j)%nat -> (j < List.length v)%nat ->
  (nth i v nan <? nth j v nan)%float = true.
Proof.
  revert i j. induction v as [|x v IH]; intros i j Hs Hij Hj; [simpl in Hj; lia|].
  destruct j as [|j]; [lia|].
  destruct i as [|i].
  - cbn [nth]. apply strictly_increasing_head; [exact Hs | simpl in Hj; lia].
  - cbn [nth]. apply IH;
      [exact (strictly_increasing_cons _ _ Hs) | lia | simpl in Hj; lia].
Qed.

(** The elements below [t] come first: if [v[j] < t] then [v[i] < t] for
    the earlier [i]. *)
Lemma strictly_increasing_partitioned (v : list float) (t : float) (i j : nat) :
  strictly_increasing v = true -> (i <= j)%nat -> (j < List.length v)%nat ->
  (nth j v nan <? t)%float = true -> (nth i v nan <? t)%float = true.
Proof.
  intros Hs Hij Hj Hlt.
  destruct (Nat.eq_dec i j) as [->|Hne]; [exact Hlt|].
  apply (ltb_trans _ (nth j v nan)); [|exact Hlt].
  apply strictly_increasing_nth; [exact Hs | lia | exact Hj].
Qed.

(** ** Correctness of the binary search *)

Section LowerBound.

Variable v : list float.
Variable t : float.

(** The range is partitioned by [< t]. *)
Hypothesis partitioned :
  forall i j : nat, (i <= j)%nat -> (j < List.length v)%nat ->
    (nth j v nan <? t)%float = true -> (nth i v nan <? t)%float = true.

Lemma lower_bound_loop_correct (fuel first len : nat) :
  (len <= fuel)%nat -> (first + len <= List.length v)%nat ->
  (forall j, (j < first)%nat -> (nth j v nan <? t)%float = true) ->
  (forall j, (first + len <= j)%nat -> (j < List.length v)%nat ->
             (nth j v nan <? t)%float = false) ->
  let r := lower_bound_loop fuel v t first len in
  (forall j, (j < r)%nat -> (nth j v nan <? t)%float = true) /\
  (forall j, (r <= j)%nat -> (j < List.length v)%nat ->
             (nth j v nan <? t)%float = false).
Proof.
  revert first len. induction fuel as [|fuel IH]; intros first len Hfuel Hn Hlo Hhi;
    cbn [lower_bound_loop].
  - split; [exact Hlo|]. intros j Hj. apply Hhi. lia.
  - destruct (0 <? len)%nat eqn:E.
    2:{ apply Nat.ltb_ge in E. split; [exact Hlo|].
        intros j Hj. apply Hhi. lia. }
    apply Nat.ltb_lt in E. pose proof (div2_lt len E) as Hd.
    revert Hd. generalize (Nat.div2 len). intros half Hd.
    destruct (nth (first + half) v nan <? t)%float eqn:Em.
    + apply IH; [lia | lia | |].
      * intros j Hj. apply (partitioned j (first + half)%nat); [lia | lia | exact Em].
      * intros j Hj. apply Hhi. lia.
    + apply IH; [lia | lia | exact Hlo |].
      intros j Hj Hjn.
      destruct (nth j v nan <? t)%float eqn:Ej; [|reflexivity].
      rewrite (partitioned (first + half)%nat j) in Em; [discriminate | lia | lia | exact Ej].
Qed.

(** [lower_bound] returns the partition point: every element before it is
    below [t], no element from it on is. *)
Lemma lower_bound_correct :
  (forall j, (j < lower_bound v t)%nat -> (nth j v nan <? t)%float = true) /\
  (forall j, (lower_bound v t <= j)%nat -> (j < List.length v)%nat ->
             (nth j v nan <? t)%float = false).
Proof.
  unfold lower_bound. apply lower_bound_loop_correct; lia.
Qed.

End LowerBound.

(** ** The three branches of [interpolate] *)

Lemma nth_pred_length_last (v : list float) (d : float) :
  nth (List.length v - 1) v d = last v d.
Proof.
  induction v as [|x v IH]; [reflexivity|].
  destruct v as [|y v]; [reflexivity|].
  change (last (x :: y :: v) d) with (last (y :: v) d). rewrite <- IH.
  simpl. rewrite Nat.sub_0_r. reflexivity.
Qed.

Lemma nth_0_hd (v : list float) (d : float) : nth 0 v d = hd d v.
Proof. destruct v; reflexivity. Qed.

Section Interpolate.

Variable c : YieldCurve.
Variable t : float.
Hypothesis same_length : List.length (maturities c) = List.length (rates c).
Hypothesis has_point : maturities c <> [].

Lemma interpolate_at_begin :
  lower_bound (maturities c) t = 0%nat ->
  interpolate c t = Returns (hd nan (rates c)).
Proof.
  intros H. unfold interpolate, front. rewrite H. cbn [Nat.eqb].
  rewrite at_index_lt, nth_0_hd; [reflexivity|].
  destruct (maturities c); [congruence | simpl in same_length; lia].
Qed.

Lemma interpolate_at_end :
  lower_bound (maturities c) t = List.length (maturities c) ->
  interpolate c t = Returns (last (rates c) nan).
Proof.
  intros H. unfold interpolate, back. rewrite H, Nat.eqb_refl.
  assert (Hpos : (0 < List.length (maturities c))%nat)
    by (destruct (maturities c); [congruence | simpl; lia]).
  destruct (List.length (maturities c) =? 0)%nat eqn:E;
    [apply Nat.eqb_eq in E; lia|].
  destruct (rates c) as [|r rs] eqn:Er; [simpl in same_length; lia|].
  rewrite at_index_lt by (simpl; lia).
  rewrite nth_pred_length_last. reflexivity.
Qed.

Lemma interpolate_between (i : nat) :
  lower_bound (maturities c) t = S i ->
  (S i < List.length (maturities c))%nat ->
  interpolate c t =
  Returns (nth i (rates c) nan +
           (nth (S i) (rates c) nan - nth i (rates c) nan) *
           (t - nth i (maturities c) nan) /
           (nth (S i) (maturities c) nan - nth i (maturities c) nan))%float.
Proof.
  intros H Hlt. unfold interpolate. rewrite H.
  assert (E : (S i =? List.length (maturities c))%nat = false)
    by (apply Nat.eqb_neq; lia).
  rewrite E. change (S i =? 0)%nat with false. cbv iota.
  replace (S i - 1)%nat with i by lia.
  rewrite !at_index_lt by lia. reflexivity.
Qed.

Hypothesis sorted : strictly_increasing (maturities c) = true.

Let partitioned := fun i j =>
  strictly_increasing_partitioned (maturities c) t i j sorted.

(** [t] at or below the first maturity: the search stops at the first
    element. *)
Lemma lower_bound_begin :
  (t <=? hd nan (maturities c))%float = true ->
  lower_bound (maturities c) t = 0%nat.
Proof.
  intros Hle. apply leb_true_ltb_false in Hle.
  destruct (lower_bound_correct (maturities c) t partitioned) as [Hlo _].
  destruct (lower_bound (maturities c) t) as [|k] eqn:E; [reflexivity|].
  rewrite <- nth_0_hd, Hlo in Hle by lia. discriminate.
Qed.

(** A NaN [t] is above no maturity: the search stops at the first element. *)
Lemma lower_bound_NaN :
  is_NaN t = true -> lower_bound (maturities c) t = 0%nat.
Proof.
  intros Hnan.
  destruct (lower_bound_correct (maturities c) t partitioned) as [Hlo _].
  destruct (lower_bound (maturities c) t) as [|k] eqn:E; [reflexivity|].
  specialize (Hlo 0%nat ltac:(lia)).
  rewrite (ltb_NaN_r _ t Hnan) in Hlo. discriminate.
Qed.

(** [t] above the last maturity: the search runs past the end. *)
Lemma lower_bound_end :
  (last (maturities c) nan <? t)%float = true ->
  lower_bound (maturities c) t = List.length (maturities c).
Proof.
  intros Hlt.
  destruct (lower_bound_correct (maturities c) t partitioned) as [_ Hhi].
  pose proof (lower_bound_le_length (maturities c) t) as Hle.
  assert (Hpos : (0 < List.length (maturities c))%nat)
    by (destruct (maturities c); [congruence | simpl; lia]).
  destruct (Nat.eq_dec (lower_bound (maturities c) t) (List.length (maturities c)))
    as [E|E]; [exact E|].
  rewrite <- nth_pred_length_last, Hhi in Hlt by lia. discriminate.
Qed.

(** [t] above the first maturity and at or below the last: the search
    stops inside, between a maturity below [t] and one not below [t]. *)
Lemma lower_bound_between :
  (hd nan (maturities c) <? t)%float = true ->
  (t <=? last (maturities c) nan)%float = true ->
  exists i : nat,
    lower_bound (maturities c) t = S i /\
    (S i < List.length (maturities c))%nat /\
    (nth i (maturities c) nan <? t)%float = true /\
    (t <=? nth (S i) (maturities c) nan)%float = true.
Proof.
  intros Hlo Hhi.
  destruct (lower_bound_correct (maturities c) t partitioned) as [Hbelow Hnot].
  pose proof (lower_bound_le_length (maturities c) t) as Hle.
  assert (Hpos : (0 < List.length (maturities c))%nat)
    by (destruct (maturities c); [congruence | simpl; lia]).
  destruct (lower_bound (maturities c) t) as [|i] eqn:E.
  { rewrite <- nth_0_hd, Hnot in Hlo by lia. discriminate. }
  exists i. split; [reflexivity|].
  assert (Hin : (S i < List.length (maturities c))%nat).
  { destruct (Nat.eq_dec (S i) (List.length (maturities c))) as [E'|E']; [|lia].
    apply leb_true_ltb_false in Hhi.
    rewrite <- nth_pred_length_last, Hbelow in Hhi by lia. discriminate. }
  split; [exact Hin|]. split; [apply Hbelow; lia|].
  apply ltb_false_leb.
  - apply (ltb_true_not_NaN _ _
             (strictly_increasing_nth (maturities c) i (S i) sorted
                (Nat.lt_succ_diag_r i) Hin)).
  - apply (ltb_true_not_NaN _ _ Hlo).
  - apply Hnot; lia.
Qed.

End Interpolate.

(** C2: on a constructed curve with a point and strictly increasing
    maturities, none of them NaN, and for a [t] that is not NaN, one of
    three cases holds and decides the result.  [interpolate t] returns the
    first rate when [t] is at or below the first maturity, the last rate
    when [t] is above the last maturity, and otherwise the interpolation
    r0 + (r1 - r0) * (t - t0) / (t1 - t0) between the point (t0, r0)
    immediately before the index the search found and the point (t1, r1) at
    that index, where t0 < t <= t1. *)
Theorem interpolate_cases (ms rs : list float) (c : YieldCurve) (t : float) :
  YieldCurve_new ms rs = Returns c -> ms <> [] ->
  strictly_increasing ms = true ->
  Forall (fun m => is_NaN m = false) ms ->
  is_NaN t = false ->
  ((t <=? hd nan ms)%float = true -> interpolate c t = Returns (hd nan rs)) /\
  ((last ms nan <? t)%float = true -> interpolate c t = Returns (last rs nan)) /\
  ((t <=? hd nan ms)%float = false -> (last ms nan <? t)%float = false ->
   exists (i : nat) (t0 t1 r0 r1 : float),
     lower_bound ms t = S i /\
     nth_error ms i = Some t0 /\ nth_error ms (S i) = Some t1 /\
     nth_error rs i = Some r0 /\ nth_error rs (S i) = Some r1 /\
     (t0 <? t)%float = true /\ (t <=? t1)%float = true /\
     interpolate c t = Returns (r0 + (r1 - r0) * (t - t0) / (t1 - t0))%float).
Proof.
  intros Hc Hne Hs Hnum Ht.
  apply YieldCurve_new_Returns in Hc. destruct Hc as [-> Hlen].
  assert (Hhd : is_NaN (hd nan ms) = false).
  { destruct ms as [|m ms']; [congruence|]. inversion Hnum. assumption. }
  assert (Hlast : is_NaN (last ms nan) = false).
  { rewrite Forall_forall in Hnum. apply Hnum.
    rewrite <- nth_pred_length_last. apply nth_In.
    destruct ms; [congruence | simpl; lia]. }
  repeat split.
  - intros H. apply interpolate_at_begin; [assumption..|].
    apply lower_bound_begin; assumption.
  - intros H. apply interpolate_at_end; [assumption..|].
    apply lower_bound_end; assumption.
  - intros Hnlo Hnhi.
    assert (Hlo : (hd nan ms <? t)%float = true).
    { destruct (hd nan ms <? t)%float eqn:E; [reflexivity|].
      rewrite (ltb_false_leb _ _ Hhd Ht E) in Hnlo. discriminate. }
    pose proof (ltb_false_leb _ _ Hlast Ht Hnhi) as Hhi.
    destruct (lower_bound_between (mkYieldCurve ms rs) t Hlen Hne Hs Hlo Hhi)
      as (i & Hi & Hin & Hbelow & Hle).
    cbn [maturities] in *.
    exists i, (nth i ms nan), (nth (S i) ms nan), (nth i rs nan), (nth (S i) rs nan).
    repeat split; try assumption.
    + apply nth_error_nth'. lia.
    + apply nth_error_nth'. lia.
    + apply nth_error_nth'. lia.
    + apply nth_error_nth'. lia.
    + apply (interpolate_between (mkYieldCurve ms rs) t Hlen i Hi Hin).
Qed.

(** ** Perturbing the curve *)

Lemma one_to_snoc (k : nat) : one_to (S k) = one_to k ++ [Z.of_nat (S k)].
Proof.
  unfold one_to. rewrite seq_S, map_app. reflexivity.
Qed.

Lemma one_to_length (k : nat) : List.length (one_to k) = k.
Proof. unfold one_to. rewrite length_map, length_seq. reflexivity. Qed.

Lemma perturbed_rates_length (base : YieldCurve) (k : nat) (ds : list float) :
  List.length ds = k -> List.length (perturbed_rates base k ds) = k.
Proof.
  intros H. unfold perturbed_rates.
  rewrite length_map, length_combine, one_to_length, H. apply Nat.min_id.
Qed.

Lemma combine_snoc {A B : Type} (l : list A) (l' : list B) (a : A) (b : B) :
  List.length l = List.length l' ->
  combine (l ++ [a]) (l' ++ [b]) = combine l l' ++ [(a, b)].
Proof.
  revert l'. induction l as [|x l IH]; intros [|y l'] H; try discriminate.
  - reflexivity.
  - simpl. rewrite IH by (simpl in H; lia). reflexivity.
Qed.

Lemma perturbed_rates_snoc (base : YieldCurve) (k : nat) (ds : list float) (d : float) :
  List.length ds = k ->
  perturbed_rates base (S k) (ds ++ [d]) =
  perturbed_rates base k ds ++
  [std_max 0%float (rate_at base (of_int (Z.of_nat (S k))) + d)%float].
Proof.
  intros H. unfold perturbed_rates. rewrite one_to_snoc.
  rewrite combine_snoc by (rewrite one_to_length; auto).
  rewrite map_app. reflexivity.
Qed.

(** Every rate of a perturbed curve is the larger of [0.0] and a sum, hence
    at least zero -- also when the sum is negative, infinite or NaN. *)
Lemma std_max_0_nonneg (x : float) : (0 <=? std_max 0%float x)%float = true.
Proof.
  unfold std_max. destruct (0 <? x)%float eqn:E; [|reflexivity].
  revert E. rewrite FloatAxioms.ltb_spec, FloatAxioms.leb_spec.
  unfold SFltb, SFleb. destruct (SFcompare _ _) as [[]|]; congruence.
Qed.

Lemma perturbed_rates_nonneg (base : YieldCurve) (k : nat) (ds : list float) :
  Forall (fun r => (0 <=? r)%float = true) (perturbed_rates base k ds).
Proof.
  unfold perturbed_rates. apply Forall_map, Forall_forall.
  intros p _. apply std_max_0_nonneg.
Qed.

Section Perturbation.

Variable Gen : Type.
Variable draw : Gen -> float * Gen.

Lemma draws_length (k : nat) (g : Gen) : List.length (fst (draws draw k g)) = k.
Proof.
  revert g. induction k as [|k IH]; intros g; [reflexivity|].
  cbn [draws]. destruct (draw g) as [x g1].
  specialize (IH g1). destruct (draws draw k g1) as [xs g2].
  simpl in *. congruence.
Qed.

Lemma draws_S (k : nat) (g : Gen) :
  draws draw (S k) g =
  (let (x, g1) := draw g in
   let (xs, g2) := draws draw k g1 in (x :: xs, g2)).
Proof. reflexivity. Qed.

Lemma draws_snoc (k : nat) (g : Gen) :
  draws draw (S k) g =
  (fst (draws draw k g) ++ [fst (draw (snd (draws draw k g)))],
   snd (draw (snd (draws draw k g)))).
Proof.
  revert g. induction k as [|k IH]; intros g.
  - cbn [draws fst snd app]. destruct (draw g). reflexivity.
  - rewrite draws_S, (draws_S k g).
    destruct (draw g) as [x g1]. rewrite IH.
    destruct (draws draw k g1) as [xs g2]. reflexivity.
Qed.

Lemma with_gen_same (e : BondPriceCalculator Gen) : with_gen e (gen e) = e.
Proof. destruct e. reflexivity. Qed.

(** With an empty base curve the first lookup has no value. *)
Lemma shiftYieldCurve_empty_base (e0 : BondPriceCalculator Gen) :
  maturities (yield_curve e0) = [] -> rates (yield_curve e0) = [] ->
  0 < years_to_maturity e0 ->
  shiftYieldCurve draw e0 = Undefined.
Proof.
  intros Hm Hr Hy. unfold shiftYieldCurve. rewrite for_le_unfold.
  replace (1 <=? years_to_maturity e0) with true by (symmetry; apply Z.leb_le; lia).
  unfold interpolate at 1. rewrite Hm, Hr. reflexivity.
Qed.

Variable e : BondPriceCalculator Gen.
Hypothesis base_same_length :
  List.length (maturities (yield_curve e)) = List.length (rates (yield_curve e)).
Hypothesis base_has_point : maturities (yield_curve e) <> [].

(** The state of the loop of [shiftYieldCurve] after [k] rounds. *)
Lemma shiftYieldCurve_loop (k : nat) :
  for_loop k 1
    (fun i (st : list float * list float * BondPriceCalculator Gen) =>
       let '(maturities, rates, e) := st in
       let maturities := maturities ++ [of_int i] in
       base_rate <- interpolate (yield_curve e) (of_int i) ;;
       let (d, e) := sample draw e in
       let shifted_rate := (base_rate + d)%float in
       let rates := rates ++ [std_max 0%float shifted_rate] in
       Returns (maturities, rates, e))
    ([], [], e)
  = Returns (map of_int (one_to k),
             perturbed_rates (yield_curve e) k (fst (draws draw k (gen e))),
             with_gen e (snd (draws draw k (gen e)))).
Proof.
  induction k as [|k IH].
  - cbn. rewrite with_gen_same. reflexivity.
  - rewrite for_loop_snoc, IH. cbn [bind].
    replace (1 + Z.of_nat k) with (Z.of_nat (S k)) by lia.
    cbn [yield_curve with_gen].
    rewrite (interpolate_total _ _ base_same_length base_has_point).
    cbn [bind]. unfold sample. cbn [gen with_gen].
    rewrite draws_snoc. cbn [fst snd].
    destruct (draw (snd (draws draw k (gen e)))) as [d g'] eqn:Ed.
    cbn [fst snd].
    rewrite one_to_snoc, map_app, perturbed_rates_snoc by apply draws_length.
    reflexivity.
Qed.

Hypothesis maturity_in_range : years_to_maturity e < INT_MAX.

(** With [years_to_maturity] below [INT_MAX], [shiftYieldCurve] returns the
    curve with maturities 1, ..., ytm whose rate at [i] is the larger of
    [0.0] and the base rate at [i] plus the [i]-th draw, and leaves the
    engine as it was but for the generator. *)
Lemma shiftYieldCurve_Returns :
  let n := Z.to_nat (years_to_maturity e) in
  shiftYieldCurve draw e =
  Returns (mkYieldCurve (map of_int (one_to n))
             (perturbed_rates (yield_curve e) n (fst (draws draw n (gen e)))),
           with_gen e (snd (draws draw n (gen e)))).
Proof.
  intros n. unfold shiftYieldCurve.
  rewrite for_le_in_range by exact maturity_in_range.
  replace (Z.to_nat (years_to_maturity e + 1 - 1)) with n by (unfold n; lia).
  rewrite shiftYieldCurve_loop. cbn [bind]. unfold YieldCurve_new.
  rewrite length_map, one_to_length, perturbed_rates_length by apply draws_length.
  rewrite Nat.eqb_refl. reflexivity.
Qed.

End Perturbation.

(** ** Division by zero and square roots of doubles *)

(** A quotient by [0.0] is never a number: it is an infinity or NaN. *)
Lemma div_by_zero_not_finite (x : float) : finite (x / 0)%float = false.
Proof.
  unfold finite. rewrite FloatAxioms.div_spec, Prim2SF_zero.
  destruct (Prim2SF x) as [s|s| |s m e]; reflexivity.
Qed.

(** The square root of an infinity or of NaN is an infinity or NaN. *)
Lemma sqrt_not_finite (x : float) :
  finite x = false -> finite (PrimFloat.sqrt x) = false.
Proof.
  unfold finite. rewrite FloatAxioms.sqrt_spec.
  destruct (Prim2SF x) as [s|s| |s m e]; try discriminate;
    try destruct s; reflexivity.
Qed.

(** ** The Monte Carlo driver *)

Lemma fold_left_map {A B C : Type} (f : A -> B -> A) (g : C -> B)
  (l : list C) (a : A) :
  fold_left f (map g l) a = fold_left (fun acc x => f acc (g x)) l a.
Proof.
  revert a. induction l as [|x l IH]; intros a; [reflexivity|]. simpl. apply IH.
Qed.

Section MonteCarlo.

Variable pow : float -> float -> float.
Variable Gen : Type.
Variable draw : Gen -> float * Gen.

(** The loop of [calculateMonteCarlo] appends the prices of the trials,
    in their order, to the prices it has. *)
Lemma calculateMonteCarlo_loop (k : nat) (i : Z) (acc : list float)
  (e : BondPriceCalculator Gen) :
  for_loop k i
    (fun _ (st : list float * BondPriceCalculator Gen) =>
       let (prices, e) := st in
       r <- shiftYieldCurve draw e ;;
       let (shifted_curve, e) := r in
       price <- calculatePrice pow e shifted_curve ;;
       Returns (prices ++ [price], e))
    (acc, e)
  = (r <- trials pow draw k e ;; Returns (acc ++ fst r, snd r)).
Proof.
  revert i acc e. induction k as [|k IH]; intros i acc e.
  - cbn. rewrite app_nil_r. reflexivity.
  - rewrite for_loop_S. cbn [trials]. unfold trial.
    destruct (shiftYieldCurve draw e) as [[c e1]| |]; cbn [bind fst snd];
      try reflexivity.
    destruct (calculatePrice pow e1 c) as [p| |]; cbn [bind fst snd];
      try reflexivity.
    rewrite IH.
    destruct (trials pow draw k e1) as [[ps e2]| |]; cbn [bind fst snd];
      try reflexivity.
    rewrite <- app_assoc. reflexivity.
Qed.

(** [calculateMonteCarlo] runs [num_simulations] trials and returns the
    sample mean and the sample standard deviation of their prices. *)
Lemma calculateMonteCarlo_trials (e : BondPriceCalculator Gen) :
  calculateMonteCarlo pow draw e =
  (r <- trials pow draw (Z.to_nat (num_simulations e)) e ;;
   Returns (sample_mean (fst r) (num_simulations (snd r)),
            sample_stddev pow (fst r) (num_simulations (snd r)),
            snd r)).
Proof.
  unfold calculateMonteCarlo, for_lt.
  rewrite Z.sub_0_r, calculateMonteCarlo_loop, bind_bind.
  destruct (trials pow draw _ e) as [[ps e']| |]; cbn [bind fst snd app];
    try reflexivity.
  unfold sample_mean, sample_stddev, sum_list, accumulate.
  rewrite fold_left_map, of_int_2. reflexivity.
Qed.

Lemma trials_length (k : nat) (e e' : BondPriceCalculator Gen) (ps : list float) :
  trials pow draw k e = Returns (ps, e') -> List.length ps = k.
Proof.
  revert e ps. induction k as [|k IH]; intros e ps; cbn [trials].
  - intros H. inversion H. reflexivity.
  - destruct (trial pow draw e) as [[p e1]| |]; cbn [bind fst snd]; try discriminate.
    destruct (trials pow draw k e1) as [[ps1 e2]| |] eqn:E; cbn [bind fst snd];
      try discriminate.
    intros H. inversion H. subst. simpl. f_equal. apply (IH e1). exact E.
Qed.

(** Pricing returns a value on every curve with a point, when the number
    of periods is an [int] below [INT_MAX]. *)
Lemma calculatePrice_total (e : BondPriceCalculator Gen) (c : YieldCurve) :
  List.length (maturities c) = List.length (rates c) ->
  maturities c <> [] ->
  INT_MIN <= years_to_maturity e * coupons_per_year e < INT_MAX ->
  exists p, calculatePrice pow e c = Returns p.
Proof.
  intros Hlen Hne Hr. destruct (is_zero_coupon e) eqn:Hz.
  - rewrite calculatePrice_zero_coupon by exact Hz.
    rewrite (interpolate_total c _ Hlen Hne). cbn [bind]. eauto.
  - rewrite calculatePrice_coupon by assumption. eauto.
Qed.

(** A trial returns a price and changes the generator only, when the
    engine has a curve with a point, at least one year to maturity, and
    loop bounds below [INT_MAX]. *)
Lemma trial_total (e : BondPriceCalculator Gen) :
  List.length (maturities (yield_curve e)) = List.length (rates (yield_curve e)) ->
  maturities (yield_curve e) <> [] ->
  0 < years_to_maturity e < INT_MAX ->
  INT_MIN <= years_to_maturity e * coupons_per_year e < INT_MAX ->
  exists p g, trial pow draw e = Returns (p, with_gen e g).
Proof.
  intros Hlen Hne Hy Hr. unfold trial.
  rewrite (shiftYieldCurve_Returns Gen draw e Hlen Hne (proj2 Hy)).
  cbn [bind fst snd].
  set (n := Z.to_nat (years_to_maturity e)).
  destruct (calculatePrice_total
              (with_gen e (snd (draws draw n (gen e))))
              (mkYieldCurve (map of_int (one_to n))
                 (perturbed_rates (yield_curve e) n (fst (draws draw n (gen e))))))
    as [p Hp].
  - cbn [maturities rates].
    rewrite length_map, one_to_length, perturbed_rates_length by apply draws_length.
    reflexivity.
  - cbn [maturities]. intros H. apply (f_equal (@List.length float)) in H.
    rewrite length_map, one_to_length in H. simpl in H. unfold n in H. lia.
  - exact Hr.
  - rewrite Hp. cbn [bind]. eauto.
Qed.

Lemma trials_total (k : nat) (e : BondPriceCalculator Gen) :
  List.length (maturities (yield_curve e)) = List.length (rates (yield_curve e)) ->
  maturities (yield_curve e) <> [] ->
  0 < years_to_maturity e < INT_MAX ->
  INT_MIN <= years_to_maturity e * coupons_per_year e < INT_MAX ->
  exists ps g, trials pow draw k e = Returns (ps, with_gen e g).
Proof.
  intros Hlen Hne Hy Hr. revert e Hlen Hne Hy Hr.
  induction k as [|k IH]; intros e Hlen Hne Hy Hr; cbn [trials].
  - exists [], (gen e). rewrite with_gen_same. reflexivity.
  - destruct (trial_total e Hlen Hne Hy Hr) as (p & g & Ht). rewrite Ht.
    cbn [bind fst snd].
    destruct (IH (with_gen e g) Hlen Hne Hy Hr) as (ps & g' & Hts).
    rewrite Hts. cbn [bind fst snd]. exists (p :: ps), g'. reflexivity.
Qed.

(** C5: [calculateMonteCarlo] runs [num_simulations] trials, each of
    which perturbs the curve and prices the perturbed curve, from the
    generator state the previous trial left; over the prices p_1, ..., p_n
    of the trials it returns mean = (p_1 + ... + p_n) / n and
    sqrt((sum of (p_i - mean)^2) / (n - 1)).  On a constructed engine whose
    curve has a point, and whose number of periods is below [INT_MAX] (as
    the loops on an [int] need), the n trials return n prices.  When n = 1 the
    divisor n - 1 is [0.0], and the standard deviation returned is not a
    number: it is NaN or infinite. *)
Theorem calculateMonteCarlo_mean_stddev :
  (forall e : BondPriceCalculator Gen,
      0 < num_simulations e ->
      calculateMonteCarlo pow draw e =
      (r <- trials pow draw (Z.to_nat (num_simulations e)) e ;;
       Returns (sample_mean (fst r) (num_simulations (snd r)),
                sample_stddev pow (fst r) (num_simulations (snd r)),
                snd r))) /\
  (forall (e : BondPriceCalculator Gen),
      trial pow draw e =
      (r <- shiftYieldCurve draw e ;;
       p <- calculatePrice pow (snd r) (fst r) ;;
       Returns (p, snd r))) /\
  (forall (fv cr : float) (ytm cpy : Z) (ms rs : list float) (yc : YieldCurve)
          (n : Z) (seed : Gen) (e : BondPriceCalculator Gen),
      YieldCurve_new ms rs = Returns yc -> ms <> [] ->
      BondPriceCalculator_new fv cr ytm cpy yc n seed = Returns e ->
      ytm * cpy < INT_MAX ->
      0 < n /\
      exists (ps : list float) (g : Gen),
        trials pow draw (Z.to_nat n) e = Returns (ps, with_gen e g) /\
        Z.of_nat (List.length ps) = n /\
        calculateMonteCarlo pow draw e =
        Returns (sample_mean ps n, sample_stddev pow ps n, with_gen e g)) /\
  (of_int (1 - 1) = 0%float /\
   forall ps : list float, finite (sample_stddev pow ps 1) = false).
Proof.
  split; [intros e _; apply calculateMonteCarlo_trials|].
  split; [reflexivity|]. split.
  - intros fv cr ytm cpy ms rs yc n seed e Hyc Hne Hnew Hmax.
    apply YieldCurve_new_Returns in Hyc. destruct Hyc as [-> Hlen].
    apply BondPriceCalculator_new_Returns in Hnew.
    destruct Hnew as (-> & _ & _ & Hy & Hc & Hn).
    split; [exact Hn|].
    match goal with |- context [trials pow draw _ ?e] => set (e0 := e) end.
    destruct (trials_total (Z.to_nat n) e0 Hlen Hne
                ltac:(cbn; nia) ltac:(cbn; unfold INT_MIN; nia))
      as (ps & g & Hts).
    exists ps, g. split; [exact Hts|].
    split; [rewrite (trials_length _ _ _ _ Hts); lia|].
    rewrite calculateMonteCarlo_trials. cbn [num_simulations e0].
    fold e0. rewrite Hts. reflexivity.
  - split; [reflexivity|]. intros ps. unfold sample_stddev.
    apply sqrt_not_finite. change (of_int (1 - 1)) with 0%float.
    apply div_by_zero_not_finite.
Qed.

End MonteCarlo.

(** ** Rounding to the format

    The operations of [SpecFloat] round an exact result [m * 2^e] to the
    format with [binary_round_aux].  This section shows that the rounded
    value lies between any two numbers of the format that enclose the exact
    result.  Values are compared as integers, in units of [2^B] for an
    exponent [B] below the exponents at hand. *)

Lemma fexp_ge_emin (prec emax x : Z) :
  SpecFloat.emin prec emax <= SpecFloat.fexp prec emax x.
Proof. unfold SpecFloat.fexp. lia. Qed.

Lemma fexp_mono (prec emax x y : Z) :
  x <= y -> SpecFloat.fexp prec emax x <= SpecFloat.fexp prec emax y.
Proof. unfold SpecFloat.fexp. lia. Qed.

Lemma fexp_cases (prec emax x : Z) :
  (SpecFloat.fexp prec emax x = x - prec /\ SpecFloat.emin prec emax <= x - prec) \/
  (SpecFloat.fexp prec emax x = SpecFloat.emin prec emax /\
   x - prec < SpecFloat.emin prec emax).
Proof. unfold SpecFloat.fexp. lia. Qed.

(** *** Binary digits *)

Lemma digits2_pos_bounds (p : positive) :
  2 ^ (Zpos (digits2_pos p) - 1) <= Zpos p < 2 ^ Zpos (digits2_pos p).
Proof.
  induction p as [p IH|p IH|]; cbn [digits2_pos].
  - rewrite Pos2Z.inj_succ.
    replace (Z.succ (Zpos (digits2_pos p)) - 1)
      with (Z.succ (Zpos (digits2_pos p) - 1)) by lia.
    rewrite !Z.pow_succ_r by lia. lia.
  - rewrite Pos2Z.inj_succ.
    replace (Z.succ (Zpos (digits2_pos p)) - 1)
      with (Z.succ (Zpos (digits2_pos p) - 1)) by lia.
    rewrite !Z.pow_succ_r by lia. lia.
  - simpl. lia.
Qed.

Lemma Zdigits2_bounds (m : Z) :
  0 < m -> 2 ^ (Zdigits2 m - 1) <= m < 2 ^ Zdigits2 m.
Proof.
  destruct m as [|p|p]; try lia. intros _. apply digits2_pos_bounds.
Qed.

Lemma Zdigits2_pos (m : Z) : 0 < m -> 0 < Zdigits2 m.
Proof. destruct m; simpl; lia. Qed.

Lemma Zdigits2_nonneg (m : Z) : 0 <= Zdigits2 m.
Proof. destruct m; simpl; lia. Qed.

(** The number of digits is the only [d] with [2^(d-1) <= m < 2^d]. *)
Lemma Zdigits2_unique (m d : Z) :
  0 < m -> 2 ^ (d - 1) <= m < 2 ^ d -> Zdigits2 m = d.
Proof.
  intros Hm [Hlo Hhi].
  pose proof (Zdigits2_bounds m Hm) as [Hlo' Hhi'].
  pose proof (Zdigits2_pos m Hm) as Hd.
  assert (0 < d).
  { destruct (Z_lt_le_dec 0 d) as [|Hn]; [assumption|].
    destruct (Z.eq_dec d 0) as [->|]; [simpl in Hhi; lia|].
    rewrite Z.pow_neg_r in Hhi by lia. lia. }
  assert (d - 1 < Zdigits2 m) by (apply (Z.pow_lt_mono_r_iff 2); lia).
  assert (Zdigits2 m - 1 < d) by (apply (Z.pow_lt_mono_r_iff 2); lia).
  lia.
Qed.

Lemma Zdigits2_mul_pow2 (m k : Z) :
  0 < m -> 0 <= k -> Zdigits2 (m * 2 ^ k) = Zdigits2 m + k.
Proof.
  intros Hm Hk.
  pose proof (Zdigits2_bounds m Hm) as [Hlo Hhi].
  pose proof (Zdigits2_pos m Hm) as Hd.
  assert (0 < 2 ^ k) by (apply Z.pow_pos_nonneg; lia).
  apply Zdigits2_unique; [nia|].
  replace (Zdigits2 m + k - 1) with (Zdigits2 m - 1 + k) by lia.
  rewrite !Z.pow_add_r by lia. nia.
Qed.

Lemma Zdigits2_div_pow2 (m k : Z) :
  0 < m -> 0 <= k -> k < Zdigits2 m ->
  0 < m / 2 ^ k /\ Zdigits2 (m / 2 ^ k) = Zdigits2 m - k.
Proof.
  intros Hm Hk Hlt.
  pose proof (Zdigits2_bounds m Hm) as [Hlo Hhi].
  assert (Hp : 0 < 2 ^ k) by (apply Z.pow_pos_nonneg; lia).
  assert (Hlo' : 2 ^ (Zdigits2 m - k - 1) <= m / 2 ^ k).
  { apply Z.div_le_lower_bound; [exact Hp|].
    rewrite <- Z.pow_add_r by lia.
    replace (k + (Zdigits2 m - k - 1)) with (Zdigits2 m - 1) by lia. exact Hlo. }
  assert (0 < 2 ^ (Zdigits2 m - k - 1)) by (apply Z.pow_pos_nonneg; lia).
  split; [lia|].
  apply Zdigits2_unique; [lia|]. split; [exact Hlo'|].
  apply Z.div_lt_upper_bound; [exact Hp|].
  rewrite <- Z.pow_add_r by lia.
  replace (k + (Zdigits2 m - k)) with (Zdigits2 m) by lia. exact Hhi.
Qed.

Lemma Zdigits2_mono (m1 m2 : Z) : 0 < m1 -> m1 <= m2 -> Zdigits2 m1 <= Zdigits2 m2.
Proof.
  intros H1 H12.
  pose proof (Zdigits2_bounds m1 H1) as [Hlo1 _].
  pose proof (Zdigits2_bounds m2 ltac:(lia)) as [_ Hhi2].
  pose proof (Zdigits2_pos m1 H1).
  assert (Zdigits2 m1 - 1 < Zdigits2 m2); [|lia].
  apply (Z.pow_lt_mono_r_iff 2); [lia | | lia].
  pose proof (Zdigits2_pos m2 ltac:(lia)). lia.
Qed.

(** *** Shifting right *)

Lemma shr_1_spec (m : Z) (r s : bool) :
  0 <= m ->
  shr_1 (Build_shr_record m r s) = Build_shr_record (m / 2) (Z.odd m) (r || s).
Proof.
  intros Hm. rewrite <- Z.div2_div.
  destruct m as [|p|p]; [reflexivity| |lia].
  destruct p; reflexivity.
Qed.

Lemma iter_pos_invariant {A : Type} (f : A -> A) (I : Z -> A -> Prop) :
  (forall k x, 0 <= k -> I k x -> I (k + 1) (f x)) ->
  forall (p : positive) (k : Z) (x : A),
    0 <= k -> I k x -> I (k + Zpos p) (iter_pos f p x).
Proof.
  intros Hstep. induction p as [p IH|p IH|]; intros k x Hk Hx; cbn [iter_pos].
  - replace (k + Zpos p~1) with (k + 1 + Zpos p + Zpos p) by lia.
    apply IH; [lia|]. apply IH; [lia|]. apply Hstep; assumption.
  - replace (k + Zpos p~0) with (k + Zpos p + Zpos p) by lia.
    apply IH; [lia|]. apply IH; assumption.
  - apply Hstep; assumption.
Qed.

Lemma shifted_step (m k : Z) (mrs : shr_record) :
  0 <= m -> 0 <= k -> shifted m k mrs -> shifted m (k + 1) (shr_1 mrs).
Proof.
  intros Hm Hk [Hq Hex]. destruct mrs as [q r s]. cbn [shr_m shr_r shr_s] in *.
  assert (Hp : 0 < 2 ^ k) by (apply Z.pow_pos_nonneg; lia).
  assert (Hq0 : 0 <= q) by (subst q; apply Z.div_pos; lia).
  rewrite shr_1_spec by exact Hq0. unfold shifted. cbn [shr_m shr_r shr_s].
  rewrite Z.pow_add_r, Z.pow_1_r by lia. split.
  - subst q. rewrite Z.div_div by lia. reflexivity.
  - intros Hmod.
    assert (Hmk : m mod 2 ^ k = 0).
    { apply Z.mod_divide in Hmod; [|lia]. apply Z.mod_divide; [lia|].
      destruct Hmod as [z Hz]. exists (z * 2). lia. }
    destruct (Hex Hmk) as [-> ->]. split; [|reflexivity].
    apply Z.mod_divide in Hmod; [|lia]. destruct Hmod as [z Hz].
    subst q. rewrite Hz.
    replace (z * (2 ^ k * 2)) with (z * 2 * 2 ^ k) by lia.
    rewrite Z.div_mul by lia. rewrite Z.mul_comm, Z.odd_mul. reflexivity.
Qed.

Lemma shr_spec (m e n : Z) :
  0 <= m ->
  exists mrs : shr_record,
    shr (Build_shr_record m false false) e n = (mrs, e + Z.max n 0) /\
    shifted m (Z.max n 0) mrs.
Proof.
  intros Hm. destruct n as [|p|p]; cbn [shr].
  - eexists. split; [rewrite Z.add_0_r; reflexivity|].
    split; cbn; [rewrite Z.div_1_r; reflexivity | auto].
  - eexists. split; [replace (Z.max (Zpos p) 0) with (Zpos p) by lia; reflexivity|].
    replace (Z.max (Zpos p) 0) with (0 + Zpos p) by lia.
    apply (iter_pos_invariant shr_1 (shifted m)).
    + intros k x Hk Hx. apply shifted_step; assumption.
    + lia.
    + split; cbn; [rewrite Z.div_1_r; reflexivity | auto].
  - eexists. split; [replace (Z.max (Zneg p) 0) with 0 by lia; rewrite Z.add_0_r; reflexivity|].
    replace (Z.max (Zneg p) 0) with 0 by lia.
    split; cbn; [rewrite Z.div_1_r; reflexivity | auto].
Qed.

Lemma round_nearest_even_bounds (m : Z) (l : location) :
  m <= round_nearest_even m l <= m + 1.
Proof.
  destruct l as [|[]]; cbn [round_nearest_even]; try lia.
  destruct (Z.even m); lia.
Qed.

Lemma round_of_shifted_bounds (m k : Z) (mrs : shr_record) :
  shifted m k mrs ->
  m / 2 ^ k <= round_nearest_even (shr_m mrs) (loc_of_shr_record mrs) <= m / 2 ^ k + 1.
Proof.
  intros [Hq _]. rewrite <- Hq. apply round_nearest_even_bounds.
Qed.

Lemma round_of_shifted_exact (m k : Z) (mrs : shr_record) :
  shifted m k mrs -> m mod 2 ^ k = 0 ->
  round_nearest_even (shr_m mrs) (loc_of_shr_record mrs) = m / 2 ^ k.
Proof.
  intros [Hq Hex] Hmod. destruct (Hex Hmod) as [Hr Hs].
  destruct mrs as [q r s]. cbn in *. subst. reflexivity.
Qed.

Section RoundExact.

Variable prec emax : Z.
Hypothesis prec_gt_1 : 1 < prec.

Local Abbreviation emin := (SpecFloat.emin prec emax).
Local Abbreviation fexp := (SpecFloat.fexp prec emax).

Lemma pow2_pos (k : Z) : 0 <= k -> 0 < 2 ^ k.
Proof. intros H. apply Z.pow_pos_nonneg; lia. Qed.

Lemma Zdigits2_le_of_lt_pow2 (w k : Z) : 0 < w -> 0 <= k -> w < 2 ^ k -> Zdigits2 w <= k.
Proof.
  intros Hw Hk Hlt. pose proof (Zdigits2_bounds w Hw) as [Hlo _].
  pose proof (Zdigits2_pos w Hw).
  assert (Zdigits2 w - 1 < k); [|lia].
  apply (Z.pow_lt_mono_r_iff 2); lia.
Qed.

Lemma Zdigits2_pow2 (k : Z) : 0 <= k -> Zdigits2 (2 ^ k) = k + 1.
Proof.
  intros Hk. pose proof (pow2_pos k Hk).
  apply Zdigits2_unique; [lia|].
  replace (k + 1 - 1) with k by lia. rewrite Z.pow_add_r by lia. lia.
Qed.

(** The rounding of an exact [mx * 2^ex] whose exponent is not above the
    exponent [e'] of the format at its magnitude: with [q] the quotient of
    [mx] by [2^(e' - ex)], the result is [w * 2^e'] for [w] one of [q] and
    [q + 1], and [q] itself when the division is exact; it is a zero when
    [w] is zero, and otherwise a number or, past the largest exponent, an
    infinity. *)
Lemma binary_round_aux_exact (s : bool) (mx : positive) (ex : Z) :
  let e' := fexp (Zpos (digits2_pos mx) + ex) in
  let q := Zpos mx / 2 ^ (e' - ex) in
  ex <= e' ->
  exists w : Z,
    q <= w <= q + 1 /\
    (Zpos mx mod 2 ^ (e' - ex) = 0 -> w = q) /\
    ((w = 0 /\ binary_round_aux prec emax s (Zpos mx) ex loc_Exact = S754_zero s) \/
     (exists (m2 : positive) (e2 : Z),
         ((e2 = e' /\ Zpos m2 = w) \/
          (e2 = e' + 1 /\ w = 2 ^ prec /\ Zpos m2 = 2 ^ (prec - 1))) /\
         binary_round_aux prec emax s (Zpos mx) ex loc_Exact =
         if e2 <=? emax - prec then S754_finite s m2 e2 else S754_infinity s)).
Proof.
  intros e' q Hal.
  set (d := Zpos (digits2_pos mx)) in *.
  set (n := e' - ex) in *.
  assert (Hn : 0 <= n) by (unfold n; lia).
  unfold binary_round_aux, shr_fexp. cbn [shr_record_of_loc Zdigits2].
  fold d. fold e'. fold n.
  destruct (shr_spec (Zpos mx) ex n ltac:(lia)) as (mrs & Hshr & Hsh).
  rewrite Hshr. rewrite Z.max_l in Hsh by lia.
  replace (ex + Z.max n 0) with e' by (unfold n; lia).
  set (w := round_nearest_even (shr_m mrs) (loc_of_shr_record mrs)).
  pose proof (round_of_shifted_bounds _ _ _ Hsh) as Hw. fold w in Hw. fold q in Hw.
  exists w. split; [exact Hw|]. split.
  { intros Hmod. apply (round_of_shifted_exact _ _ _ Hsh Hmod). }
  assert (Hq0 : 0 <= q) by (apply Z.div_pos; [lia | apply pow2_pos; lia]).
  assert (Hemin : emin <= e') by apply fexp_ge_emin.
  (* the quotient has at most [D] digits *)
  set (D := d + ex - e').
  assert (HD : (e' = d + ex - prec /\ D = prec) \/ (e' = emin /\ D < prec)).
  { destruct (fexp_cases prec emax (d + ex)) as [[H1 H2]|[H1 H2]];
      fold e' in H1; unfold D; lia. }
  assert (Hqlt : q < 2 ^ Z.max D 0).
  { pose proof (digits2_pos_bounds mx) as [_ Hhi]. fold d in Hhi.
    assert (0 < d) by (unfold d; lia).
    apply Z.div_lt_upper_bound; [apply pow2_pos; lia|].
    rewrite <- Z.pow_add_r by lia.
    apply Z.lt_le_trans with (1 := Hhi).
    apply Z.pow_le_mono_r; unfold D, n; lia. }
  destruct (shr_spec w e' (fexp (Zdigits2 w + e') - e') ltac:(lia))
    as (mrs2 & Hshr2 & [Hm2 _]).
  rewrite Hshr2.
  destruct (Z.eq_dec w 0) as [Hw0|Hw0].
  { left. split; [exact Hw0|]. rewrite Hm2, Hw0. rewrite Z.div_0_l; [reflexivity|].
    pose proof (pow2_pos (Z.max (fexp (Zdigits2 0 + e') - e') 0)). lia. }
  right.
  assert (Hwpos : 0 < w) by lia.
  (* the second shift is by nothing, or by one position after a carry *)
  assert (Hcases : (w < 2 ^ prec /\ fexp (Zdigits2 w + e') - e' <= 0) \/
                   (w = 2 ^ prec /\ fexp (Zdigits2 w + e') - e' = 1)).
  { destruct HD as [[He' HDp]|[He' HDp]].
    - rewrite HDp, Z.max_l in Hqlt by lia.
      destruct (Z.eq_dec w (2 ^ prec)) as [E|E].
      + right. split; [exact E|]. rewrite E, Zdigits2_pow2 by lia.
        unfold SpecFloat.fexp. lia.
      + left. split; [lia|].
        pose proof (Zdigits2_le_of_lt_pow2 w prec Hwpos ltac:(lia) ltac:(lia)).
        unfold SpecFloat.fexp. lia.
    - left.
      assert (Hle : w <= 2 ^ Z.max D 0) by lia.
      assert (Hlt : w < 2 ^ prec).
      { apply Z.le_lt_trans with (1 := Hle). apply Z.pow_lt_mono_r; lia. }
      split; [exact Hlt|].
      pose proof (Zdigits2_le_of_lt_pow2 w prec Hwpos ltac:(lia) Hlt).
      unfold SpecFloat.fexp. lia. }
  destruct Hcases as [[Hlt Hn2]|[Heq Hn2]].
  - rewrite Z.max_r in Hm2 by lia. rewrite Z.max_r by lia.
    rewrite Z.pow_0_r, Z.div_1_r in Hm2. rewrite Hm2, Z.add_0_r.
    destruct w as [|pw|pw]; try lia.
    exists pw, e'. split; [left; split; reflexivity|]. reflexivity.
  - rewrite Hn2 in Hm2. rewrite Hn2.
    replace (Z.max 1 0) with 1 in * by lia.
    rewrite Heq in Hm2.
    replace prec with (prec - 1 + 1) in Hm2 at 1 by lia.
    rewrite Z.pow_add_r, Z.pow_1_r, Z.div_mul in Hm2 by lia.
    pose proof (pow2_pos (prec - 1) ltac:(lia)) as Hp.
    rewrite Hm2.
    destruct (2 ^ (prec - 1)) as [|pm|pm] eqn:Epm; try lia.
    exists pm, (e' + 1). split; [right; repeat split; assumption|]. reflexivity.
Qed.

End RoundExact.

Section RoundingBounds.

Variable prec emax : Z.
Hypothesis prec_gt_1 : 1 < prec.

Local Abbreviation emin := (SpecFloat.emin prec emax).
Local Abbreviation fexp := (SpecFloat.fexp prec emax).

(** What it is to be a number of the format. *)
Lemma bounded_inv (m : positive) (e : Z) :
  bounded prec emax m e = true ->
  fexp (Zpos (digits2_pos m) + e) = e /\ e <= emax - prec /\ emin <= e /\
  Zpos (digits2_pos m) <= prec.
Proof.
  unfold bounded, canonical_mantissa. rewrite andb_true_iff, Z.eqb_eq, Z.leb_le.
  intros [Hc He]. repeat split; try assumption.
  - rewrite <- Hc. apply fexp_ge_emin.
  - revert Hc. unfold SpecFloat.fexp. lia.
Qed.

(** Comparing magnitudes gives the order of the exponents of the format. *)
Lemma magnitude_le (B m1 e1 m2 e2 : Z) :
  0 < m1 -> 0 < m2 -> B <= e1 -> B <= e2 ->
  m1 * 2 ^ (e1 - B) <= m2 * 2 ^ (e2 - B) ->
  Zdigits2 m1 + e1 <= Zdigits2 m2 + e2.
Proof.
  intros H1 H2 HB1 HB2 Hle.
  pose proof (Zdigits2_bounds m1 H1) as [Hlo1 _].
  pose proof (Zdigits2_bounds m2 H2) as [_ Hhi2].
  pose proof (Zdigits2_pos m1 H1). pose proof (Zdigits2_pos m2 H2).
  pose proof (pow2_pos (e1 - B) ltac:(lia)).
  pose proof (pow2_pos (e2 - B) ltac:(lia)).
  assert (Hlt : 2 ^ (Zdigits2 m1 - 1 + (e1 - B)) < 2 ^ (Zdigits2 m2 + (e2 - B))).
  { rewrite !Z.pow_add_r by lia. nia. }
  apply Z.pow_lt_mono_r_iff in Hlt; lia.
Qed.

Section WithUnit.

Variable B : Z.
Variable s : bool.
Variable mx : positive.
Variable ex : Z.
Hypothesis unit_below : B <= ex.
Hypothesis aligned : ex <= fexp (Zpos (digits2_pos mx) + ex).

(** A number of the format at or below the exact magnitude is at or below
    the rounded magnitude. *)
Lemma binary_round_aux_lower (ma : positive) (ea : Z) :
  bounded prec emax ma ea = true -> B <= ea ->
  Zpos ma * 2 ^ (ea - B) <= Zpos mx * 2 ^ (ex - B) ->
  binary_round_aux prec emax s (Zpos mx) ex loc_Exact = S754_infinity s \/
  exists (mr : positive) (er : Z),
    binary_round_aux prec emax s (Zpos mx) ex loc_Exact = S754_finite s mr er /\
    B <= er /\
    Zpos ma * 2 ^ (ea - B) <= Zpos mr * 2 ^ (er - B).
Proof.
  intros Hva HBa Hle.
  destruct (bounded_inv ma ea Hva) as (Hca & _ & Hea & Hda).
  pose proof (magnitude_le B (Zpos ma) ea (Zpos mx) ex
                ltac:(lia) ltac:(lia) HBa unit_below Hle) as Hmag.
  cbn [Zdigits2] in Hmag.
  destruct (binary_round_aux_exact prec emax prec_gt_1 s mx ex aligned)
    as (w & Hw & _ & Hres).
  set (d := Zpos (digits2_pos mx)) in *.
  set (e' := fexp (d + ex)) in *.
  set (q := Zpos mx / 2 ^ (e' - ex)) in *.
  set (da := Zpos (digits2_pos ma)) in *.
  assert (Hee : ea <= e').
  { rewrite <- Hca. apply fexp_mono. exact Hmag. }
  pose proof (pow2_pos (e' - ex) ltac:(lia)) as Hpn.
  pose proof (pow2_pos (ex - B) ltac:(lia)) as Hpx.
  pose proof (pow2_pos (ea - B) ltac:(lia)) as Hpa.
  pose proof (pow2_pos (e' - B) ltac:(lia)) as Hpe.
  assert (Hsplit : 2 ^ (e' - B) = 2 ^ (e' - ex) * 2 ^ (ex - B)).
  { rewrite <- Z.pow_add_r by lia. f_equal. lia. }
  (* the number is at or below the truncated magnitude *)
  assert (Hq : Zpos ma * 2 ^ (ea - B) <= q * 2 ^ (e' - B)).
  { destruct (Z.eq_dec ea e') as [E|E].
    - rewrite E in *. 
      assert (Zpos ma <= q); [|nia].
      apply Z.div_le_lower_bound; [lia|]. nia.
    - assert (He' : e' = d + ex - prec).
      { destruct (fexp_cases prec emax (d + ex)) as [[H1 H2]|[H1 H2]];
          fold e' in H1; lia. }
      pose proof (digits2_pos_bounds mx) as [Hlo _]. fold d in Hlo.
      pose proof (digits2_pos_bounds ma) as [_ Hhi]. fold da in Hhi.
      assert (Hq1 : 2 ^ (prec - 1) <= q).
      { apply Z.div_le_lower_bound; [lia|].
        rewrite <- Z.pow_add_r by lia.
        replace (e' - ex + (prec - 1)) with (d - 1) by lia. exact Hlo. }
      assert (Hpd : 2 ^ da <= 2 ^ prec) by (apply Z.pow_le_mono_r; lia).
      assert (Hstep : 2 ^ prec * 2 ^ (ea - B) <= 2 ^ (prec - 1) * 2 ^ (e' - B)).
      { rewrite <- !Z.pow_add_r by lia. apply Z.pow_le_mono_r; lia. }
      pose proof (pow2_pos (prec - 1) ltac:(lia)). nia. }
  assert (Hwq : q * 2 ^ (e' - B) <= w * 2 ^ (e' - B)) by nia.
  destruct Hres as [[Hw0 _]|(m2 & e2 & Hform & HR)].
  { exfalso. nia. }
  rewrite HR.
  assert (Hval : B <= e2 /\ Zpos m2 * 2 ^ (e2 - B) = w * 2 ^ (e' - B)).
  { destruct Hform as [[-> ->]|(-> & Hw2 & ->)]; [split; [lia | reflexivity]|].
    split; [lia|]. rewrite Hw2.
    rewrite <- !Z.pow_add_r by lia. f_equal. lia. }
  destruct Hval as [HBe Hval].
  destruct (e2 <=? emax - prec); [|left; reflexivity].
  right. exists m2, e2. split; [reflexivity|]. split; [exact HBe|]. lia.
Qed.

(** A number of the format at or above the exact magnitude is at or above
    the rounded magnitude, which then is no infinity. *)
Lemma binary_round_aux_upper (mb : positive) (eb : Z) :
  bounded prec emax mb eb = true ->
  Zpos mx * 2 ^ (ex - B) <= Zpos mb * 2 ^ (eb - B) ->
  binary_round_aux prec emax s (Zpos mx) ex loc_Exact = S754_zero s \/
  exists (mr : positive) (er : Z),
    binary_round_aux prec emax s (Zpos mx) ex loc_Exact = S754_finite s mr er /\
    B <= er /\
    Zpos mr * 2 ^ (er - B) <= Zpos mb * 2 ^ (eb - B).
Proof.
  intros Hvb Hle.
  destruct (bounded_inv mb eb Hvb) as (Hcb & Hebmax & Heb & Hdb).
  destruct (binary_round_aux_exact prec emax prec_gt_1 s mx ex aligned)
    as (w & Hw & Hexact & Hres).
  set (d := Zpos (digits2_pos mx)) in *.
  set (e' := fexp (d + ex)) in *.
  set (q := Zpos mx / 2 ^ (e' - ex)) in *.
  assert (Hemin : emin <= e') by apply fexp_ge_emin.
  assert (HBb : B <= eb).
  { (* the exponent of [b] is not below that of the exact magnitude *)
    destruct (Z_le_gt_dec B eb) as [|Hgt]; [assumption|].
    exfalso. rewrite (Z.pow_neg_r 2 (eb - B)) in Hle by lia.
    pose proof (pow2_pos (ex - B) ltac:(lia)). nia. }
  pose proof (magnitude_le B (Zpos mx) ex (Zpos mb) eb
                ltac:(lia) ltac:(lia) unit_below HBb Hle) as Hmag.
  cbn [Zdigits2] in Hmag. fold d in Hmag.
  assert (Hee : e' <= eb).
  { rewrite <- Hcb. apply fexp_mono. exact Hmag. }
  pose proof (pow2_pos (e' - ex) ltac:(lia)) as Hpn.
  pose proof (pow2_pos (ex - B) ltac:(lia)) as Hpx.
  pose proof (pow2_pos (eb - e') ltac:(lia)) as Hpb.
  pose proof (pow2_pos (e' - B) ltac:(lia)) as Hpe.
  assert (Hsplit : 2 ^ (e' - B) = 2 ^ (e' - ex) * 2 ^ (ex - B)).
  { rewrite <- Z.pow_add_r by lia. f_equal. lia. }
  assert (Hsplitb : 2 ^ (eb - B) = 2 ^ (eb - e') * 2 ^ (e' - B)).
  { rewrite <- Z.pow_add_r by lia. f_equal. lia. }
  set (Bm := Zpos mb * 2 ^ (eb - e')).
  assert (Hmx : Zpos mx <= Bm * 2 ^ (e' - ex)) by (unfold Bm; nia).
  assert (HqB : q <= Bm).
  { unfold q. apply Z.div_le_upper_bound; [lia|]. lia. }
  assert (HwB : w <= Bm).
  { destruct (Z.eq_dec q Bm) as [E|E]; [|lia].
    rewrite Hexact; [lia|].
    pose proof (Z.mul_div_le (Zpos mx) (2 ^ (e' - ex)) Hpn) as Hfl. fold q in Hfl.
    assert (Heq : Zpos mx = 2 ^ (e' - ex) * q) by nia.
    rewrite Heq. rewrite Z.mul_comm. apply Z.mod_mul. lia. }
  destruct Hres as [[Hw0 HR]|(m2 & e2 & Hform & HR)]; [left; exact HR|].
  right. rewrite HR.
  assert (Hval : B <= e2 /\ e2 <= eb /\ Zpos m2 * 2 ^ (e2 - B) = w * 2 ^ (e' - B)).
  { destruct Hform as [[-> ->]|(-> & Hw2 & ->)]; [repeat split; lia|].
    assert (e' < eb).
    { destruct (Z.eq_dec e' eb) as [E|E]; [|lia]. exfalso.
      unfold Bm in HwB. rewrite E, Z.sub_diag, Z.pow_0_r in HwB.
      pose proof (digits2_pos_bounds mb) as [_ Hhi].
      assert (2 ^ Zpos (digits2_pos mb) <= 2 ^ prec) by (apply Z.pow_le_mono_r; lia).
      lia. }
    repeat split; [lia | lia |]. rewrite Hw2.
    rewrite <- !Z.pow_add_r by lia. f_equal. lia. }
  destruct Hval as (HBe & Heb2 & Hval).
  replace (e2 <=? emax - prec) with true by (symmetry; apply Z.leb_le; lia).
  exists m2, e2. split; [reflexivity|]. split; [exact HBe|].
  rewrite Hval, Hsplitb. unfold Bm in HwB. nia.
Qed.

End WithUnit.

End RoundingBounds.

Lemma SFval_finite_pos (B : Z) (m : positive) (e : Z) :
  B <= e -> 0 < Zpos m * 2 ^ (e - B).
Proof. intros H. pose proof (pow2_pos (e - B) ltac:(lia)). nia. Qed.

Section SignedRounding.

Variable prec emax : Z.
Hypothesis prec_gt_1 : 1 < prec.

Local Abbreviation emin := (SpecFloat.emin prec emax).
Local Abbreviation fexp := (SpecFloat.fexp prec emax).

Variable B : Z.
Hypothesis unit_below_emin : B <= emin.

Lemma valid_finite_exponent (s : bool) (m : positive) (e : Z) :
  SpecFloat.valid_binary prec emax (S754_finite s m e) = true -> B <= e.
Proof.
  cbn [SpecFloat.valid_binary]. intros H. destruct (bounded_inv prec emax m e H) as (_ & _ & He & _).
  lia.
Qed.

Section Aligned.

Variable mx : positive.
Variable ex : Z.
Hypothesis unit_below : B <= ex.
Hypothesis aligned : ex <= fexp (Zpos (digits2_pos mx) + ex).

Local Abbreviation R s := (binary_round_aux prec emax s (Zpos mx) ex loc_Exact).
Local Abbreviation E s := (cond_Zopp s (Zpos mx * 2 ^ (ex - B))).

(** The rounded result has the sign of the exact one. *)
Lemma binary_round_aux_shape (s : bool) :
  R s = S754_zero s \/ R s = S754_infinity s \/
  exists (mr : positive) (er : Z), R s = S754_finite s mr er /\ B <= er.
Proof.
  destruct (binary_round_aux_exact prec emax prec_gt_1 s mx ex aligned)
    as (w & _ & _ & Hres).
  pose proof (fexp_ge_emin prec emax (Zpos (digits2_pos mx) + ex)) as Hemin.
  destruct Hres as [[_ HR]|(m2 & e2 & Hform & HR)]; [left; exact HR|].
  right. rewrite HR.
  destruct (e2 <=? emax - prec); [right | left; reflexivity].
  exists m2, e2. split; [reflexivity|].
  destruct Hform as [[-> _]|(-> & _)]; lia.
Qed.

Lemma binary_round_aux_signed_lower (s : bool) (a : spec_float) :
  SFnumber a = true -> SpecFloat.valid_binary prec emax a = true ->
  SFval B a <= E s ->
  R s = S754_infinity false \/ (SFnumber (R s) = true /\ SFval B a <= SFval B (R s)).
Proof.
  intros Hna Hva Hle.
  pose proof (SFval_finite_pos B mx ex unit_below) as HX.
  destruct s; cbn [cond_Zopp] in Hle.
  - (* a negative result: [a] is negative and at least as large in magnitude *)
    destruct a as [sa|sa| |sa ma ea]; try discriminate; cbn [SFval] in Hle; [lia|].
    pose proof (valid_finite_exponent _ _ _ Hva) as HBa.
    pose proof (SFval_finite_pos B ma ea HBa) as HA.
    destruct sa; cbn [cond_Zopp] in Hle; [|lia].
    destruct (binary_round_aux_upper prec emax prec_gt_1 B true mx ex
                unit_below aligned ma ea Hva ltac:(lia))
      as [HR|(mr & er & HR & HBr & Hb)]; right; rewrite HR; cbn [SFval SFnumber cond_Zopp]; split;
      try reflexivity; lia.
  - destruct a as [sa|sa| |sa ma ea]; try discriminate; cbn [SFval] in Hle.
    + destruct (binary_round_aux_shape false) as [HR|[HR|(mr & er & HR & HBr)]];
        [right | left; exact HR | right]; rewrite HR; cbn [SFval SFnumber cond_Zopp];
        (split; [reflexivity|]); try lia;
        pose proof (SFval_finite_pos B mr er HBr); lia.
    + pose proof (valid_finite_exponent _ _ _ Hva) as HBa.
      pose proof (SFval_finite_pos B ma ea HBa) as HA.
      destruct sa; cbn [cond_Zopp] in Hle.
      * destruct (binary_round_aux_shape false) as [HR|[HR|(mr & er & HR & HBr)]];
          [right | left; exact HR | right]; rewrite HR; cbn [SFval SFnumber cond_Zopp];
          (split; [reflexivity|]); try lia;
          pose proof (SFval_finite_pos B mr er HBr); lia.
      * destruct (binary_round_aux_lower prec emax prec_gt_1 B false mx ex
                    unit_below aligned ma ea Hva HBa Hle)
          as [HR|(mr & er & HR & HBr & Hb)]; [left; exact HR|].
        right. rewrite HR. cbn [SFval SFnumber cond_Zopp]. split; [reflexivity | lia].
Qed.

Lemma binary_round_aux_signed_upper (s : bool) (b : spec_float) :
  SFnumber b = true -> SpecFloat.valid_binary prec emax b = true ->
  E s <= SFval B b ->
  R s = S754_infinity true \/ (SFnumber (R s) = true /\ SFval B (R s) <= SFval B b).
Proof.
  intros Hnb Hvb Hle.
  pose proof (SFval_finite_pos B mx ex unit_below) as HX.
  destruct s; cbn [cond_Zopp] in Hle.
  - destruct b as [sb|sb| |sb mb eb]; try discriminate; cbn [SFval] in Hle.
    + destruct (binary_round_aux_shape true) as [HR|[HR|(mr & er & HR & HBr)]];
        [right | left; exact HR | right]; rewrite HR; cbn [SFval SFnumber cond_Zopp];
        (split; [reflexivity|]); try lia;
        pose proof (SFval_finite_pos B mr er HBr); lia.
    + pose proof (valid_finite_exponent _ _ _ Hvb) as HBb.
      pose proof (SFval_finite_pos B mb eb HBb) as Hb.
      destruct sb; cbn [cond_Zopp] in Hle.
      * destruct (binary_round_aux_lower prec emax prec_gt_1 B true mx ex
                    unit_below aligned mb eb Hvb HBb ltac:(lia))
          as [HR|(mr & er & HR & HBr & Hb')]; [left; exact HR|].
        right. rewrite HR. cbn [SFval SFnumber cond_Zopp]. split; [reflexivity | lia].
      * destruct (binary_round_aux_shape true) as [HR|[HR|(mr & er & HR & HBr)]];
          [right | left; exact HR | right]; rewrite HR; cbn [SFval SFnumber cond_Zopp];
          (split; [reflexivity|]); try lia;
          pose proof (SFval_finite_pos B mr er HBr); lia.
  - destruct b as [sb|sb| |sb mb eb]; try discriminate; cbn [SFval] in Hle; [lia|].
    pose proof (valid_finite_exponent _ _ _ Hvb) as HBb.
    pose proof (SFval_finite_pos B mb eb HBb) as Hb.
    destruct sb; cbn [cond_Zopp] in Hle; [lia|].
    destruct (binary_round_aux_upper prec emax prec_gt_1 B false mx ex
                unit_below aligned mb eb Hvb Hle)
      as [HR|(mr & er & HR & HBr & Hb')]; right; rewrite HR; cbn [SFval SFnumber cond_Zopp]; split;
      try reflexivity; lia.
Qed.

End Aligned.

End SignedRounding.

(** *** Aligning, and rounding a signed integer *)

Lemma iter_xO_pow2 (m d : positive) : Zpos (Pos.iter xO m d) = Zpos m * 2 ^ Zpos d.
Proof.
  induction d as [|d IH] using Pos.peano_ind.
  - simpl. lia.
  - rewrite Pos.iter_succ, Pos2Z.inj_xO, IH, Pos2Z.inj_succ, Z.pow_succ_r by lia. lia.
Qed.

Lemma shl_align_spec (mx : positive) (ex ex' : Z) :
  snd (shl_align mx ex ex') = Z.min ex ex' /\
  Zpos (fst (shl_align mx ex ex')) = Zpos mx * 2 ^ (ex - Z.min ex ex').
Proof.
  unfold shl_align. destruct (ex' - ex) as [|d|d] eqn:E; cbn [fst snd].
  - rewrite Z.min_l by lia. rewrite Z.sub_diag. simpl. lia.
  - rewrite Z.min_l by lia. rewrite Z.sub_diag. simpl. lia.
  - rewrite Z.min_r by lia. split; [reflexivity|].
    rewrite iter_xO_pow2. f_equal. f_equal. lia.
Qed.

Section BinaryRound.

Variable prec emax : Z.
Hypothesis prec_gt_1 : 1 < prec.

Local Abbreviation emin := (SpecFloat.emin prec emax).
Local Abbreviation fexp := (SpecFloat.fexp prec emax).

Variable B : Z.
Hypothesis unit_below_emin : B <= emin.

(** [binary_round] aligns the mantissa and rounds: the result is within any
    two numbers of the format that enclose the exact value. *)
Lemma binary_round_signed (s : bool) (mx : positive) (ex : Z) :
  B <= ex ->
  let R := binary_round prec emax s mx ex in
  let E := cond_Zopp s (Zpos mx * 2 ^ (ex - B)) in
  (forall a, SFnumber a = true -> SpecFloat.valid_binary prec emax a = true ->
             SFval B a <= E ->
             R = S754_infinity false \/ (SFnumber R = true /\ SFval B a <= SFval B R)) /\
  (forall b, SFnumber b = true -> SpecFloat.valid_binary prec emax b = true ->
             E <= SFval B b ->
             R = S754_infinity true \/ (SFnumber R = true /\ SFval B R <= SFval B b)).
Proof.
  intros HB R E. unfold R, E, binary_round.
  set (t := fexp (Zpos (digits2_pos mx) + ex)).
  pose proof (shl_align_spec mx ex t) as [Hez Hmz].
  destruct (shl_align mx ex t) as [mz ez]. cbn [fst snd] in Hez, Hmz.
  pose proof (fexp_ge_emin prec emax (Zpos (digits2_pos mx) + ex)) as Hemin. fold t in Hemin.
  assert (HBz : B <= ez) by lia.
  assert (Hd : Zpos (digits2_pos mz) = Zpos (digits2_pos mx) + (ex - ez)).
  { change (Zpos (digits2_pos mz)) with (Zdigits2 (Zpos mz)).
    rewrite Hmz, Zdigits2_mul_pow2 by lia. cbn [Zdigits2]. lia. }
  assert (Hal : ez <= fexp (Zpos (digits2_pos mz) + ez)).
  { rewrite Hd. replace (Zpos (digits2_pos mx) + (ex - ez) + ez)
      with (Zpos (digits2_pos mx) + ex) by lia. fold t. lia. }
  assert (Hv : Zpos mz * 2 ^ (ez - B) = Zpos mx * 2 ^ (ex - B)).
  { rewrite Hmz, <- Z.mul_assoc, <- Z.pow_add_r by lia. f_equal. f_equal. lia. }
  rewrite <- Hv. split.
  - intros a Hna Hva Hle.
    apply (binary_round_aux_signed_lower prec emax prec_gt_1 B unit_below_emin
             mz ez HBz Hal s a Hna Hva Hle).
  - intros b Hnb Hvb Hle.
    apply (binary_round_aux_signed_upper prec emax prec_gt_1 B unit_below_emin
             mz ez HBz Hal s b Hnb Hvb Hle).
Qed.

(** The same for [binary_normalize], which rounds a signed integer
    [m * 2^e]; a zero [m] gives a zero. *)
Lemma binary_normalize_signed (m e : Z) (szero : bool) :
  B <= e ->
  let R := binary_normalize prec emax m e szero in
  (forall a, SFnumber a = true -> SpecFloat.valid_binary prec emax a = true ->
             SFval B a <= m * 2 ^ (e - B) ->
             R = S754_infinity false \/ (SFnumber R = true /\ SFval B a <= SFval B R)) /\
  (forall b, SFnumber b = true -> SpecFloat.valid_binary prec emax b = true ->
             m * 2 ^ (e - B) <= SFval B b ->
             R = S754_infinity true \/ (SFnumber R = true /\ SFval B R <= SFval B b)).
Proof.
  intros HB R. unfold R. destruct m as [|p|p]; cbn [binary_normalize].
  - split; intros c _ _ Hle; right; cbn [SFnumber SFval]; split; try reflexivity; lia.
  - apply (binary_round_signed false p e HB).
  - pose proof (binary_round_signed true p e HB) as H. cbn [cond_Zopp] in H.
    replace (Z.neg p * 2 ^ (e - B)) with (- (Z.pos p * 2 ^ (e - B))) by lia.
    exact H.
Qed.

End BinaryRound.

(** *** Sums, differences and products of numbers of the format *)

Lemma cond_Zopp_negb (s : bool) (z : Z) : cond_Zopp (negb s) z = - cond_Zopp s z.
Proof. destruct s; cbn; lia. Qed.

Section Operations.

Variable prec emax : Z.
Hypothesis prec_gt_1 : 1 < prec.

Local Abbreviation emin := (SpecFloat.emin prec emax).
Local Abbreviation fexp := (SpecFloat.fexp prec emax).

Variable B : Z.
Hypothesis unit_below_emin : B <= emin.

(** The value of an aligned mantissa. *)
Lemma shl_align_value (s : bool) (m : positive) (e ez : Z) :
  B <= ez -> ez <= e ->
  cond_Zopp s (Zpos (fst (shl_align m e ez))) * 2 ^ (ez - B)
  = cond_Zopp s (Zpos m * 2 ^ (e - B)).
Proof.
  intros HB Hle. pose proof (shl_align_spec m e ez) as [_ Hm].
  rewrite Z.min_r in Hm by lia. rewrite Hm.
  assert (H : Zpos m * 2 ^ (e - ez) * 2 ^ (ez - B) = Zpos m * 2 ^ (e - B)).
  { rewrite <- Z.mul_assoc, <- Z.pow_add_r by lia. f_equal. f_equal. lia. }
  destruct s; cbn [cond_Zopp]; lia.
Qed.

(** The difference of two numbers of the format is within any two numbers
    of the format that enclose the exact difference. *)
Lemma SFsub_signed (x y : spec_float) :
  SFnumber x = true -> SpecFloat.valid_binary prec emax x = true ->
  SFnumber y = true -> SpecFloat.valid_binary prec emax y = true ->
  let R := SFsub prec emax x y in
  (forall a, SFnumber a = true -> SpecFloat.valid_binary prec emax a = true ->
             SFval B a <= SFval B x - SFval B y ->
             R = S754_infinity false \/ (SFnumber R = true /\ SFval B a <= SFval B R)) /\
  (forall b, SFnumber b = true -> SpecFloat.valid_binary prec emax b = true ->
             SFval B x - SFval B y <= SFval B b ->
             R = S754_infinity true \/ (SFnumber R = true /\ SFval B R <= SFval B b)).
Proof.
  intros Hnx Hvx Hny Hvy R. unfold R.
  destruct x as [sx|sx| |sx mx ex], y as [sy|sy| |sy my ey]; try discriminate.
  - assert (H : SFnumber (SFsub prec emax (S754_zero sx) (S754_zero sy)) = true /\
                SFval B (SFsub prec emax (S754_zero sx) (S754_zero sy)) = 0)
      by (destruct sx, sy; split; reflexivity).
    destruct H as [H1 H2]. cbn [SFval].
    split; intros c _ _ Hle; right; (split; [exact H1 | rewrite H2; lia]).
  - cbn [SFsub SFval].
    split; intros c _ _ Hle; right; cbn [SFnumber SFval];
      rewrite cond_Zopp_negb; (split; [reflexivity | lia]).
  - cbn [SFsub SFval].
    split; intros c _ _ Hle; right; cbn [SFnumber SFval]; (split; [reflexivity | lia]).
  - pose proof (valid_finite_exponent prec emax B unit_below_emin _ _ _ Hvx) as HBx.
    pose proof (valid_finite_exponent prec emax B unit_below_emin _ _ _ Hvy) as HBy.
    cbn [SFsub SFval].
    set (ez := Z.min ex ey).
    assert (HBz : B <= ez) by (unfold ez; lia).
    pose proof (binary_normalize_signed prec emax prec_gt_1 B unit_below_emin
                  (cond_Zopp sx (Zpos (fst (shl_align mx ex ez))) -
                   cond_Zopp sy (Zpos (fst (shl_align my ey ez)))) ez false HBz) as H.
    rewrite Z.mul_sub_distr_r in H.
    rewrite !shl_align_value in H by (unfold ez; lia).
    exact H.
Qed.

(** The same for the sum. *)
Lemma SFadd_signed (x y : spec_float) :
  SFnumber x = true -> SpecFloat.valid_binary prec emax x = true ->
  SFnumber y = true -> SpecFloat.valid_binary prec emax y = true ->
  let R := SFadd prec emax x y in
  (forall a, SFnumber a = true -> SpecFloat.valid_binary prec emax a = true ->
             SFval B a <= SFval B x + SFval B y ->
             R = S754_infinity false \/ (SFnumber R = true /\ SFval B a <= SFval B R)) /\
  (forall b, SFnumber b = true -> SpecFloat.valid_binary prec emax b = true ->
             SFval B x + SFval B y <= SFval B b ->
             R = S754_infinity true \/ (SFnumber R = true /\ SFval B R <= SFval B b)).
Proof.
  intros Hnx Hvx Hny Hvy R. unfold R.
  destruct x as [sx|sx| |sx mx ex], y as [sy|sy| |sy my ey]; try discriminate.
  - assert (H : SFnumber (SFadd prec emax (S754_zero sx) (S754_zero sy)) = true /\
                SFval B (SFadd prec emax (S754_zero sx) (S754_zero sy)) = 0)
      by (destruct sx, sy; split; reflexivity).
    destruct H as [H1 H2]. cbn [SFval].
    split; intros c _ _ Hle; right; (split; [exact H1 | rewrite H2; lia]).
  - cbn [SFadd SFval].
    split; intros c _ _ Hle; right; cbn [SFnumber SFval]; (split; [reflexivity | lia]).
  - cbn [SFadd SFval].
    split; intros c _ _ Hle; right; cbn [SFnumber SFval]; (split; [reflexivity | lia]).
  - pose proof (valid_finite_exponent prec emax B unit_below_emin _ _ _ Hvx) as HBx.
    pose proof (valid_finite_exponent prec emax B unit_below_emin _ _ _ Hvy) as HBy.
    cbn [SFadd SFval].
    set (ez := Z.min ex ey).
    assert (HBz : B <= ez) by (unfold ez; lia).
    pose proof (binary_normalize_signed prec emax prec_gt_1 B unit_below_emin
                  (cond_Zopp sx (Zpos (fst (shl_align mx ex ez))) +
                   cond_Zopp sy (Zpos (fst (shl_align my ey ez)))) ez false HBz) as H.
    rewrite Z.mul_add_distr_r in H.
    rewrite !shl_align_value in H by (unfold ez; lia).
    exact H.
Qed.

End Operations.

Section Product.

Variable prec emax : Z.
Hypothesis prec_gt_1 : 1 < prec.
Hypothesis prec_lt_emax : prec < emax.

Local Abbreviation emin := (SpecFloat.emin prec emax).
Local Abbreviation fexp := (SpecFloat.fexp prec emax).

Variable B : Z.
Hypothesis unit_below_emin : B <= emin.

Lemma emin_negative : emin < 0.
Proof. unfold SpecFloat.emin. lia. Qed.

(** The exact product of two numbers of the format needs no alignment. *)
Lemma product_aligned (mx my : positive) (ex ey : Z) :
  bounded prec emax mx ex = true -> bounded prec emax my ey = true ->
  ex + ey <= fexp (Zpos (digits2_pos (mx * my)) + (ex + ey)).
Proof.
  intros Hx Hy.
  destruct (bounded_inv prec emax mx ex Hx) as (Hcx & _ & Hex & Hdx).
  destruct (bounded_inv prec emax my ey Hy) as (Hcy & _ & Hey & Hdy).
  pose proof (digits2_pos_bounds mx) as [Hlox _].
  pose proof (digits2_pos_bounds my) as [Hloy _].
  pose proof (digits2_pos_bounds (mx * my)) as [_ Hhi].
  set (dx := Zpos (digits2_pos mx)) in *.
  set (dy := Zpos (digits2_pos my)) in *.
  set (D := Zpos (digits2_pos (mx * my))) in *.
  assert (0 < dx) by (unfold dx; lia). assert (0 < dy) by (unfold dy; lia).
  assert (0 < D) by (unfold D; lia).
  assert (HD : dx + dy - 2 < D).
  { apply (Z.pow_lt_mono_r_iff 2); [lia | lia |].
    replace (dx + dy - 2) with (dx - 1 + (dy - 1)) by lia.
    rewrite Z.pow_add_r by lia.
    pose proof (pow2_pos (dx - 1) ltac:(lia)). pose proof (pow2_pos (dy - 1) ltac:(lia)).
    rewrite Pos2Z.inj_mul in Hhi. nia. }
  revert Hcx Hcy. unfold SpecFloat.fexp, SpecFloat.emin in *. lia.
Qed.

Lemma SFval_product (sx sy : bool) (mx my : positive) (ex ey : Z) :
  B <= ex -> B <= ey ->
  cond_Zopp (xorb sx sy) (Zpos (mx * my) * 2 ^ (ex + ey - (B + B)))
  = SFval B (S754_finite sx mx ex) * SFval B (S754_finite sy my ey).
Proof.
  intros Hx Hy. cbn [SFval].
  replace (ex + ey - (B + B)) with (ex - B + (ey - B)) by lia.
  rewrite Z.pow_add_r, Pos2Z.inj_mul by lia.
  destruct sx, sy; cbn [xorb cond_Zopp]; lia.
Qed.

(** The product of two numbers of the format is within any two numbers of
    the format that enclose the exact product (values in units of
    [2^(B+B)]). *)
Lemma SFmul_signed (x y : spec_float) :
  SFnumber x = true -> SpecFloat.valid_binary prec emax x = true ->
  SFnumber y = true -> SpecFloat.valid_binary prec emax y = true ->
  let R := SFmul prec emax x y in
  (forall a, SFnumber a = true -> SpecFloat.valid_binary prec emax a = true ->
             SFval (B + B) a <= SFval B x * SFval B y ->
             R = S754_infinity false \/
             (SFnumber R = true /\ SFval (B + B) a <= SFval (B + B) R)) /\
  (forall b, SFnumber b = true -> SpecFloat.valid_binary prec emax b = true ->
             SFval B x * SFval B y <= SFval (B + B) b ->
             R = S754_infinity true \/
             (SFnumber R = true /\ SFval (B + B) R <= SFval (B + B) b)).
Proof.
  intros Hnx Hvx Hny Hvy R. unfold R.
  pose proof emin_negative as Hneg.
  destruct x as [sx|sx| |sx mx ex], y as [sy|sy| |sy my ey]; try discriminate.
  - cbn [SFmul SFval].
    split; intros c _ _ Hle; right; cbn [SFnumber SFval]; (split; [reflexivity | lia]).
  - cbn [SFmul SFval].
    split; intros c _ _ Hle; right; cbn [SFnumber SFval]; (split; [reflexivity | lia]).
  - cbn [SFmul]. replace (SFval B (S754_zero sy)) with 0 by reflexivity.
    rewrite Z.mul_0_r.
    split; intros c _ _ Hle; right; cbn [SFnumber SFval]; (split; [reflexivity | lia]).
  - pose proof (valid_finite_exponent prec emax B unit_below_emin _ _ _ Hvx) as HBx.
    pose proof (valid_finite_exponent prec emax B unit_below_emin _ _ _ Hvy) as HBy.
    cbn [SFmul]. rewrite <- SFval_product by assumption.
    assert (HBB : B + B <= emin) by lia.
    assert (HBe : B + B <= ex + ey) by lia.
    pose proof (product_aligned mx my ex ey Hvx Hvy) as Hal.
    split.
    + intros a Hna Hva Hle.
      apply (binary_round_aux_signed_lower prec emax prec_gt_1 (B + B) HBB
               (mx * my)%positive (ex + ey) HBe Hal (xorb sx sy) a Hna Hva Hle).
    + intros b Hnb Hvb Hle.
      apply (binary_round_aux_signed_upper prec emax prec_gt_1 (B + B) HBB
               (mx * my)%positive (ex + ey) HBe Hal (xorb sx sy) b Hnb Hvb Hle).
Qed.

(** Changing the unit. *)
Lemma SFval_rescale (B' : Z) (x : spec_float) :
  SpecFloat.valid_binary prec emax x = true -> B' <= B ->
  SFval B' x = SFval B x * 2 ^ (B - B').
Proof.
  intros Hv HB. destruct x as [sx|sx| |sx mx ex]; try reflexivity.
  pose proof (valid_finite_exponent prec emax B unit_below_emin _ _ _ Hv) as HBx.
  cbn [SFval].
  assert (H : Zpos mx * 2 ^ (ex - B') = Zpos mx * 2 ^ (ex - B) * 2 ^ (B - B')).
  { rewrite <- Z.mul_assoc, <- Z.pow_add_r by lia. f_equal. f_equal. lia. }
  destruct sx; cbn [cond_Zopp]; lia.
Qed.

End Product.

(** *** The order of the format is the order of the values *)

Section CompareValues.

Variable prec emax : Z.
Hypothesis prec_gt_1 : 1 < prec.

Local Abbreviation emin := (SpecFloat.emin prec emax).
Local Abbreviation fexp := (SpecFloat.fexp prec emax).

Variable B : Z.
Hypothesis unit_below_emin : B <= emin.

(** Between two numbers of the format, the one with the smaller exponent is
    the smaller. *)
Lemma lt_of_exponent_lt (mx my : positive) (ex ey : Z) :
  bounded prec emax mx ex = true -> bounded prec emax my ey = true ->
  ex < ey ->
  Zpos mx * 2 ^ (ex - B) < Zpos my * 2 ^ (ey - B).
Proof.
  intros Hx Hy Hlt.
  destruct (bounded_inv prec emax mx ex Hx) as (Hcx & _ & Hex & Hdx).
  destruct (bounded_inv prec emax my ey Hy) as (Hcy & _ & Hey & Hdy).
  pose proof (digits2_pos_bounds mx) as [_ Hhix].
  pose proof (digits2_pos_bounds my) as [Hloy _].
  set (dx := Zpos (digits2_pos mx)) in *.
  set (dy := Zpos (digits2_pos my)) in *.
  assert (Hdyp : dy = prec).
  { revert Hcy. unfold SpecFloat.fexp. lia. }
  rewrite Hdyp in Hloy.
  assert (H1 : 2 ^ dx <= 2 ^ prec) by (apply Z.pow_le_mono_r; lia).
  assert (H2 : 2 ^ prec * 2 ^ (ex - B) <= 2 ^ (prec - 1) * 2 ^ (ey - B)).
  { rewrite <- !Z.pow_add_r by lia. apply Z.pow_le_mono_r; lia. }
  pose proof (pow2_pos (ex - B) ltac:(lia)). pose proof (pow2_pos (ey - B) ltac:(lia)).
  nia.
Qed.

Lemma compare_magnitudes (mx my : positive) (ex ey : Z) :
  bounded prec emax mx ex = true -> bounded prec emax my ey = true ->
  match ex ?= ey with
  | Lt => Lt
  | Gt => Gt
  | Eq => Pos.compare_cont Eq mx my
  end = (Zpos mx * 2 ^ (ex - B) ?= Zpos my * 2 ^ (ey - B)).
Proof.
  intros Hx Hy. symmetry.
  destruct (bounded_inv prec emax mx ex Hx) as (_ & _ & Hex & _).
  destruct (Z.compare_spec ex ey) as [E|E|E].
  - subst ey. pose proof (pow2_pos (ex - B) ltac:(lia)).
    change (Pos.compare_cont Eq mx my) with (Zpos mx ?= Zpos my).
    destruct (Z.compare_spec (Zpos mx) (Zpos my)) as [E'|E'|E'].
    + rewrite E'. apply Z.compare_refl.
    + apply Z.compare_lt_iff. nia.
    + apply Z.compare_gt_iff. nia.
  - apply Z.compare_lt_iff. apply lt_of_exponent_lt; assumption.
  - apply Z.compare_gt_iff. apply lt_of_exponent_lt; assumption.
Qed.

Lemma SFcompare_val (x y : spec_float) :
  SFnumber x = true -> SpecFloat.valid_binary prec emax x = true ->
  SFnumber y = true -> SpecFloat.valid_binary prec emax y = true ->
  SFcompare x y = Some (SFval B x ?= SFval B y).
Proof.
  intros Hnx Hvx Hny Hvy.
  destruct x as [sx|sx| |sx mx ex], y as [sy|sy| |sy my ey]; try discriminate.
  - reflexivity.
  - pose proof (valid_finite_exponent prec emax B unit_below_emin _ _ _ Hvy) as HBy.
    pose proof (SFval_finite_pos B my ey HBy).
    cbn [SFcompare SFval]. f_equal. symmetry.
    destruct sy; cbn [cond_Zopp];
      [apply Z.compare_gt_iff | apply Z.compare_lt_iff]; lia.
  - pose proof (valid_finite_exponent prec emax B unit_below_emin _ _ _ Hvx) as HBx.
    pose proof (SFval_finite_pos B mx ex HBx).
    cbn [SFcompare SFval]. f_equal. symmetry.
    destruct sx; cbn [cond_Zopp];
      [apply Z.compare_lt_iff | apply Z.compare_gt_iff]; lia.
  - pose proof (valid_finite_exponent prec emax B unit_below_emin _ _ _ Hvx) as HBx.
    pose proof (valid_finite_exponent prec emax B unit_below_emin _ _ _ Hvy) as HBy.
    pose proof (SFval_finite_pos B mx ex HBx).
    pose proof (SFval_finite_pos B my ey HBy).
    pose proof (compare_magnitudes mx my ex ey Hvx Hvy) as Hc.
    cbn [SFcompare SFval]. f_equal.
    destruct sx, sy; cbn [cond_Zopp].
    + rewrite Z.compare_opp, <- (compare_magnitudes my mx ey ex Hvy Hvx).
      rewrite (Z.compare_antisym ex ey), (Pos.compare_cont_antisym mx my Eq).
      destruct (ex ?= ey); reflexivity.
    + symmetry. apply Z.compare_lt_iff. lia.
    + symmetry. apply Z.compare_gt_iff. lia.
    + exact Hc.
Qed.

(** Two numbers of the format with the same value are the same, but for
    the sign of zero. *)
Lemma SFval_inj (x y : spec_float) :
  SFnumber x = true -> SpecFloat.valid_binary prec emax x = true ->
  SFnumber y = true -> SpecFloat.valid_binary prec emax y = true ->
  SFval B x = SFval B y -> SFval B x <> 0 -> x = y.
Proof.
  intros Hnx Hvx Hny Hvy Heq Hne.
  destruct x as [sx|sx| |sx mx ex], y as [sy|sy| |sy my ey]; try discriminate;
    cbn [SFval] in *; try lia.
  pose proof (valid_finite_exponent prec emax B unit_below_emin _ _ _ Hvx) as HBx.
  pose proof (valid_finite_exponent prec emax B unit_below_emin _ _ _ Hvy) as HBy.
  pose proof (SFval_finite_pos B mx ex HBx).
  pose proof (SFval_finite_pos B my ey HBy).
  assert (Hs : sx = sy) by (destruct sx, sy; cbn [cond_Zopp] in Heq; try reflexivity; lia).
  subst sy.
  assert (Hm : Zpos mx * 2 ^ (ex - B) = Zpos my * 2 ^ (ey - B))
    by (destruct sx; cbn [cond_Zopp] in Heq; lia).
  assert (He : ex = ey).
  { destruct (Z.lt_trichotomy ex ey) as [E|[E|E]]; [|exact E|].
    - pose proof (lt_of_exponent_lt mx my ex ey Hvx Hvy E). lia.
    - pose proof (lt_of_exponent_lt my mx ey ex Hvy Hvx E). lia. }
  subst ey. pose proof (pow2_pos (ex - B) ltac:(lia)).
  assert (Zpos mx = Zpos my) by nia. congruence.
Qed.

End CompareValues.

(** *** Division by one *)

Section DivisionByOne.

Variable prec emax : Z.
Hypothesis prec_gt_1 : 1 < prec.

Local Abbreviation emin := (SpecFloat.emin prec emax).
Local Abbreviation fexp := (SpecFloat.fexp prec emax).

Variable B : Z.
Hypothesis unit_below_emin : B <= emin.

(** The mantissa of [1.0]. *)
Variable m1 : positive.
Hypothesis m1_value : Zpos m1 = 2 ^ (prec - 1).

Lemma SFdiv_core_by_one (mx : positive) (ex : Z) :
  bounded prec emax mx ex = true ->
  let e' := fexp (Zpos (digits2_pos mx) + ex - 1) in
  e' <= ex /\
  SFdiv_core_binary prec emax (Zpos mx) ex (Zpos m1) (1 - prec)
  = (Zpos mx * 2 ^ (ex - e'), e', loc_Exact).
Proof.
  intros Hx e'.
  destruct (bounded_inv prec emax mx ex Hx) as (Hcx & _ & Hex & Hdx).
  assert (Hle : e' <= ex).
  { apply Z.le_trans with (fexp (Zpos (digits2_pos mx) + ex)); [|lia].
    apply fexp_mono. lia. }
  split; [exact Hle|].
  unfold SFdiv_core_binary.
  replace (Zdigits2 (Zpos m1)) with prec
    by (rewrite m1_value, Zdigits2_pow2 by lia; lia).
  cbn [Zdigits2].
  replace (Zpos (digits2_pos mx) + ex - (prec + (1 - prec)))
    with (Zpos (digits2_pos mx) + ex - 1) by lia.
  fold e'. rewrite Z.min_l by lia.
  set (s := ex - (1 - prec) - e').
  assert (Hs : prec - 1 <= s) by (unfold s; lia).
  destruct s as [|ps|ps] eqn:Es; try lia.
  rewrite <- Es in *. rewrite Z.shiftl_mul_pow2 by lia.
  assert (Hm : Zpos mx * 2 ^ s = (Zpos mx * 2 ^ (ex - e')) * Zpos m1).
  { rewrite m1_value, <- Z.mul_assoc, <- Z.pow_add_r by lia. f_equal. f_equal. lia. }
  pose proof (Z.div_eucl_eq (Zpos mx * 2 ^ s) (Zpos m1) ltac:(lia)) as Heq.
  pose proof (Z.mod_pos_bound (Zpos mx * 2 ^ s) (Zpos m1) ltac:(lia)) as Hmod.
  unfold Z.modulo in Hmod.
  destruct (Z.div_eucl (Zpos mx * 2 ^ s) (Zpos m1)) as [q r].
  assert (Hr : r = 0).
  { rewrite Hm in Heq.
    assert (Hdiv : r = Zpos m1 * (Zpos mx * 2 ^ (ex - e') - q)) by lia.
    destruct (Z.eq_dec (Zpos mx * 2 ^ (ex - e') - q) 0) as [E|E]; [rewrite E in Hdiv; lia|].
    exfalso. nia. }
  subst r.
  assert (Hq : q = Zpos mx * 2 ^ (ex - e')) by nia.
  subst q. unfold new_location, new_location_even, new_location_odd.
  destruct (Z.even (Zpos m1)); reflexivity.
Qed.

(** A number of the format divided by [1.0] keeps its value. *)
Lemma SFdiv_by_one (x : spec_float) :
  SFnumber x = true -> SpecFloat.valid_binary prec emax x = true ->
  let R := SFdiv prec emax x (S754_finite false m1 (1 - prec)) in
  SFnumber R = true /\ SFval B R = SFval B x.
Proof.
  intros Hnx Hvx R. unfold R.
  destruct x as [sx|sx| |sx mx ex]; try discriminate; [split; reflexivity|].
  pose proof (valid_finite_exponent prec emax B unit_below_emin _ _ _ Hvx) as HBx.
  destruct (bounded_inv prec emax mx ex Hvx) as (Hcx & _ & Hex & Hdx).
  destruct (SFdiv_core_by_one mx ex Hvx) as [Hle Hcore].
  set (e' := fexp (Zpos (digits2_pos mx) + ex - 1)) in *.
  cbn [SFdiv]. rewrite Hcore. rewrite xorb_false_r.
  pose proof (fexp_ge_emin prec emax (Zpos (digits2_pos mx) + ex - 1)) as Hemin.
  fold e' in Hemin.
  pose proof (pow2_pos (ex - e') ltac:(lia)) as Hp.
  destruct (Zpos mx * 2 ^ (ex - e')) as [|q|q] eqn:Eq; try lia.
  assert (HBe : B <= e') by lia.
  assert (Hd : Zpos (digits2_pos q) = Zpos (digits2_pos mx) + (ex - e')).
  { change (Zpos (digits2_pos q)) with (Zdigits2 (Zpos q)).
    rewrite <- Eq, Zdigits2_mul_pow2 by lia. reflexivity. }
  assert (Hal : e' <= fexp (Zpos (digits2_pos q) + e')).
  { rewrite Hd. replace (Zpos (digits2_pos mx) + (ex - e') + e')
      with (Zpos (digits2_pos mx) + ex) by lia. lia. }
  assert (Hv : cond_Zopp sx (Zpos q * 2 ^ (e' - B))
               = SFval B (S754_finite sx mx ex)).
  { cbn [SFval]. f_equal. rewrite <- Eq, <- Z.mul_assoc, <- Z.pow_add_r by lia.
    f_equal. f_equal. lia. }
  pose proof (binary_round_aux_signed_lower prec emax prec_gt_1 B unit_below_emin
                q e' HBe Hal sx (S754_finite sx mx ex) Hnx Hvx ltac:(lia)) as Hlo.
  pose proof (binary_round_aux_signed_upper prec emax prec_gt_1 B unit_below_emin
                q e' HBe Hal sx (S754_finite sx mx ex) Hnx Hvx ltac:(lia)) as Hhi.
  destruct Hlo as [Hlo|[Hn Hlo]], Hhi as [Hhi|[Hn' Hhi]];
    try (rewrite Hlo in Hhi; discriminate);
    try (rewrite Hlo in Hn'; discriminate);
    try (rewrite Hhi in Hn; discriminate).
  split; [exact Hn | lia].
Qed.

End DivisionByOne.

(** ** Doubles: values, order and arithmetic

    The facts above at the parameters of binary64, on the primitive type. *)

Lemma prec64_gt_1 : 1 < prec.
Proof. reflexivity. Qed.

Lemma prec64_lt_emax : prec < emax.
Proof. reflexivity. Qed.

Lemma emin64_le : emin64 <= SpecFloat.emin prec emax.
Proof. apply Z.le_refl. Qed.

Lemma finite_valid (x : float) :
  SpecFloat.valid_binary prec emax (Prim2SF x) = true.
Proof. apply Prim2SF_valid. Qed.

(** Comparisons of numbers are comparisons of their values. *)
Lemma compare_F2Z (x y : float) :
  finite x = true -> finite y = true ->
  SFcompare (Prim2SF x) (Prim2SF y) = Some (F2Z x ?= F2Z y).
Proof.
  intros Hx Hy.
  apply (SFcompare_val prec emax prec64_gt_1 emin64 emin64_le);
    auto using finite_valid.
Qed.

Lemma ltb_F2Z (x y : float) :
  finite x = true -> finite y = true -> (x <? y)%float = (F2Z x <? F2Z y).
Proof.
  intros Hx Hy. rewrite FloatAxioms.ltb_spec. unfold SFltb.
  rewrite (compare_F2Z x y Hx Hy). unfold Z.ltb.
  destruct (F2Z x ?= F2Z y); reflexivity.
Qed.

Lemma leb_F2Z (x y : float) :
  finite x = true -> finite y = true -> (x <=? y)%float = (F2Z x <=? F2Z y).
Proof.
  intros Hx Hy. rewrite FloatAxioms.leb_spec. unfold SFleb.
  rewrite (compare_F2Z x y Hx Hy). unfold Z.leb.
  destruct (F2Z x ?= F2Z y); reflexivity.
Qed.

Lemma eqb_F2Z (x y : float) :
  finite x = true -> finite y = true -> (x =? y)%float = (F2Z x =? F2Z y).
Proof.
  intros Hx Hy. rewrite FloatAxioms.eqb_spec. unfold SFeqb.
  rewrite (compare_F2Z x y Hx Hy).
  destruct (Z.compare_spec (F2Z x) (F2Z y)) as [E|E|E]; symmetry;
    [apply Z.eqb_eq | apply Z.eqb_neq | apply Z.eqb_neq]; lia.
Qed.

(** A number equals itself. *)
Lemma eqb_refl_finite (x : float) : finite x = true -> (x =? x)%float = true.
Proof. intros H. rewrite eqb_F2Z by assumption. apply Z.eqb_refl. Qed.

(** A double between two numbers is a number. *)
Lemma finite_between (a t b : float) :
  finite a = true -> finite b = true ->
  (a <? t)%float = true -> (t <=? b)%float = true -> finite t = true.
Proof.
  unfold finite. rewrite FloatAxioms.ltb_spec, FloatAxioms.leb_spec.
  unfold SFltb, SFleb.
  destruct (Prim2SF a) as [sa|sa| |sa ma ea]; try discriminate;
    destruct (Prim2SF b) as [sb|sb| |sb mb eb]; try discriminate;
    destruct (Prim2SF t) as [st|st| |st mt et]; try reflexivity;
    cbn [SFcompare]; try destruct st; try destruct sa; try destruct sb;
    intros; discriminate.
Qed.

(** The difference of two numbers is within any two numbers that enclose
    the exact difference; in particular it is a number. *)
Lemma sub_between (x y a b : float) :
  finite x = true -> finite y = true -> finite a = true -> finite b = true ->
  F2Z a <= F2Z x - F2Z y -> F2Z x - F2Z y <= F2Z b ->
  finite (x - y) = true /\ F2Z a <= F2Z (x - y) <= F2Z b.
Proof.
  intros Hx Hy Ha Hb Hlo Hhi.
  destruct (SFsub_signed prec emax prec64_gt_1 emin64 emin64_le
              (Prim2SF x) (Prim2SF y) Hx (finite_valid x) Hy (finite_valid y))
    as [Hl Hu].
  specialize (Hl (Prim2SF a) Ha (finite_valid a) Hlo).
  specialize (Hu (Prim2SF b) Hb (finite_valid b) Hhi).
  unfold finite, F2Z. rewrite FloatAxioms.sub_spec. unfold SF64sub.
  destruct Hl as [Hl|[Hn Hl]], Hu as [Hu|[Hn' Hu]];
    try (rewrite Hl in Hu; discriminate);
    try (rewrite Hl in Hn'; discriminate);
    try (rewrite Hu in Hn; discriminate).
  repeat split; assumption.
Qed.

(** The sum of two numbers is at or above a number at or below the exact
    sum: it is [+infinity] or a number at or above it. *)
Lemma add_above (x y a : float) :
  finite x = true -> finite y = true -> finite a = true ->
  F2Z a <= F2Z x + F2Z y ->
  Prim2SF (x + y) = S754_infinity false \/
  (finite (x + y) = true /\ F2Z a <= F2Z (x + y)).
Proof.
  intros Hx Hy Ha Hlo.
  destruct (SFadd_signed prec emax prec64_gt_1 emin64 emin64_le
              (Prim2SF x) (Prim2SF y) Hx (finite_valid x) Hy (finite_valid y))
    as [Hl _].
  specialize (Hl (Prim2SF a) Ha (finite_valid a) Hlo).
  unfold finite, F2Z. rewrite FloatAxioms.add_spec. exact Hl.
Qed.

(** One unit of [F2Z] is the smallest positive double; [1.0] is [2^1074]
    units. *)
Lemma F2Z_one : F2Z 1 = 2 ^ (- emin64).
Proof. reflexivity. Qed.

(** The product of two numbers is within any two numbers that enclose the
    exact product. *)
Lemma mul_between (x y a b : float) :
  finite x = true -> finite y = true -> finite a = true -> finite b = true ->
  F2Z a * F2Z 1 <= F2Z x * F2Z y -> F2Z x * F2Z y <= F2Z b * F2Z 1 ->
  finite (x * y) = true /\ F2Z a <= F2Z (x * y) <= F2Z b.
Proof.
  intros Hx Hy Ha Hb Hlo Hhi.
  destruct (SFmul_signed prec emax prec64_gt_1 prec64_lt_emax emin64 emin64_le
              (Prim2SF x) (Prim2SF y) Hx (finite_valid x) Hy (finite_valid y))
    as [Hl Hu].
  assert (Hres : forall z : float,
             SFval (emin64 + emin64) (Prim2SF z) = F2Z z * F2Z 1).
  { intros z. rewrite F2Z_one.
    rewrite (SFval_rescale prec emax emin64 emin64_le (emin64 + emin64) (Prim2SF z)
               (finite_valid z)) by (unfold emin64; cbv; discriminate).
    unfold F2Z. f_equal. }
  specialize (Hl (Prim2SF a) Ha (finite_valid a)).
  specialize (Hu (Prim2SF b) Hb (finite_valid b)).
  rewrite Hres in Hl, Hu. specialize (Hl Hlo). specialize (Hu Hhi).
  unfold finite. rewrite FloatAxioms.mul_spec. unfold SF64mul.
  assert (Hone : 0 < F2Z 1) by (rewrite F2Z_one; apply pow2_pos; cbv; discriminate).
  destruct Hl as [Hl|[Hn Hl]], Hu as [Hu|[Hn' Hu]];
    try (rewrite Hl in Hu; discriminate);
    try (rewrite Hl in Hn'; discriminate);
    try (rewrite Hu in Hn; discriminate).
  split; [exact Hn|].
  pose proof (Hres (x * y)%float) as Hxy.
  rewrite FloatAxioms.mul_spec in Hxy. unfold SF64mul in Hxy.
  rewrite Hxy in Hl, Hu. nia.
Qed.

Section IntegerValues.

Variable prec emax : Z.
Hypothesis prec_gt_1 : 1 < prec.
Hypothesis prec_lt_emax : prec < emax.

Local Abbreviation emin := (SpecFloat.emin prec emax).
Local Abbreviation fexp := (SpecFloat.fexp prec emax).

Variable B : Z.
Hypothesis unit_below_emin : B <= emin.

(** An exact value that is a number of the format is rounded to itself. *)
Lemma binary_normalize_exact (m e : Z) (c : spec_float) :
  B <= e ->
  SFnumber c = true -> SpecFloat.valid_binary prec emax c = true ->
  SFval B c = m * 2 ^ (e - B) ->
  SFnumber (binary_normalize prec emax m e false) = true /\
  SFval B (binary_normalize prec emax m e false) = SFval B c.
Proof.
  intros HB Hn Hv Hc.
  destruct (binary_normalize_signed prec emax prec_gt_1 B unit_below_emin m e false HB)
    as [Hl Hu].
  specialize (Hl c Hn Hv ltac:(lia)). specialize (Hu c Hn Hv ltac:(lia)).
  destruct Hl as [Hl|[Hn1 Hl]], Hu as [Hu|[Hn2 Hu]];
    try (rewrite Hl in Hu; discriminate);
    try (rewrite Hl in Hn2; discriminate);
    try (rewrite Hu in Hn1; discriminate).
  split; [exact Hn1 | lia].
Qed.

(** A positive integer below [2^prec] is a number of the format. *)
Lemma integer_in_format (i : Z) :
  0 < i < 2 ^ prec ->
  exists c : spec_float,
    SFnumber c = true /\ SpecFloat.valid_binary prec emax c = true /\
    SFval B c = i * 2 ^ (0 - B).
Proof.
  intros [Hpos Hlt].
  set (d := Zdigits2 i).
  assert (Hd1 : 0 < d) by (apply Zdigits2_pos; exact Hpos).
  assert (Hdp : d <= prec) by (apply Zdigits2_le_of_lt_pow2; lia).
  pose proof (pow2_pos (prec - d) ltac:(lia)) as Hp.
  destruct (i * 2 ^ (prec - d)) as [|m|m] eqn:Em; try lia.
  exists (S754_finite false m (d - prec)).
  assert (Hdm : Zpos (digits2_pos m) = prec).
  { change (Zpos (digits2_pos m)) with (Zdigits2 (Zpos m)).
    rewrite <- Em, Zdigits2_mul_pow2 by lia. fold d. lia. }
  split; [reflexivity|]. split.
  - cbn [SpecFloat.valid_binary]. unfold bounded, canonical_mantissa.
    rewrite Hdm. apply andb_true_iff. split.
    + apply Z.eqb_eq. unfold SpecFloat.fexp, SpecFloat.emin. lia.
    + apply Z.leb_le. lia.
  - cbn [SFval cond_Zopp]. rewrite <- Em.
    assert (HB : B <= d - prec) by (unfold SpecFloat.emin in unit_below_emin; lia).
    rewrite <- Z.mul_assoc, <- Z.pow_add_r by lia. f_equal. f_equal. lia.
Qed.

End IntegerValues.

(** Dividing a number by [1.0] gives the number (in value). *)
Lemma div_one (x : float) :
  finite x = true -> finite (x / 1) = true /\ F2Z (x / 1) = F2Z x.
Proof.
  intros Hx. unfold finite, F2Z. rewrite FloatAxioms.div_spec. unfold SF64div.
  change (Prim2SF 1) with (S754_finite false 4503599627370496 (1 - prec)).
  apply (SFdiv_by_one prec emax prec64_gt_1 emin64 emin64_le 4503599627370496
           eq_refl (Prim2SF x) Hx (finite_valid x)).
Qed.

(** The conversion of an [int] that is not negative is exact: the double
    is the integer. *)
Lemma of_int_value (i : Z) :
  0 <= i < 2 ^ 53 -> finite (of_int i) = true /\ F2Z (of_int i) = i * F2Z 1.
Proof.
  intros [Hlo Hhi].
  destruct (Z.eq_dec i 0) as [->|Hne]; [split; reflexivity|].
  unfold of_int. replace (i <? 0) with false by (symmetry; apply Z.ltb_ge; lia).
  unfold finite, F2Z. rewrite of_uint63_spec, Uint63.of_Z_spec.
  rewrite Z.mod_small by (change Uint63.wB with (2 ^ 63); split; [lia|];
                          apply Z.lt_trans with (1 := Hhi); reflexivity).
  destruct (integer_in_format prec emax prec64_gt_1 prec64_lt_emax emin64 emin64_le i
              ltac:(split; [lia | exact Hhi]))
    as (c & Hn & Hv & Hc).
  destruct (binary_normalize_exact prec emax prec64_gt_1 emin64 emin64_le i 0 c
              ltac:(cbv; discriminate) Hn Hv Hc) as [H1 H2].
  split; [exact H1|]. rewrite H2, Hc. fold (F2Z 1). rewrite F2Z_one. reflexivity.
Qed.

(** The sum of two numbers is within any two numbers that enclose the
    exact sum. *)
Lemma add_between (x y a b : float) :
  finite x = true -> finite y = true -> finite a = true -> finite b = true ->
  F2Z a <= F2Z x + F2Z y -> F2Z x + F2Z y <= F2Z b ->
  finite (x + y) = true /\ F2Z a <= F2Z (x + y) <= F2Z b.
Proof.
  intros Hx Hy Ha Hb Hlo Hhi.
  destruct (SFadd_signed prec emax prec64_gt_1 emin64 emin64_le
              (Prim2SF x) (Prim2SF y) Hx (finite_valid x) Hy (finite_valid y))
    as [Hl Hu].
  specialize (Hl (Prim2SF a) Ha (finite_valid a) Hlo).
  specialize (Hu (Prim2SF b) Hb (finite_valid b) Hhi).
  unfold finite, F2Z. rewrite FloatAxioms.add_spec. unfold SF64add.
  destruct Hl as [Hl|[Hn Hl]], Hu as [Hu|[Hn' Hu]];
    try (rewrite Hl in Hu; discriminate);
    try (rewrite Hl in Hn'; discriminate);
    try (rewrite Hu in Hn; discriminate).
  repeat split; assumption.
Qed.

(** A number whose value is zero is a zero; one whose value is not zero is
    not. *)
Lemma number_value_zero (x : float) :
  finite x = true -> F2Z x = 0 -> exists s, Prim2SF x = S754_zero s.
Proof.
  unfold finite, F2Z. pose proof (finite_valid x) as Hv.
  destruct (Prim2SF x) as [s|s| |s m e]; try discriminate; intros _ H; [eauto|].
  pose proof (valid_finite_exponent prec emax emin64 emin64_le _ _ _ Hv) as HB.
  pose proof (SFval_finite_pos emin64 m e HB).
  cbn [SFval] in H. destruct s; cbn [cond_Zopp] in H; lia.
Qed.

Lemma number_value_nonzero (x : float) :
  finite x = true -> F2Z x <> 0 -> exists s m e, Prim2SF x = S754_finite s m e.
Proof.
  unfold finite, F2Z.
  destruct (Prim2SF x) as [s|s| |s m e]; try discriminate; intros _ H;
    [cbn in H; lia | eauto].
Qed.

Lemma F2Z_zero : F2Z 0 = 0.
Proof. reflexivity. Qed.

Lemma finite_zero : finite 0 = true.
Proof. reflexivity. Qed.

(** The difference of two distinct numbers is not zero: the smallest
    positive double is one unit. *)
Lemma sub_positive (x y b : float) :
  finite x = true -> finite y = true -> finite b = true ->
  F2Z y < F2Z x -> F2Z x - F2Z y <= F2Z b ->
  finite (x - y) = true /\ 0 < F2Z (x - y) <= F2Z b.
Proof.
  intros Hx Hy Hb Hlt Hhi.
  destruct (sub_between x y 0 b Hx Hy finite_zero Hb) as [Hf [_ Hub]];
    [rewrite F2Z_zero; lia | exact Hhi |].
  split; [exact Hf|]. split; [|exact Hub].
  destruct (SFsub_signed prec emax prec64_gt_1 emin64 emin64_le
              (Prim2SF x) (Prim2SF y) Hx (finite_valid x) Hy (finite_valid y))
    as [Hl _].
  specialize (Hl (S754_finite false 1 emin64) eq_refl eq_refl).
  change (SFval emin64 (S754_finite false 1 emin64)) with 1 in Hl.
  specialize (Hl ltac:(unfold F2Z in Hlt; lia)).
  unfold finite in Hf. rewrite FloatAxioms.sub_spec in Hf. unfold SF64sub in Hf.
  unfold F2Z. rewrite FloatAxioms.sub_spec. unfold SF64sub.
  destruct Hl as [Hl|[_ Hl]]; [rewrite Hl in Hf; discriminate | lia].
Qed.

(** ** The flat curve *)

(** Interpolating between two equal rates [r] gives [r], when the two
    differences of maturities are numbers and the spacing is not zero. *)
Lemma flat_interpolation (r s d : float) :
  finite r = true -> finite s = true -> finite d = true -> F2Z d <> 0 ->
  (r + (r - r) * s / d =? r)%float = true.
Proof.
  intros Hr Hs Hd Hd0.
  destruct (sub_between r r 0 0 Hr Hr finite_zero finite_zero) as [Hf1 Hv1];
    try (rewrite F2Z_zero; lia).
  rewrite F2Z_zero in Hv1.
  assert (Hv1' : F2Z (r - r) = 0) by lia.
  destruct (mul_between (r - r) s 0 0 Hf1 Hs finite_zero finite_zero) as [Hf2 Hv2];
    try (rewrite F2Z_zero, Hv1'; lia).
  rewrite F2Z_zero in Hv2.
  destruct (number_value_zero _ Hf2 ltac:(lia)) as [sz Hz].
  destruct (number_value_nonzero _ Hd Hd0) as (sd & md & ed & Hdd).
  assert (Hq : exists sq, Prim2SF ((r - r) * s / d) = S754_zero sq).
  { rewrite FloatAxioms.div_spec, Hz, Hdd. cbn. eauto. }
  destruct Hq as [sq Hq].
  assert (Hfq : finite ((r - r) * s / d) = true) by (unfold finite; rewrite Hq; reflexivity).
  assert (Hvq : F2Z ((r - r) * s / d) = 0) by (unfold F2Z; rewrite Hq; reflexivity).
  destruct (add_between r ((r - r) * s / d) r r Hr Hfq Hr Hr) as [Hf Hv];
    try lia.
  rewrite eqb_F2Z by assumption. apply Z.eqb_eq. lia.
Qed.

Lemma leb_0_F2Z (m : float) :
  finite m = true -> (0 <=? m)%float = true -> 0 <= F2Z m.
Proof.
  intros Hf H. rewrite leb_F2Z in H by (assumption || reflexivity).
  rewrite F2Z_zero in H. apply Z.leb_le. exact H.
Qed.

Lemma ltb_F2Z_lt (x y : float) :
  finite x = true -> finite y = true -> (x <? y)%float = true -> F2Z x < F2Z y.
Proof.
  intros Hx Hy H. rewrite ltb_F2Z in H by assumption. apply Z.ltb_lt. exact H.
Qed.

Lemma leb_F2Z_le (x y : float) :
  finite x = true -> finite y = true -> (x <=? y)%float = true -> F2Z x <= F2Z y.
Proof.
  intros Hx Hy H. rewrite leb_F2Z in H by assumption. apply Z.leb_le. exact H.
Qed.

Lemma finite_not_NaN (x : float) : finite x = true -> is_NaN x = false.
Proof. unfold finite, is_NaN. destruct (Prim2SF x); (discriminate || reflexivity). Qed.

Lemma Forall_nth_default {A : Type} (P : A -> Prop) (l : list A) (i : nat) (d : A) :
  Forall P l -> (i < List.length l)%nat -> P (nth i l d).
Proof.
  intros H Hi. rewrite Forall_forall in H. apply H. apply nth_In. exact Hi.
Qed.

(** No number is above the largest double. *)
Lemma F2Z_le_DBL_MAX (x : float) : finite x = true -> F2Z x <= F2Z DBL_MAX.
Proof.
  intros Hx.
  assert (Hmax : F2Z DBL_MAX = 9007199254740991 * 2 ^ (971 - emin64))
    by (vm_compute; reflexivity).
  rewrite Hmax. clear Hmax.
  pose proof (finite_valid x) as Hv. unfold finite in Hx. unfold F2Z.
  pose proof (pow2_pos (971 - emin64) ltac:(unfold emin64; cbn; lia)) as Hp.
  destruct (Prim2SF x) as [s|s| |s m e]; try discriminate Hx; cbn [SFval]; [nia|].
  cbn [SpecFloat.valid_binary] in Hv.
  destruct (bounded_inv prec emax m e Hv) as (_ & He & Hlo & Hd).
  pose proof (digits2_pos_bounds m) as [_ Hm].
  assert (Hm53 : Zpos m < 2 ^ 53).
  { apply Z.lt_le_trans with (1 := Hm). apply Z.pow_le_mono_r; [lia | exact Hd]. }
  assert (He' : 0 <= e - emin64) by (unfold emin64; lia).
  assert (Hpow : 2 ^ (e - emin64) <= 2 ^ (971 - emin64)).
  { apply Z.pow_le_mono_r; [lia|]. change (emax - prec) with 971 in He. lia. }
  pose proof (pow2_pos (e - emin64) He') as Hq.
  change (2 ^ 53) with 9007199254740992 in Hm53.
  destruct s; cbn [cond_Zopp]; nia.
Qed.

(** On a curve without a negative maturity the span is in range. *)
Lemma nonnegative_span_in_range (ms : list float) :
  ms <> [] ->
  Forall (fun m => finite m = true /\ (0 <=? m)%float = true) ms ->
  span_in_range ms = true.
Proof.
  intros Hne Hms. unfold span_in_range. apply Z.leb_le.
  assert (Hhd : finite (hd nan ms) = true /\ (0 <=? hd nan ms)%float = true).
  { destruct ms as [|m ms']; [congruence|]. inversion Hms. assumption. }
  assert (Hlast : finite (last ms nan) = true).
  { rewrite <- nth_pred_length_last.
    apply (Forall_nth_default _ _ _ _ Hms). destruct ms; [congruence | simpl; lia]. }
  pose proof (leb_0_F2Z _ (proj1 Hhd) (proj2 Hhd)).
  pose proof (F2Z_le_DBL_MAX _ Hlast). lia.
Qed.

(** On a strictly increasing vector of numbers the values increase. *)
Lemma strictly_increasing_values (ms : list float) (i j : nat) :
  strictly_increasing ms = true -> Forall (fun m => finite m = true) ms ->
  (i <= j)%nat -> (j < List.length ms)%nat ->
  F2Z (nth i ms nan) <= F2Z (nth j ms nan).
Proof.
  intros Hs Hf Hij Hj.
  destruct (Nat.eq_dec i j) as [->|Hne]; [lia|].
  apply Z.lt_le_incl. apply ltb_F2Z_lt.
  - apply (Forall_nth_default _ _ _ _ Hf). lia.
  - apply (Forall_nth_default _ _ _ _ Hf). lia.
  - apply strictly_increasing_nth; [exact Hs | lia | exact Hj].
Qed.

(** C7: on a constructed curve with a point whose maturities are numbers,
    strictly increasing, with a span in the range of doubles -- as on every
    curve without a negative maturity --, and whose rates all are one
    number [r], [interpolate t == r] for every [t]: below the first
    maturity, above the last, in between, and also for a [t] that is
    infinite or NaN. *)
Theorem interpolate_flat_curve (ms rs : list float) (c : YieldCurve) (r t : float) :
  YieldCurve_new ms rs = Returns c -> ms <> [] ->
  strictly_increasing ms = true ->
  Forall (fun m => finite m = true) ms ->
  span_in_range ms = true ->
  Forall (fun x => x = r) rs -> finite r = true ->
  exists v, interpolate c t = Returns v /\ (v =? r)%float = true.
Proof.
  intros Hc Hne Hs Hms Hspan Hrs Hr.
  apply YieldCurve_new_Returns in Hc. destruct Hc as [-> Hlen].
  assert (Hpos : (0 < List.length ms)%nat) by (destruct ms; [congruence | simpl; lia]).
  pose proof (lower_bound_le_length ms t) as Hle.
  destruct (lower_bound ms t) as [|i] eqn:Ei.
  - exists r. split; [|apply eqb_refl_finite; exact Hr].
    rewrite (interpolate_at_begin (mkYieldCurve ms rs) t Hlen Hne Ei).
    cbn [rates]. destruct rs as [|x rs]; [simpl in Hlen; lia|].
    inversion Hrs. subst. reflexivity.
  - destruct (Nat.eq_dec (S i) (List.length ms)) as [E|E].
    + exists r. split; [|apply eqb_refl_finite; exact Hr].
      rewrite (interpolate_at_end (mkYieldCurve ms rs) t Hlen Hne)
        by (cbn [maturities]; congruence).
      cbn [rates]. rewrite <- nth_pred_length_last. f_equal.
      apply (Forall_nth_default _ _ _ _ Hrs). lia.
    + assert (Hin : (S i < List.length ms)%nat) by lia.
      rewrite (interpolate_between (mkYieldCurve ms rs) t Hlen i Ei Hin).
      cbn [rates maturities].
      rewrite (Forall_nth_default _ rs i nan Hrs) by lia.
      rewrite (Forall_nth_default _ rs (S i) nan Hrs) by lia.
      eexists. split; [reflexivity|].
      pose proof (strictly_increasing_values ms 0 i Hs Hms ltac:(lia) ltac:(lia))
        as Hfirst.
      pose proof (strictly_increasing_values ms (S i) (List.length ms - 1) Hs Hms
                    ltac:(lia) ltac:(lia)) as Hend.
      rewrite nth_0_hd in Hfirst. rewrite nth_pred_length_last in Hend.
      apply Z.leb_le in Hspan.
      set (t0 := nth i ms nan) in *. set (t1 := nth (S i) ms nan) in *.
      pose proof (Forall_nth_default _ ms i nan Hms ltac:(lia)) as Hf0.
      pose proof (Forall_nth_default _ ms (S i) nan Hms Hin) as Hf1.
      cbv beta in Hf0, Hf1. fold t0 in Hf0. fold t1 in Hf1.
      destruct (lower_bound_correct ms t
                  (fun a b => strictly_increasing_partitioned ms t a b Hs))
        as [Hbelow Hnot].
      rewrite Ei in Hbelow, Hnot.
      assert (H0t : (t0 <? t)%float = true) by (apply Hbelow; lia).
      assert (Ht1 : (t <=? t1)%float = true).
      { apply ltb_false_leb;
          [apply finite_not_NaN; exact Hf1
          | apply (ltb_true_not_NaN _ _ H0t)
          | apply Hnot; lia]. }
      assert (Hft : finite t = true) by (apply (finite_between t0 t t1); assumption).
      pose proof (ltb_F2Z_lt t0 t Hf0 Hft H0t) as Hlt0.
      pose proof (leb_F2Z_le t t1 Hft Hf1 Ht1) as Hle1.
      assert (Hmax : finite DBL_MAX = true) by reflexivity.
      destruct (sub_between t t0 0 DBL_MAX Hft Hf0 finite_zero Hmax) as [Hfs _];
        try (rewrite ?F2Z_zero; lia).
      destruct (sub_positive t1 t0 DBL_MAX Hf1 Hf0 Hmax ltac:(lia) ltac:(lia))
        as [Hfd [Hd _]].
      apply flat_interpolation; try assumption. lia.
Qed.

(** ** Interpolation between two rates that are not negative *)

Lemma opp_value (x : float) :
  finite x = true -> finite (- x) = true /\ F2Z (- x) = - F2Z x.
Proof.
  unfold finite, F2Z. rewrite FloatAxioms.opp_spec.
  destruct (Prim2SF x) as [s|s| |s m e]; try discriminate; intros _;
    cbn [SFopp SFnumber SFval]; split; try reflexivity.
  apply cond_Zopp_negb.
Qed.

Lemma F2Z_one_pos : 0 < F2Z 1.
Proof. rewrite F2Z_one. apply pow2_pos. cbv. discriminate. Qed.

(** A number with the value of [1.0] is [1.0]. *)
Lemma value_one (d : float) : finite d = true -> F2Z d = F2Z 1 -> d = 1%float.
Proof.
  intros Hf Hv. apply Prim2SF_inj.
  apply (SFval_inj prec emax prec64_gt_1 emin64 emin64_le);
    try apply finite_valid; try assumption; try reflexivity.
  fold (F2Z d). pose proof F2Z_one_pos. lia.
Qed.

(** At or above zero: [+infinity], or a number whose value is not
    negative. *)
Lemma leb_0_of_value (v : float) :
  Prim2SF v = S754_infinity false \/ (finite v = true /\ 0 <= F2Z v) ->
  (0 <=? v)%float = true.
Proof.
  intros [H|[Hf Hv]].
  - rewrite FloatAxioms.leb_spec, H. reflexivity.
  - rewrite leb_F2Z by (assumption || reflexivity). rewrite F2Z_zero.
    apply Z.leb_le. exact Hv.
Qed.

(** Between two points one unit apart whose rates are numbers and not
    negative, the interpolated rate is not negative. *)
Lemma interpolation_nonneg (r0 r1 t0 t1 t : float) :
  finite r0 = true -> finite r1 = true -> 0 <= F2Z r0 -> 0 <= F2Z r1 ->
  finite t0 = true -> finite t1 = true -> finite t = true ->
  F2Z t0 < F2Z t -> F2Z t <= F2Z t1 -> F2Z t1 - F2Z t0 = F2Z 1 ->
  (0 <=? r0 + (r1 - r0) * (t - t0) / (t1 - t0))%float = true.
Proof.
  intros Hr0 Hr1 Hp0 Hp1 Hf0 Hf1 Hft Hlt Hle Hunit.
  pose proof F2Z_one_pos as HU.
  destruct (opp_value r0 Hr0) as [Hfn Hvn].
  destruct (sub_between r1 r0 (- r0) r1 Hr1 Hr0 Hfn Hr1) as [HfD HvD];
    try (rewrite ?Hvn; lia).
  rewrite Hvn in HvD.
  destruct (sub_between t t0 0 1 Hft Hf0 finite_zero eq_refl) as [Hfs Hvs];
    try (rewrite ?F2Z_zero; lia).
  rewrite F2Z_zero in Hvs.
  destruct (sub_between t1 t0 1 1 Hf1 Hf0 eq_refl eq_refl) as [Hfd Hvd]; try lia.
  rewrite (value_one (t1 - t0) Hfd ltac:(lia)).
  destruct (mul_between (r1 - r0) (t - t0) (- r0) r1 HfD Hfs Hfn Hr1) as [HfP HvP].
  { rewrite Hvn. nia. }
  { nia. }
  rewrite Hvn in HvP.
  destruct (div_one _ HfP) as [HfQ HvQ].
  apply leb_0_of_value.
  apply (add_above r0 _ 0 Hr0 HfQ finite_zero). rewrite F2Z_zero, HvQ. lia.
Qed.

(** ** The maturities of a perturbed curve *)

Lemma nth_one_to (n i : nat) :
  (i < n)%nat -> nth i (map of_int (one_to n)) nan = of_int (Z.of_nat (S i)).
Proof.
  intros Hi. unfold one_to.
  rewrite (nth_indep _ nan (of_int (Z.of_nat 0)))
    by (rewrite !length_map, length_seq; exact Hi).
  rewrite !map_nth, seq_nth by exact Hi. reflexivity.
Qed.

Lemma of_int_lt_succ (a : Z) :
  0 <= a -> a + 1 < 2 ^ 53 -> (of_int a <? of_int (a + 1))%float = true.
Proof.
  intros Ha Hb.
  destruct (of_int_value a ltac:(lia)) as [Hf1 Hv1].
  destruct (of_int_value (a + 1) ltac:(lia)) as [Hf2 Hv2].
  rewrite ltb_F2Z by assumption. apply Z.ltb_lt.
  pose proof F2Z_one_pos. nia.
Qed.

Lemma strictly_increasing_of_int_seq (k a : nat) :
  Z.of_nat (a + k) < 2 ^ 53 ->
  strictly_increasing (map of_int (map Z.of_nat (seq a k))) = true.
Proof.
  revert a. induction k as [|k IH]; intros a Hb; [reflexivity|].
  destruct k as [|k]; [reflexivity|].
  change (seq a (S (S k))) with (a :: seq (S a) (S k)).
  cbn [map]. change (seq (S a) (S k)) with (S a :: seq (S (S a)) k) at 1.
  cbn [map strictly_increasing]. apply andb_true_iff. split.
  - replace (Z.of_nat (S a)) with (Z.of_nat a + 1) by lia.
    apply of_int_lt_succ; lia.
  - specialize (IH (S a) ltac:(lia)).
    change (seq (S a) (S k)) with (S a :: seq (S (S a)) k) in IH. exact IH.
Qed.

Lemma strictly_increasing_one_to (n : nat) :
  Z.of_nat n <= INT_MAX -> strictly_increasing (map of_int (one_to n)) = true.
Proof.
  intros Hn. unfold one_to. apply strictly_increasing_of_int_seq.
  unfold INT_MAX in Hn.
  apply Z.le_lt_trans with (2147483648); [lia | reflexivity].
Qed.

(** On a curve with maturities 1, ..., n and rates that are numbers and not
    negative, every interpolated rate is at least zero. *)
Lemma interpolate_unit_grid_nonneg (n : nat) (rs : list float) (t : float) :
  (0 < n)%nat -> Z.of_nat n <= INT_MAX -> List.length rs = n ->
  Forall (fun r => (0 <=? r)%float = true) rs ->
  Forall (fun r => finite r = true) rs ->
  exists v, interpolate (mkYieldCurve (map of_int (one_to n)) rs) t = Returns v /\
            (0 <=? v)%float = true.
Proof.
  intros Hn Hmax Hlen Hpos Hfin.
  set (ms := map of_int (one_to n)).
  assert (Hlm : List.length ms = n) by (unfold ms; rewrite length_map; apply one_to_length).
  assert (Hlen' : List.length (maturities (mkYieldCurve ms rs))
                  = List.length (rates (mkYieldCurve ms rs))) by (cbn; lia).
  assert (Hne : maturities (mkYieldCurve ms rs) <> [])
    by (cbn; intros E; rewrite E in Hlm; simpl in Hlm; lia).
  pose proof (strictly_increasing_one_to n Hmax) as Hs. fold ms in Hs.
  pose proof (lower_bound_le_length ms t) as Hle.
  destruct (lower_bound ms t) as [|i] eqn:Ei.
  - rewrite (interpolate_at_begin _ t Hlen' Hne Ei). cbn [rates].
    eexists. split; [reflexivity|]. rewrite <- nth_0_hd.
    apply (Forall_nth_default _ _ _ _ Hpos). lia.
  - destruct (Nat.eq_dec (S i) (List.length ms)) as [E|E].
    + rewrite (interpolate_at_end _ t Hlen' Hne) by (cbn [maturities]; congruence).
      cbn [rates]. eexists. split; [reflexivity|]. rewrite <- nth_pred_length_last.
      apply (Forall_nth_default _ _ _ _ Hpos). lia.
    + assert (Hin : (S i < List.length ms)%nat) by lia.
      rewrite (interpolate_between _ t Hlen' i Ei Hin). cbn [rates maturities].
      eexists. split; [reflexivity|].
      unfold ms at 1 2 3. rewrite !nth_one_to by lia.
      set (t0 := of_int (Z.of_nat (S i))). set (t1 := of_int (Z.of_nat (S (S i)))).
      assert (Hbound : Z.of_nat (S (S i)) < 2 ^ 53).
      { unfold INT_MAX in Hmax.
        apply Z.le_lt_trans with (2147483648); [lia | reflexivity]. }
      destruct (of_int_value (Z.of_nat (S i)) ltac:(lia)) as [Hf0 Hv0].
      destruct (of_int_value (Z.of_nat (S (S i))) ltac:(lia)) as [Hf1 Hv1].
      fold t0 in Hf0, Hv0. fold t1 in Hf1, Hv1.
      destruct (lower_bound_correct ms t
                  (fun a b => strictly_increasing_partitioned ms t a b Hs))
        as [Hbelow Hnot].
      rewrite Ei in Hbelow, Hnot.
      assert (H0t : (t0 <? t)%float = true).
      { unfold t0. rewrite <- (nth_one_to n i) by lia. apply Hbelow. lia. }
      assert (Ht1 : (t <=? t1)%float = true).
      { apply ltb_false_leb;
          [apply finite_not_NaN; exact Hf1
          | apply (ltb_true_not_NaN _ _ H0t)
          | unfold t1; rewrite <- (nth_one_to n (S i)) by lia; apply Hnot; lia]. }
      assert (Hft : finite t = true) by (apply (finite_between t0 t t1); assumption).
      pose proof (Forall_nth_default _ rs i nan Hpos ltac:(lia)) as Hp0.
      pose proof (Forall_nth_default _ rs (S i) nan Hpos ltac:(lia)) as Hp1.
      pose proof (Forall_nth_default _ rs i nan Hfin ltac:(lia)) as Hr0.
      pose proof (Forall_nth_default _ rs (S i) nan Hfin ltac:(lia)) as Hr1.
      cbv beta in Hp0, Hp1, Hr0, Hr1.
      apply interpolation_nonneg; try assumption.
      * apply leb_0_F2Z; assumption.
      * apply leb_0_F2Z; assumption.
      * apply ltb_F2Z_lt; assumption.
      * apply leb_F2Z_le; assumption.
      * rewrite Hv0, Hv1. lia.
Qed.

Section PerturbedCurve.

Variable Gen : Type.
Variable draw : Gen -> float * Gen.

(** C6: on a constructed engine with [years_to_maturity] below [INT_MAX]
    (the loop counts to it on an [int]), [shiftYieldCurve] returns the
    curve with maturities 1, ..., ytm whose rate at [i] is the larger of
    [0.0] and the base rate at [i] plus the [i]-th sample (it returns when
    the base curve has a point; on an empty base curve the first lookup is
    undefined); every rate is at least zero whatever the samples, and the
    base curve is as it was.  The rates of the perturbed curve being
    numbers, every interpolated rate of the perturbed curve is at least
    zero, rounding included. *)
Theorem shiftYieldCurve_nonnegative (fv cr : float) (ytm cpy : Z)
  (ms rs : list float) (yc : YieldCurve) (sims : Z) (seed : Gen)
  (e : BondPriceCalculator Gen) :
  YieldCurve_new ms rs = Returns yc ->
  BondPriceCalculator_new fv cr ytm cpy yc sims seed = Returns e ->
  ytm < INT_MAX ->
  let n := Z.to_nat ytm in
  let ds := fst (draws draw n seed) in
  let shifted := mkYieldCurve (map of_int (one_to n)) (perturbed_rates yc n ds) in
  let e' := with_gen e (snd (draws draw n seed)) in
  (ms <> [] -> shiftYieldCurve draw e = Returns (shifted, e')) /\
  (ms = [] -> shiftYieldCurve draw e = Undefined) /\
  maturities shifted = map of_int (one_to n) /\
  rates shifted
  = map (fun p : Z * float =>
           std_max 0%float (rate_at yc (of_int (fst p)) + snd p)%float)
        (combine (one_to n) ds) /\
  List.length (rates shifted) = n /\
  Forall (fun r => (0 <=? r)%float = true) (rates shifted) /\
  yield_curve e' = yc /\ yield_curve e = yc /\
  (Forall (fun r => finite r = true) (rates shifted) ->
   forall t : float,
     exists v, interpolate shifted t = Returns v /\ (0 <=? v)%float = true).
Proof.
  intros Hyc Hnew Hmax n ds shifted e'.
  apply YieldCurve_new_Returns in Hyc. destruct Hyc as [-> Hlen].
  apply BondPriceCalculator_new_Returns in Hnew.
  destruct Hnew as (-> & _ & _ & Hy & _ & _).
  assert (Hds : List.length ds = n) by apply draws_length.
  split.
  { intros Hne.
    match goal with |- shiftYieldCurve draw ?e0 = _ =>
      apply (shiftYieldCurve_Returns Gen draw e0 Hlen Hne Hmax) end. }
  split.
  { intros ->. destruct rs; [|discriminate].
    apply shiftYieldCurve_empty_base; [reflexivity | reflexivity | exact Hy]. }
  split; [reflexivity|]. split; [reflexivity|].
  split; [apply perturbed_rates_length; exact Hds|].
  split; [apply perturbed_rates_nonneg|].
  split; [reflexivity|]. split; [reflexivity|].
  intros Hfin t.
  apply interpolate_unit_grid_nonneg.
  - unfold n. lia.
  - unfold n. lia.
  - apply perturbed_rates_length. exact Hds.
  - apply perturbed_rates_nonneg.
  - exact Hfin.
Qed.

End PerturbedCurve.

(** ** The theorems at concrete inputs *)


(** C2 at the curve (1, 0.01), (2, 0.02) and [t = 1.5]. *)
Lemma interpolate_cases_witness :
  ((1.5 <=? 1)%float = true -> interpolate two_point_curve 1.5 = Returns 0.01%float) /\
  ((2 <? 1.5)%float = true -> interpolate two_point_curve 1.5 = Returns 0.02%float) /\
  ((1.5 <=? 1)%float = false -> (2 <? 1.5)%float = false ->
   exists (i : nat) (t0 t1 r0 r1 : float),
     lower_bound [1; 2]%float 1.5 = S i /\
     nth_error [1; 2]%float i = Some t0 /\ nth_error [1; 2]%float (S i) = Some t1 /\
     nth_error [0.01; 0.02]%float i = Some r0 /\
     nth_error [0.01; 0.02]%float (S i) = Some r1 /\
     (t0 <? 1.5)%float = true /\ (1.5 <=? t1)%float = true /\
     interpolate two_point_curve 1.5
     = Returns (r0 + (r1 - r0) * (1.5 - t0) / (t1 - t0))%float).
Proof.
  apply (interpolate_cases [1; 2]%float [0.01; 0.02]%float two_point_curve 1.5).
  - reflexivity.
  - discriminate.
  - reflexivity.
  - repeat constructor.
  - reflexivity.
Defined.

(** C8 at the inputs 1000, 0.05, 5, 2 and 3 with the curve of [main]. *)
Lemma BondPriceCalculator_new_validates_witness :
  let r := BondPriceCalculator_new 1000 0.05 5 2 demo_curve 3 (@nil float) in
  r = match first_failed_rule 1000 0.05 5 2 3 with
      | Some what => Throws what
      | None => Returns (mkEngine 1000 0.05 5 2 demo_curve 3
                           ((0.05 =? 0)%float && (2 =? 1)) (@nil float))
      end /\
  ((exists what, r = Throws what) <->
   ~ ((0 <? 1000)%float = true /\ (0 <=? 0.05)%float = true /\
      0 < 5 /\ 0 < 2 /\ 0 < 3)) /\
  ((exists what, r = Throws what) -> forall e, r <> Returns e) /\
  (forall e : BondPriceCalculator (list float),
      r = Returns e ->
      face_value e = 1000%float /\ coupon_rate e = 0.05%float /\
      years_to_maturity e = 5 /\
      coupons_per_year e = 2 /\ yield_curve e = demo_curve /\
      num_simulations e = 3 /\
      (0 <? face_value e)%float = true /\ (0 <=? coupon_rate e)%float = true /\
      0 < years_to_maturity e /\ 0 < coupons_per_year e /\
      0 < num_simulations e) /\
  r <> Undefined.
Proof.
  apply (BondPriceCalculator_new_validates (list float) 1000 0.05 5 2 demo_curve 3 []).
  - reflexivity.
  - reflexivity.
Defined.

(** C3 at the zero-coupon bond of face 1000 and 5 years (coupon rate 0, one
    coupon a year). *)
Lemma calculatePrice_zero_coupon_bond_witness :
  let e := mkEngine 1000 0 5 1 demo_curve 3 true (@nil float) in
  (is_zero_coupon e = true <-> (0 =? 0)%float = true /\ 1 = 1) /\
  (is_zero_coupon e = true ->
   (forall c : YieldCurve,
       calculatePrice pow_example e c =
       (y <- interpolate c (of_int 5) ;;
        Returns (1000 / pow_example (1 + y) (of_int 5))%float)) /\
   (forall (ms rs : list float) (c : YieldCurve),
       YieldCurve_new ms rs = Returns c -> ms <> [] ->
       calculatePrice pow_example e c
       = Returns (zero_coupon_price pow_example 1000 5 c))).
Proof.
  apply (calculatePrice_zero_coupon_bond pow_example (list float) 1000 0 5 1
           demo_curve 3 [] _).
  reflexivity.
Defined.

(** C6 at the engine of a 2-year bond on the curve of [main], with the
    samples 0.001 and -0.5: the second rate is floored at zero. *)
Lemma shiftYieldCurve_nonnegative_witness :
  let e := mkEngine 1000 0.05 2 1 demo_curve 3 false [0.001; -0.5; 0.002]%float in
  let shifted := mkYieldCurve (map of_int (one_to 2))
                   (perturbed_rates demo_curve 2 [0.001; -0.5]%float) in
  let e' := with_gen e [0.002]%float in
  (maturities demo_curve <> [] ->
   shiftYieldCurve draw_list e = Returns (shifted, e')) /\
  (maturities demo_curve = [] -> shiftYieldCurve draw_list e = Undefined) /\
  maturities shifted = map of_int (one_to 2) /\
  rates shifted
  = map (fun p : Z * float =>
           std_max 0%float (rate_at demo_curve (of_int (fst p)) + snd p)%float)
        (combine (one_to 2) [0.001; -0.5]%float) /\
  List.length (rates shifted) = 2%nat /\
  Forall (fun r => (0 <=? r)%float = true) (rates shifted) /\
  yield_curve e' = demo_curve /\ yield_curve e = demo_curve /\
  (Forall (fun r => finite r = true) (rates shifted) ->
   forall t : float,
     exists v, interpolate shifted t = Returns v /\ (0 <=? v)%float = true).
Proof.
  apply (shiftYieldCurve_nonnegative (list float) draw_list 1000 0.05 2 1
           [1; 2; 3; 5; 10; 30]%float
           [0.01; 0.015; 0.02; 0.025; 0.03; 0.035]%float
           demo_curve 3 [0.001; -0.5; 0.002]%float _).
  - reflexivity.
  - reflexivity.
  - reflexivity.
Defined.

(** C7 at the flat curve with maturities 1, 2, 3 and rate 0.03, and
    [t = 1.5]. *)
Lemma interpolate_flat_curve_witness :
  exists v,
    interpolate (mkYieldCurve [1; 2; 3]%float [0.03; 0.03; 0.03]%float) 1.5
    = Returns v /\
    (v =? 0.03)%float = true.
Proof.
  apply (interpolate_flat_curve [1; 2; 3]%float [0.03; 0.03; 0.03]%float
           (mkYieldCurve [1; 2; 3]%float [0.03; 0.03; 0.03]%float) 0.03 1.5).
  - reflexivity.
  - discriminate.
  - reflexivity.
  - repeat constructor.
  - reflexivity.
  - repeat constructor.
  - reflexivity.
Defined.

(** * Further properties of the code *)

(** ** The binary search on any vector *)

Lemma lower_bound_loop_neighbours (fuel : nat) (v : list float) (t : float)
  (first len : nat) :
  (len <= fuel)%nat -> (first + len <= List.length v)%nat ->
  ((0 < first)%nat -> (nth (first - 1) v nan <? t)%float = true) ->
  ((first + len < List.length v)%nat ->
   (nth (first + len) v nan <? t)%float = false) ->
  let r := lower_bound_loop fuel v t first len in
  ((0 < r)%nat -> (nth (r - 1) v nan <? t)%float = true) /\
  ((r < List.length v)%nat -> (nth r v nan <? t)%float = false).
Proof.
  revert first len. induction fuel as [|fuel IH]; intros first len Hfuel Hn Hlo Hhi;
    cbn [lower_bound_loop].
  - replace len with 0%nat in * by lia. rewrite Nat.add_0_r in Hhi. split; assumption.
  - destruct (0 <? len)%nat eqn:E.
    2:{ apply Nat.ltb_ge in E. replace len with 0%nat in * by lia.
        rewrite Nat.add_0_r in Hhi. split; assumption. }
    apply Nat.ltb_lt in E. pose proof (div2_lt len E) as Hd.
    revert Hd. generalize (Nat.div2 len). intros half Hd.
    destruct (nth (first + half) v nan <? t)%float eqn:Em.
    + apply IH; [lia | lia | |].
      * intros _. replace (S (first + half) - 1)%nat with (first + half)%nat by lia.
        exact Em.
      * replace (S (first + half) + (len - half - 1))%nat with (first + len)%nat by lia.
        exact Hhi.
    + apply IH; [lia | lia | exact Hlo |]. intros _. exact Em.
Qed.

(** X1: whatever the vector holds -- sorted or not, with duplicates or
    NaN -- [std::lower_bound] returns a position [r] within the vector or at
    its end such that the element just before [r], when there is one, is
    below [t] and the element at [r], when there is one, is not. *)
Theorem lower_bound_neighbours (v : list float) (t : float) :
  let r := lower_bound v t in
  (r <= List.length v)%nat /\
  ((0 < r)%nat -> (nth (r - 1) v nan <? t)%float = true) /\
  ((r < List.length v)%nat -> (nth r v nan <? t)%float = false).
Proof.
  intros r. split; [apply lower_bound_le_length|].
  unfold r, lower_bound. apply lower_bound_loop_neighbours; lia.
Qed.

(** X2: on a strictly increasing vector [std::lower_bound] returns the
    partition point: the elements before the position returned are exactly
    the elements below [t]. *)
Theorem lower_bound_partition_point (v : list float) (t : float) (j : nat) :
  strictly_increasing v = true -> (j < List.length v)%nat ->
  ((j < lower_bound v t)%nat <-> (nth j v nan <? t)%float = true).
Proof.
  intros Hs Hj.
  destruct (lower_bound_correct v t
              (fun a b => strictly_increasing_partitioned v t a b Hs))
    as [Hbelow Hnot].
  split; [apply Hbelow|].
  intros Hlt. destruct (Nat.lt_ge_cases j (lower_bound v t)) as [H|H]; [exact H|].
  rewrite (Hnot j H Hj) in Hlt. discriminate.
Qed.

(** X2 at the maturities of the curve of [main] and [t = 4]: three of them
    are below 4. *)
Lemma lower_bound_partition_point_witness :
  (2 < lower_bound [1; 2; 3; 5; 10; 30]%float 4)%nat <->
  (nth 2 [1; 2; 3; 5; 10; 30]%float nan <? 4)%float = true.
Proof.
  apply (lower_bound_partition_point [1; 2; 3; 5; 10; 30]%float 4 2).
  - reflexivity.
  - simpl. lia.
Defined.

(** ** The divisor of the interpolation *)

Lemma SFcompare_Lt_Eq_trans (a b c : spec_float) :
  SFcompare a b = Some Lt -> SFcompare b c = Some Eq -> SFcompare a c = Some Lt.
Proof.
  destruct a as [sa|sa| |sa ma ea], b as [sb|sb| |sb mb eb],
    c as [sc|sc| |sc mc ec]; cbn [SFcompare];
    try destruct sa; try destruct sb; try destruct sc;
    try discriminate; try reflexivity.
  all: change (Pos.compare_cont Eq) with Pos.compare.
  all: destruct (Z.compare_spec ea eb); try discriminate;
    destruct (Z.compare_spec eb ec); try discriminate;
    destruct (Z.compare_spec ea ec); try reflexivity; try lia.
  all: subst; destruct (Pos.compare_spec ma mb); try discriminate;
    destruct (Pos.compare_spec mb mc); try discriminate;
    destruct (Pos.compare_spec ma mc); try reflexivity; try discriminate; lia.
Qed.

(** Below [t], and [t] at or below [b]: below [b]. *)
Lemma ltb_leb_trans (a t b : float) :
  (a <? t)%float = true -> (t <=? b)%float = true -> (a <? b)%float = true.
Proof.
  rewrite !FloatAxioms.ltb_spec, FloatAxioms.leb_spec. unfold SFltb, SFleb.
  destruct (SFcompare (Prim2SF a) (Prim2SF t)) as [[]|] eqn:E1; try discriminate.
  destruct (SFcompare (Prim2SF t) (Prim2SF b)) as [[]|] eqn:E2; try discriminate;
    intros _ _.
  - rewrite (SFcompare_Lt_Eq_trans _ _ _ E1 E2). reflexivity.
  - rewrite (SFcompare_Lt_trans _ _ _ E1 E2). reflexivity.
Qed.

(** The difference of a double and a smaller one is above zero: rounding
    cannot take it to zero, the smallest positive double being one unit. *)
Lemma sub_above_zero (x y : float) :
  (x <? y)%float = true -> (0 <? y - x)%float = true.
Proof.
  intros Hlt.
  destruct (finite x) eqn:Hfx; [destruct (finite y) eqn:Hfy|].
  - (* two numbers *)
    pose proof (ltb_F2Z_lt x y Hfx Hfy Hlt) as Hv.
    destruct (SFsub_signed prec emax prec64_gt_1 emin64 emin64_le
                (Prim2SF y) (Prim2SF x) Hfy (finite_valid y) Hfx (finite_valid x))
      as [Hl _].
    specialize (Hl (S754_finite false 1 emin64) eq_refl eq_refl).
    change (SFval emin64 (S754_finite false 1 emin64)) with 1 in Hl.
    specialize (Hl ltac:(unfold F2Z in Hv; lia)).
    rewrite FloatAxioms.ltb_spec, FloatAxioms.sub_spec, Prim2SF_zero.
    unfold SF64sub, SFltb.
    destruct Hl as [Hl|[Hn Hl]]; [rewrite Hl; reflexivity|].
    destruct (SFsub prec emax (Prim2SF y) (Prim2SF x)) as [s|s| |s m e];
      try discriminate; cbn [SFval] in Hl; [lia|].
    destruct s; [|reflexivity].
    cbn [cond_Zopp] in Hl.
    assert (0 <= Zpos m * 2 ^ (e - emin64)) by (apply Z.mul_nonneg_nonneg; [lia|];
      apply Z.pow_nonneg; lia).
    lia.
  - revert Hlt Hfx Hfy. unfold finite.
    rewrite !FloatAxioms.ltb_spec, FloatAxioms.sub_spec, Prim2SF_zero.
    unfold SF64sub, SFltb.
    destruct (Prim2SF x) as [sx|sx| |sx mx ex], (Prim2SF y) as [sy|sy| |sy my ey];
      try discriminate; cbn [SFcompare SFsub];
      try destruct sx; try destruct sy; intros; try discriminate; reflexivity.
  - revert Hlt Hfx. unfold finite.
    rewrite !FloatAxioms.ltb_spec, FloatAxioms.sub_spec, Prim2SF_zero.
    unfold SF64sub, SFltb.
    destruct (Prim2SF x) as [sx|sx| |sx mx ex], (Prim2SF y) as [sy|sy| |sy my ey];
      try discriminate; cbn [SFcompare SFsub];
      try destruct sx; try destruct sy; intros; try discriminate; reflexivity.
Qed.

Lemma sub_NaN_l (x y : float) : is_NaN x = true -> is_NaN (x - y) = true.
Proof.
  unfold is_NaN. rewrite FloatAxioms.sub_spec. unfold SF64sub.
  destruct (Prim2SF x); try discriminate. reflexivity.
Qed.

Lemma NaN_neq (x y : float) : is_NaN x = true -> (x =? y)%float = false.
Proof.
  unfold is_NaN. rewrite FloatAxioms.eqb_spec. unfold SFeqb.
  destruct (Prim2SF x); try discriminate. reflexivity.
Qed.

(** X3: [interpolate] never divides by zero.  When the search stops inside
    the vector, at [S i], the maturity before is below [t] and the maturity
    found is not -- on any constructed curve, sorted or not, duplicates
    included -- so the divisor [t1 - t0] is above zero, or NaN when the
    maturity found is NaN; it is never zero, and [t - t0] is above zero. *)
Theorem interpolate_divisor_not_zero (ms rs : list float) (c : YieldCurve)
  (t : float) (i : nat) :
  YieldCurve_new ms rs = Returns c ->
  lower_bound ms t = S i -> (S i < List.length ms)%nat ->
  let t0 := nth i ms nan in
  let t1 := nth (S i) ms nan in
  let r0 := nth i rs nan in
  let r1 := nth (S i) rs nan in
  interpolate c t = Returns (r0 + (r1 - r0) * (t - t0) / (t1 - t0))%float /\
  (t0 <? t)%float = true /\ (t1 <? t)%float = false /\
  (0 <? t - t0)%float = true /\
  (t1 - t0 =? 0)%float = false /\
  (is_NaN t1 = false -> (t0 <? t1)%float = true /\ (0 <? t1 - t0)%float = true).
Proof.
  intros Hc Hi Hin t0 t1 r0 r1.
  apply YieldCurve_new_Returns in Hc. destruct Hc as [-> Hlen].
  assert (Hnb : ((0 < lower_bound ms t)%nat ->
                 (nth (lower_bound ms t - 1) ms nan <? t)%float = true) /\
                ((lower_bound ms t < List.length ms)%nat ->
                 (nth (lower_bound ms t) ms nan <? t)%float = false))
    by (unfold lower_bound; apply lower_bound_loop_neighbours; lia).
  destruct Hnb as (Hlo & Hhi).
  rewrite Hi in Hlo, Hhi. replace (S i - 1)%nat with i in Hlo by lia.
  specialize (Hlo ltac:(lia)). specialize (Hhi Hin).
  fold t0 in Hlo. fold t1 in Hhi.
  split; [apply (interpolate_between (mkYieldCurve ms rs) t Hlen i Hi Hin)|].
  split; [exact Hlo|]. split; [exact Hhi|].
  split; [apply sub_above_zero; exact Hlo|].
  assert (Hnum : is_NaN t1 = false ->
                 (t0 <? t1)%float = true /\ (0 <? t1 - t0)%float = true).
  { intros Hn1.
    assert (Hle : (t <=? t1)%float = true).
    { apply ltb_false_leb; [exact Hn1 | apply (ltb_true_not_NaN _ _ Hlo) | exact Hhi]. }
    pose proof (ltb_leb_trans t0 t t1 Hlo Hle) as H01.
    split; [exact H01 | apply sub_above_zero; exact H01]. }
  split; [|exact Hnum].
  destruct (is_NaN t1) eqn:En.
  - apply NaN_neq. apply sub_NaN_l. exact En.
  - apply ltb_0_neq. apply Hnum. reflexivity.
Qed.

(** X3 at the curve (1, 0.01), (2, 0.02) and [t = 1.5]. *)
Lemma interpolate_divisor_not_zero_witness :
  interpolate two_point_curve 1.5
  = Returns (0.01 + (0.02 - 0.01) * (1.5 - 1) / (2 - 1))%float /\
  (1 <? 1.5)%float = true /\ (2 <? 1.5)%float = false /\
  (0 <? 1.5 - 1)%float = true /\
  (2 - 1 =? 0)%float = false /\
  (is_NaN 2 = false -> (1 <? 2)%float = true /\ (0 <? 2 - 1)%float = true).
Proof.
  apply (interpolate_divisor_not_zero [1; 2]%float [0.01; 0.02]%float
           two_point_curve 1.5 0).
  - reflexivity.
  - reflexivity.
  - simpl. lia.
Defined.

(** ** Curves with one point *)

(** X4: a curve with a single point is flat: [interpolate] returns its
    rate for every [t], whatever the maturity of the point (a NaN
    included) and whatever [t]. *)
Theorem interpolate_single_point (m r t : float) :
  YieldCurve_new [m] [r] = Returns (mkYieldCurve [m] [r]) /\
  interpolate (mkYieldCurve [m] [r]) t = Returns r.
Proof.
  split; [reflexivity|].
  unfold interpolate, lower_bound. cbn [maturities rates List.length lower_bound_loop
    Nat.ltb Nat.leb Nat.div2 Nat.add nth].
  destruct (m <? t)%float; reflexivity.
Qed.

(** ** Validation of numbers *)

Lemma leb_0_true_iff (x : float) :
  is_NaN x = false -> ((x <=? 0)%float = true <-> (0 <? x)%float = false).
Proof.
  intros Hn. pose proof (leb_0_false_gt x Hn) as H.
  destruct (x <=? 0)%float, (0 <? x)%float; intuition congruence.
Qed.

Lemma ltb_0_true_iff (x : float) :
  is_NaN x = false -> ((x <? 0)%float = true <-> (0 <=? x)%float = false).
Proof.
  intros Hn. pose proof (ltb_0_false_ge x Hn) as H.
  destruct (x <? 0)%float, (0 <=? x)%float; intuition congruence.
Qed.

Section ValidationOfNumbers.

Variable Gen : Type.

(** X5: when the face value and the coupon rate are not NaN, the
    constructor enforces the five rules, in their order: it throws the
    message of the first rule that fails among [face_value > 0],
    [coupon_rate >= 0], [years_to_maturity > 0], [coupons_per_year > 0] and
    [num_simulations > 0], and returns the engine, holding the values as
    given, exactly when all five hold. *)
Theorem BondPriceCalculator_new_on_numbers (fv cr : float) (ytm cpy : Z)
  (yc : YieldCurve) (sims : Z) (seed : Gen) :
  is_NaN fv = false -> is_NaN cr = false ->
  let r := BondPriceCalculator_new fv cr ytm cpy yc sims seed in
  (r = Throws msg_face_value <-> (0 <? fv)%float = false) /\
  (r = Throws msg_coupon_rate <->
     (0 <? fv)%float = true /\ (0 <=? cr)%float = false) /\
  (r = Throws msg_maturity <->
     (0 <? fv)%float = true /\ (0 <=? cr)%float = true /\ ~ 0 < ytm) /\
  (r = Throws msg_frequency <->
     (0 <? fv)%float = true /\ (0 <=? cr)%float = true /\ 0 < ytm /\ ~ 0 < cpy) /\
  (r = Throws msg_simulations <->
     (0 <? fv)%float = true /\ (0 <=? cr)%float = true /\ 0 < ytm /\ 0 < cpy /\
     ~ 0 < sims) /\
  (r = Returns (mkEngine fv cr ytm cpy yc sims ((cr =? 0)%float && (cpy =? 1)) seed)
   <-> (0 <? fv)%float = true /\ (0 <=? cr)%float = true /\ 0 < ytm /\ 0 < cpy /\
       0 < sims).
Proof.
  intros Hfv Hcr r.
  destruct (BondPriceCalculator_new_cases Gen fv cr ytm cpy yc sims seed)
    as (H1 & H2 & H3 & H4 & H5 & H6 & _).
  fold r in H1, H2, H3, H4, H5, H6.
  pose proof (leb_0_true_iff fv Hfv) as Ha.
  pose proof (leb_0_false_gt fv Hfv) as Hb.
  pose proof (ltb_0_true_iff cr Hcr) as Hc.
  pose proof (ltb_0_false_ge cr Hcr) as Hd.
  rewrite H1, H2, H3, H4, H5, H6.
  destruct (fv <=? 0)%float, (0 <? fv)%float, (cr <? 0)%float, (0 <=? cr)%float;
    intuition (try congruence; try lia).
Qed.

End ValidationOfNumbers.

(** X5 at the inputs 1000, 0.05, 5, 2 and 3 with the curve of [main]. *)
Lemma BondPriceCalculator_new_on_numbers_witness :
  let r := BondPriceCalculator_new 1000 0.05 5 2 demo_curve 3 (@nil float) in
  (r = Throws msg_face_value <-> (0 <? 1000)%float = false) /\
  (r = Throws msg_coupon_rate <->
     (0 <? 1000)%float = true /\ (0 <=? 0.05)%float = false) /\
  (r = Throws msg_maturity <->
     (0 <? 1000)%float = true /\ (0 <=? 0.05)%float = true /\ ~ 0 < 5) /\
  (r = Throws msg_frequency <->
     (0 <? 1000)%float = true /\ (0 <=? 0.05)%float = true /\ 0 < 5 /\ ~ 0 < 2) /\
  (r = Throws msg_simulations <->
     (0 <? 1000)%float = true /\ (0 <=? 0.05)%float = true /\ 0 < 5 /\ 0 < 2 /\
     ~ 0 < 3) /\
  (r = Returns (mkEngine 1000 0.05 5 2 demo_curve 3
                  ((0.05 =? 0)%float && (2 =? 1)) (@nil float))
   <-> (0 <? 1000)%float = true /\ (0 <=? 0.05)%float = true /\ 0 < 5 /\ 0 < 2 /\
       0 < 3).
Proof.
  apply (BondPriceCalculator_new_on_numbers (list float) 1000 0.05 5 2 demo_curve 3 []).
  - reflexivity.
  - reflexivity.
Defined.

(** ** The draws of the simulation *)

Section DrawsOfTheSimulation.

Variable pow : float -> float -> float.
Variable Gen : Type.
Variable draw : Gen -> float * Gen.

Lemma draws_add (a b : nat) (g : Gen) :
  draws draw (a + b) g
  = (fst (draws draw a g) ++ fst (draws draw b (snd (draws draw a g))),
     snd (draws draw b (snd (draws draw a g)))).
Proof.
  revert g. induction a as [|a IH]; intros g.
  - cbn [Nat.add draws fst snd app]. destruct (draws draw b g); reflexivity.
  - change (S a + b)%nat with (S (a + b)). rewrite !draws_S.
    destruct (draw g) as [x g1]. rewrite (IH g1).
    destruct (draws draw a g1) as [ys g3]. reflexivity.
Qed.

(** Pricing does not look at the generator. *)
Lemma calculatePrice_with_gen (e : BondPriceCalculator Gen) (g : Gen)
  (c : YieldCurve) :
  calculatePrice pow (with_gen e g) c = calculatePrice pow e c.
Proof. reflexivity. Qed.

(** [k] trials make [k * ytm] draws; trial [i] perturbs the curve with the
    draws [i * ytm], ..., [i * ytm + ytm - 1].  The bounds of the loops on
    an [int] are below [INT_MAX]. *)
Lemma trials_draws (k : nat) (e : BondPriceCalculator Gen) :
  List.length (maturities (yield_curve e)) = List.length (rates (yield_curve e)) ->
  maturities (yield_curve e) <> [] ->
  0 < years_to_maturity e < INT_MAX ->
  INT_MIN <= years_to_maturity e * coupons_per_year e < INT_MAX ->
  let n := Z.to_nat (years_to_maturity e) in
  let ds := fst (draws draw (k * n) (gen e)) in
  exists ps : list float,
    List.length ps = k /\
    trials pow draw k e
    = Returns (ps, with_gen e (snd (draws draw (k * n) (gen e)))) /\
    forall i : nat, (i < k)%nat ->
      calculatePrice pow e
        (mkYieldCurve (map of_int (one_to n))
           (perturbed_rates (yield_curve e) n (firstn n (skipn (i * n) ds))))
      = Returns (nth i ps nan).
Proof.
  revert e. induction k as [|k IH]; intros e Hlen Hne Hy Hr n ds.
  - exists []. split; [reflexivity|]. split; [|intros i Hi; lia].
    cbn. rewrite with_gen_same. reflexivity.
  - cbn [trials]. unfold trial.
    rewrite (shiftYieldCurve_Returns Gen draw e Hlen Hne (proj2 Hy)).
    cbn [bind fst snd].
    fold n.
    set (e1 := with_gen e (snd (draws draw n (gen e)))).
    set (d0 := fst (draws draw n (gen e))).
    assert (Hd0 : List.length d0 = n) by apply draws_length.
    destruct (calculatePrice_total pow Gen e1
                (mkYieldCurve (map of_int (one_to n))
                   (perturbed_rates (yield_curve e) n d0))) as [p Hp].
    { cbn [maturities rates].
      rewrite length_map, one_to_length, perturbed_rates_length by exact Hd0.
      reflexivity. }
    { cbn [maturities]. intros H. apply (f_equal (@List.length float)) in H.
      rewrite length_map, one_to_length in H. simpl in H. unfold n in H. lia. }
    { exact Hr. }
    rewrite Hp. cbn [bind fst snd].
    destruct (IH e1 Hlen Hne Hy Hr) as (ps & Hps & Ht & Hi).
    change (Z.to_nat (years_to_maturity e1)) with n in Ht, Hi.
    change (gen e1) with (snd (draws draw n (gen e))) in Ht, Hi.
    change (yield_curve e1) with (yield_curve e) in Hi.
    rewrite Ht. cbn [bind fst snd].
    assert (Hds : ds = d0 ++ fst (draws draw (k * n) (snd (draws draw n (gen e))))).
    { unfold ds. change (S k * n)%nat with (n + k * n)%nat.
      rewrite draws_add. reflexivity. }
    exists (p :: ps). split; [simpl; congruence|]. split.
    + f_equal. f_equal. unfold e1, with_gen.
      cbn [face_value coupon_rate years_to_maturity coupons_per_year yield_curve
           num_simulations is_zero_coupon gen].
      f_equal. change (S k * n)%nat with (n + k * n)%nat.
      rewrite draws_add. reflexivity.
    + intros i Hlt. rewrite Hds. destruct i as [|i].
      * cbn [Nat.mul skipn nth].
        rewrite firstn_app, Hd0, Nat.sub_diag, firstn_O, app_nil_r.
        replace (firstn n d0) with d0
          by (rewrite <- Hd0; symmetry; apply firstn_all).
        rewrite <- Hp. reflexivity.
      * cbn [nth]. change (S i * n)%nat with (n + i * n)%nat.
        rewrite skipn_app, Hd0.
        rewrite (skipn_all2 d0) by lia. cbn [app].
        replace (n + i * n - n)%nat with (i * n)%nat by lia.
        rewrite <- (calculatePrice_with_gen e (snd (draws draw n (gen e)))).
        apply Hi. lia.
Qed.

(** X6: on a constructed engine whose curve has a point and whose number
    of periods [years_to_maturity * coupons_per_year] is below [INT_MAX]
    (the loops count to it and to [years_to_maturity] on an [int]),
    [calculateMonteCarlo] makes exactly [num_simulations * years_to_maturity]
    draws from the generator, [years_to_maturity] for each trial in turn:
    the price of trial [i] (from 0) is the price, by [calculatePrice], of
    the curve with maturities 1, ..., ytm perturbed with the draws
    [i * ytm], ..., [i * ytm + ytm - 1], and the pair returned is the mean
    and the deviation of these prices.  So the result is a function of the
    first [num_simulations * years_to_maturity] draws alone. *)
Theorem calculateMonteCarlo_draws (fv cr : float) (ytm cpy : Z)
  (ms rs : list float) (yc : YieldCurve) (sims : Z) (seed : Gen)
  (e : BondPriceCalculator Gen) :
  YieldCurve_new ms rs = Returns yc -> ms <> [] ->
  BondPriceCalculator_new fv cr ytm cpy yc sims seed = Returns e ->
  ytm * cpy < INT_MAX ->
  let k := Z.to_nat sims in
  let n := Z.to_nat ytm in
  let ds := fst (draws draw (k * n) seed) in
  List.length ds = (k * n)%nat /\
  exists ps : list float,
    List.length ps = k /\
    calculateMonteCarlo pow draw e
    = Returns (sample_mean ps sims, sample_stddev pow ps sims,
               with_gen e (snd (draws draw (k * n) seed))) /\
    forall i : nat, (i < k)%nat ->
      calculatePrice pow e
        (mkYieldCurve (map of_int (one_to n))
           (perturbed_rates yc n (firstn n (skipn (i * n) ds))))
      = Returns (nth i ps nan).
Proof.
  intros Hyc Hne Hnew Hmax k n ds.
  apply YieldCurve_new_Returns in Hyc. destruct Hyc as [-> Hlen].
  apply BondPriceCalculator_new_Returns in Hnew.
  destruct Hnew as (-> & _ & _ & Hy & Hc & Hn).
  split; [apply draws_length|].
  match goal with |- context [calculateMonteCarlo pow draw ?e] => set (e0 := e) end.
  destruct (trials_draws k e0 Hlen Hne
              ltac:(cbn; nia) ltac:(cbn; unfold INT_MIN; nia))
    as (ps & Hps & Ht & Hi).
  exists ps. split; [exact Hps|]. split; [|exact Hi].
  rewrite calculateMonteCarlo_trials.
  change (Z.to_nat (num_simulations e0)) with k. rewrite Ht. reflexivity.
Qed.

End DrawsOfTheSimulation.

(** X6 at the 2-year bond on the curve of [main] with 2 simulations: four
    draws are made. *)
Lemma calculateMonteCarlo_draws_witness :
  let e := mkEngine 1000 0.05 2 1 demo_curve 2 false
             [0.001; -0.002; 0.003; 0.004; 0.005]%float in
  let ds := fst (draws draw_list 4 [0.001; -0.002; 0.003; 0.004; 0.005]%float) in
  List.length ds = 4%nat /\
  exists ps : list float,
    List.length ps = 2%nat /\
    calculateMonteCarlo pow_example draw_list e
    = Returns (sample_mean ps 2, sample_stddev pow_example ps 2,
               with_gen e (snd (draws draw_list 4
                                  [0.001; -0.002; 0.003; 0.004; 0.005]%float))) /\
    forall i : nat, (i < 2)%nat ->
      calculatePrice pow_example e
        (mkYieldCurve (map of_int (one_to 2))
           (perturbed_rates demo_curve 2 (firstn 2 (skipn (i * 2) ds))))
      = Returns (nth i ps nan).
Proof.
  apply (calculateMonteCarlo_draws pow_example (list float) draw_list
           1000 0.05 2 1 [1; 2; 3; 5; 10; 30]%float
           [0.01; 0.015; 0.02; 0.025; 0.03; 0.035]%float demo_curve 2
           [0.001; -0.002; 0.003; 0.004; 0.005]%float _).
  - reflexivity.
  - discriminate.
  - reflexivity.
  - reflexivity.
Defined.

(** ** The program as a whole *)

Lemma validateInputs_cases (fv cr : float) (ytm cpy sims : Z) :
  (validateInputs fv cr ytm cpy sims = Returns tt /\
   0 < ytm /\ 0 < cpy /\ 0 < sims) \/
  exists what, validateInputs fv cr ytm cpy sims = Throws what.
Proof.
  unfold validateInputs.
  destruct (fv <=? of_int 0)%float; [right; eauto|].
  destruct (cr <? of_int 0)%float; [right; eauto|].
  destruct (ytm <=? 0) eqn:E1; [right; eauto|apply Z.leb_gt in E1].
  destruct (cpy <=? 0) eqn:E2; [right; eauto|apply Z.leb_gt in E2].
  destruct (sims <=? 0) eqn:E3; [right; eauto|apply Z.leb_gt in E3].
  left. auto.
Qed.

Section Program.

Variable pow : float -> float -> float.
Variable Gen : Type.
Variable draw : Gen -> float * Gen.

(** X7: [main] lets no exception out.  When a check of the constructor
    fires it reports the message of that check with exit status 1 and
    computes nothing.  When no check fires and the number of periods
    [years_to_maturity * coupons_per_year] is below [INT_MAX] -- the
    product is taken on [int] and the loops count to it and to
    [years_to_maturity] on an [int] -- it reads no vector out of range (the
    curve it builds has six points), exits with status 0 and reports the
    price [calculatePrice] gives on the six-point curve and the mean and
    the deviation of [num_simulations] prices, as [calculateMonteCarlo]
    returns them for the engine seeded with [seed]. *)
Theorem main_report (fv cr : float) (ytm cpy sims : Z) (seed : Gen) :
  let run := main pow draw fv cr ytm cpy sims seed in
  let e := mkEngine fv cr ytm cpy demo_curve sims
             ((cr =? 0)%float && (cpy =? 1)) seed in
  (forall what : string,
      validateInputs fv cr ytm cpy sims = Throws what ->
      run = Returns (Error what)) /\
  (validateInputs fv cr ytm cpy sims = Returns tt ->
   ytm * cpy < INT_MAX ->
   exists (static_price : float) (ps : list float) (g : Gen),
     calculatePrice pow e demo_curve = Returns static_price /\
     List.length ps = Z.to_nat sims /\
     calculateMonteCarlo pow draw e
     = Returns (sample_mean ps sims, sample_stddev pow ps sims, with_gen e g) /\
     run = Returns (Results static_price (sample_mean ps sims)
                      (sample_stddev pow ps sims))) /\
  (forall what : string, run <> Throws what) /\
  ((validateInputs fv cr ytm cpy sims = Returns tt -> ytm * cpy < INT_MAX) ->
   run <> Undefined /\
   forall r : report,
     run = Returns r ->
     (exit_status r = 0 <-> validateInputs fv cr ytm cpy sims = Returns tt) /\
     (exit_status r = 1 <->
      exists what, validateInputs fv cr ytm cpy sims = Throws what)).
Proof.
  intros run e.
  assert (Hthrow : forall what, validateInputs fv cr ytm cpy sims = Throws what ->
                                run = Returns (Error what)).
  { intros what Hv. unfold run, main, YieldCurve_new, BondPriceCalculator_new.
    cbn [List.length Nat.eqb negb bind]. rewrite Hv. reflexivity. }
  assert (Hok : validateInputs fv cr ytm cpy sims = Returns tt ->
                ytm * cpy < INT_MAX ->
                exists (static_price : float) (ps : list float) (g : Gen),
                  calculatePrice pow e demo_curve = Returns static_price /\
                  List.length ps = Z.to_nat sims /\
                  calculateMonteCarlo pow draw e
                  = Returns (sample_mean ps sims, sample_stddev pow ps sims,
                             with_gen e g) /\
                  run = Returns (Results static_price (sample_mean ps sims)
                                   (sample_stddev pow ps sims))).
  { intros Hv Hmax.
    destruct (validateInputs_cases fv cr ytm cpy sims)
      as [(_ & Hy & Hc & Hs)|[what Hw]]; [|congruence].
    assert (Hr : INT_MIN <= years_to_maturity e * coupons_per_year e < INT_MAX)
      by (cbn; unfold INT_MIN; nia).
    assert (Hy' : 0 < years_to_maturity e < INT_MAX) by (cbn; nia).
    destruct (calculatePrice_total pow Gen e demo_curve eq_refl
                ltac:(discriminate) Hr) as [sp Hsp].
    destruct (trials_total pow Gen draw (Z.to_nat sims) e eq_refl
                ltac:(discriminate) Hy' Hr) as (ps & g & Ht).
    assert (Hmc : calculateMonteCarlo pow draw e
                  = Returns (sample_mean ps sims, sample_stddev pow ps sims,
                             with_gen e g)).
    { rewrite calculateMonteCarlo_trials.
      change (num_simulations e) with sims. rewrite Ht. reflexivity. }
    exists sp, ps, g. split; [exact Hsp|].
    split; [exact (trials_length pow Gen draw _ _ _ _ Ht)|].
    split; [exact Hmc|].
    unfold run, main, YieldCurve_new, BondPriceCalculator_new.
    cbn [List.length Nat.eqb negb bind]. rewrite Hv. cbn [bind].
    fold demo_curve. fold e.
    replace (calculateStaticPrice pow e) with (calculatePrice pow e demo_curve)
      by (unfold calculateStaticPrice, calculatePrice;
          destruct (is_zero_coupon e); reflexivity).
    rewrite Hsp. cbn [bind]. rewrite Hmc. reflexivity. }
  split; [exact Hthrow|]. split; [exact Hok|]. split.
  { intros what. unfold run, main.
    match goal with |- match ?m with _ => _ end <> _ => destruct m end;
      discriminate. }
  intros Hrange.
  destruct (validateInputs_cases fv cr ytm cpy sims)
    as [(Hv & _)|[what Hv]].
  - destruct (Hok Hv (Hrange Hv)) as (sp & ps & g & Hsp & Hps & Hmc & Hrun).
    rewrite Hrun. split; [discriminate|].
    intros r Hr. inversion Hr. subst r. cbn [exit_status]. split.
    + split; auto.
    + split; [discriminate|]. intros [w Hw]. congruence.
  - rewrite (Hthrow what Hv). split; [discriminate|].
    intros r Hr. inversion Hr. subst r. cbn [exit_status]. split.
    + split; [discriminate | congruence].
    + split; eauto.
Qed.

End Program.

(** X7 at the inputs 1000, 0.05, 2, 1 and 2: no check fires, the number of
    periods is 2, and the three numbers are reported. *)
Lemma main_report_witness :
  let e := mkEngine 1000 0.05 2 1 demo_curve 2 ((0.05 =? 0)%float && (1 =? 1))
             [0.001; -0.002; 0.003; 0.004]%float in
  exists (static_price : float) (ps : list float) (g : list float),
    calculatePrice pow_example e demo_curve = Returns static_price /\
    List.length ps = Z.to_nat 2 /\
    calculateMonteCarlo pow_example draw_list e
    = Returns (sample_mean ps 2, sample_stddev pow_example ps 2, with_gen e g) /\
    main pow_example draw_list 1000 0.05 2 1 2 [0.001; -0.002; 0.003; 0.004]%float
    = Returns (Results static_price (sample_mean ps 2)
                 (sample_stddev pow_example ps 2)).
Proof.
  apply (proj1 (proj2 (main_report pow_example (list float) draw_list
                         1000 0.05 2 1 2 [0.001; -0.002; 0.003; 0.004]%float))).
  - reflexivity.
  - reflexivity.
Defined.

(** ** Interpolation at a point of the curve *)

Lemma ltb_irrefl (a : float) : (a <? a)%float = false.
Proof.
  rewrite FloatAxioms.ltb_spec. unfold SFltb.
  pose proof (SFcompare_swap (Prim2SF a) (Prim2SF a)) as H.
  destruct (SFcompare (Prim2SF a) (Prim2SF a)) as [[]|]; try reflexivity.
  discriminate H.
Qed.

(** On a strictly increasing vector the search for an element finds its
    position. *)
Lemma lower_bound_at_element (v : list float) (j : nat) :
  strictly_increasing v = true -> (j < List.length v)%nat ->
  lower_bound v (nth j v nan) = j.
Proof.
  intros Hs Hj.
  destruct (lower_bound_correct v (nth j v nan)
              (fun a b => strictly_increasing_partitioned v _ a b Hs))
    as [Hbelow Hnot].
  pose proof (lower_bound_le_length v (nth j v nan)) as Hle.
  destruct (Nat.lt_trichotomy (lower_bound v (nth j v nan)) j) as [H|[H|H]].
  - assert (Hr : (lower_bound v (nth j v nan) < List.length v)%nat) by lia.
    pose proof (Hnot _ (Nat.le_refl _) Hr) as Hf.
    rewrite (strictly_increasing_nth v _ j Hs H Hj) in Hf. discriminate.
  - exact H.
  - pose proof (Hbelow j H) as Ht. rewrite ltb_irrefl in Ht. discriminate.
Qed.

(** X8: on a curve with strictly increasing maturities, at the maturity
    of its point [j] the search returns [j], so [interpolate] returns the
    first rate as it is at the first point, and at a later point the value
    of the interpolation formula on the segment that ends there, with
    [t - t0] equal to [t1 - t0]: the segment to the left of a point is the
    one used. *)
Theorem interpolate_at_point (ms rs : list float) (c : YieldCurve) (j : nat) :
  YieldCurve_new ms rs = Returns c ->
  strictly_increasing ms = true ->
  (j < List.length ms)%nat ->
  lower_bound ms (nth j ms nan) = j /\
  interpolate c (nth j ms nan)
  = Returns
      match j with
      | O => nth 0 rs nan
      | S i =>
          let d := (nth (S i) ms nan - nth i ms nan)%float in
          (nth i rs nan + (nth (S i) rs nan - nth i rs nan) * d / d)%float
      end.
Proof.
  intros Hc Hs Hj.
  apply YieldCurve_new_Returns in Hc. destruct Hc as [-> Hlen].
  pose proof (lower_bound_at_element ms j Hs Hj) as Hlb.
  split; [exact Hlb|].
  assert (Hne : ms <> []) by (intros ->; simpl in Hj; lia).
  destruct j as [|i].
  - rewrite (interpolate_at_begin (mkYieldCurve ms rs) _ Hlen Hne Hlb).
    cbn [rates]. rewrite nth_0_hd. reflexivity.
  - rewrite (interpolate_between (mkYieldCurve ms rs) _ Hlen i Hlb Hj).
    reflexivity.
Qed.

(** X8 at the curve (1, 0.01), (2, 0.02) and its second point. *)
Lemma interpolate_at_point_witness :
  lower_bound [1; 2]%float (nth 1 [1; 2]%float nan) = 1%nat /\
  interpolate two_point_curve (nth 1 [1; 2]%float nan)
  = Returns
      (let d := (nth 1 [1; 2]%float nan - nth 0 [1; 2]%float nan)%float in
       (nth 0 [0.01; 0.02]%float nan
        + (nth 1 [0.01; 0.02]%float nan - nth 0 [0.01; 0.02]%float nan) * d / d)%float).
Proof.
  apply (interpolate_at_point [1; 2]%float [0.01; 0.02]%float two_point_curve 1).
  - reflexivity.
  - reflexivity.
  - simpl. lia.
Defined.

(** ** The perturbed curve is a curve *)

Section PerturbedCurve.

Variable Gen : Type.
Variable draw : Gen -> float * Gen.

(** X9: on a constructed engine whose curve has a point and whose
    [years_to_maturity] is below [INT_MAX] (the loop counts to it on an
    [int]), the curve that [shiftYieldCurve] returns has [years_to_maturity] points, at least
    one, as many maturities as rates, and its maturities are strictly
    increasing: it meets what [interpolate] needs of a curve, and the
    binary search on it finds the partition point. *)
Theorem shiftYieldCurve_curve_sorted (fv cr : float) (ytm cpy : Z)
  (ms rs : list float) (yc : YieldCurve) (sims : Z) (seed : Gen)
  (e : BondPriceCalculator Gen) :
  YieldCurve_new ms rs = Returns yc -> ms <> [] ->
  BondPriceCalculator_new fv cr ytm cpy yc sims seed = Returns e ->
  ytm < INT_MAX ->
  exists (c : YieldCurve) (e' : BondPriceCalculator Gen),
    shiftYieldCurve draw e = Returns (c, e') /\
    Z.of_nat (List.length (maturities c)) = ytm /\
    List.length (rates c) = List.length (maturities c) /\
    maturities c <> [] /\
    strictly_increasing (maturities c) = true /\
    forall (t : float) (j : nat),
      (j < List.length (maturities c))%nat ->
      ((j < lower_bound (maturities c) t)%nat <->
       (nth j (maturities c) nan <? t)%float = true).
Proof.
  intros Hyc Hne Hnew Hmax.
  apply YieldCurve_new_Returns in Hyc. destruct Hyc as [-> Hlen].
  apply BondPriceCalculator_new_Returns in Hnew.
  destruct Hnew as (-> & _ & _ & Hy & _ & _).
  match goal with |- context [shiftYieldCurve draw ?e] => set (e0 := e) end.
  pose proof (shiftYieldCurve_Returns Gen draw e0 Hlen Hne Hmax) as Hs.
  cbv zeta in Hs. change (years_to_maturity e0) with ytm in Hs.
  change (gen e0) with seed in Hs. change (yield_curve e0) with (mkYieldCurve ms rs) in Hs.
  set (n := Z.to_nat ytm) in *.
  assert (Hinc : strictly_increasing (map of_int (one_to n)) = true)
    by (apply strictly_increasing_one_to; unfold n; lia).
  eexists _, _. split; [exact Hs|]. cbn [maturities rates].
  rewrite length_map, one_to_length, perturbed_rates_length by apply draws_length.
  split; [unfold n; lia|]. split; [reflexivity|].
  split.
  { intros H. apply (f_equal (@List.length float)) in H.
    rewrite length_map, one_to_length in H. simpl in H. unfold n in H. lia. }
  split; [exact Hinc|].
  intros t j Hj.
  destruct (lower_bound_correct (map of_int (one_to n)) t
              (fun a b => strictly_increasing_partitioned _ t a b Hinc))
    as [Hbelow Hnot].
  split; [apply Hbelow|].
  intros Hlt.
  destruct (Nat.lt_ge_cases j (lower_bound (map of_int (one_to n)) t)) as [H|H];
    [exact H|].
  rewrite (Hnot j H) in Hlt; [discriminate|].
  rewrite length_map, one_to_length. exact Hj.
Qed.

End PerturbedCurve.

(** X9 at the engine of a 2-year bond on the curve of [main]. *)
Lemma shiftYieldCurve_curve_sorted_witness :
  exists (c : YieldCurve) (e' : BondPriceCalculator (list float)),
    shiftYieldCurve draw_list
      (mkEngine 1000 0.05 2 1 demo_curve 3 false [0.001; -0.5; 0.002]%float)
    = Returns (c, e') /\
    Z.of_nat (List.length (maturities c)) = 2 /\
    List.length (rates c) = List.length (maturities c) /\
    maturities c <> [] /\
    strictly_increasing (maturities c) = true /\
    forall (t : float) (j : nat),
      (j < List.length (maturities c))%nat ->
      ((j < lower_bound (maturities c) t)%nat <->
       (nth j (maturities c) nan <? t)%float = true).
Proof.
  apply (shiftYieldCurve_curve_sorted (list float) draw_list 1000 0.05 2 1
           [1; 2; 3; 5; 10; 30]%float
           [0.01; 0.015; 0.02; 0.025; 0.03; 0.035]%float demo_curve 3
           [0.001; -0.5; 0.002]%float _).
  - reflexivity.
  - discriminate.
  - reflexivity.
  - reflexivity.
Defined.

(** ** One simulation *)

(** The mean of one price that is a number is that price. *)
Lemma sample_mean_one (p : float) :
  finite p = true ->
  finite (sample_mean [p] 1) = true /\ (sample_mean [p] 1 =? p)%float = true.
Proof.
  intros Hp. unfold sample_mean, sum_list. cbn [fold_left]. rewrite of_int_1.
  destruct (add_between 0 p p p finite_zero Hp Hp Hp) as [Hf Hv];
    try (rewrite F2Z_zero; lia).
  destruct (div_one (0 + p) Hf) as [Hf' Hv'].
  split; [exact Hf'|].
  rewrite eqb_F2Z by assumption. apply Z.eqb_eq. lia.
Qed.

Section OneSimulation.

Variable pow : float -> float -> float.
Variable Gen : Type.
Variable draw : Gen -> float * Gen.

(** X10: with one simulation, [calculateMonteCarlo] on a constructed
    engine whose curve has a point and whose number of periods
    [years_to_maturity * coupons_per_year] is below [INT_MAX] (the loops
    count to it on an [int]) prices one perturbed curve, made with
    the first [years_to_maturity] draws, and the mean it returns is
    [(0.0 + p) / 1] for the price [p] of that curve; when [p] is a number
    the mean is a number and equals [p]. *)
Theorem calculateMonteCarlo_one_simulation (fv cr : float) (ytm cpy : Z)
  (ms rs : list float) (yc : YieldCurve) (seed : Gen)
  (e : BondPriceCalculator Gen) :
  YieldCurve_new ms rs = Returns yc -> ms <> [] ->
  BondPriceCalculator_new fv cr ytm cpy yc 1 seed = Returns e ->
  ytm * cpy < INT_MAX ->
  let n := Z.to_nat ytm in
  exists p : float,
    calculatePrice pow e
      (mkYieldCurve (map of_int (one_to n))
         (perturbed_rates yc n (fst (draws draw n seed))))
    = Returns p /\
    calculateMonteCarlo pow draw e
    = Returns ((0 + p) / 1, sample_stddev pow [p] 1,
               with_gen e (snd (draws draw n seed)))%float /\
    (finite p = true ->
     finite ((0 + p) / 1)%float = true /\ ((0 + p) / 1 =? p)%float = true).
Proof.
  intros Hyc Hne Hnew Hmax n.
  apply YieldCurve_new_Returns in Hyc. destruct Hyc as [-> Hlen].
  apply BondPriceCalculator_new_Returns in Hnew.
  destruct Hnew as (-> & _ & _ & Hy & Hc & _).
  match goal with |- context [calculateMonteCarlo pow draw ?e] => set (e0 := e) end.
  destruct (trials_draws pow Gen draw 1 e0 Hlen Hne
              ltac:(cbn; nia) ltac:(cbn; unfold INT_MIN; nia))
    as (ps & Hps & Ht & Hi).
  destruct ps as [|p [|q ps]]; try discriminate Hps.
  specialize (Hi 0%nat ltac:(lia)).
  change (Z.to_nat (years_to_maturity e0)) with n in Ht, Hi.
  change (gen e0) with seed in Ht, Hi.
  change (yield_curve e0) with (mkYieldCurve ms rs) in Hi.
  replace (1 * n)%nat with n in Ht, Hi by lia.
  cbn [Nat.mul skipn nth] in Hi.
  rewrite firstn_all2 in Hi by (rewrite draws_length; lia).
  exists p. split; [exact Hi|]. split.
  - rewrite calculateMonteCarlo_trials.
    change (Z.to_nat (num_simulations e0)) with 1%nat. rewrite Ht.
    cbn [bind fst snd]. change (num_simulations (with_gen e0 _)) with 1.
    unfold sample_mean at 1. unfold sum_list. cbn [fold_left]. rewrite of_int_1.
    reflexivity.
  - intros Hp. pose proof (sample_mean_one p Hp) as H.
    unfold sample_mean, sum_list in H. cbn [fold_left] in H.
    rewrite of_int_1 in H. exact H.
Qed.

End OneSimulation.

(** X10 at the 2-year bond on the curve of [main]. *)
Lemma calculateMonteCarlo_one_simulation_witness :
  let e := mkEngine 1000 0.05 2 1 demo_curve 1 false [0.001; -0.002; 0.003]%float in
  exists p : float,
    calculatePrice pow_example e
      (mkYieldCurve (map of_int (one_to 2))
         (perturbed_rates demo_curve 2
            (fst (draws draw_list 2 [0.001; -0.002; 0.003]%float))))
    = Returns p /\
    calculateMonteCarlo pow_example draw_list e
    = Returns ((0 + p) / 1, sample_stddev pow_example [p] 1,
               with_gen e (snd (draws draw_list 2 [0.001; -0.002; 0.003]%float)))%float /\
    (finite p = true ->
     finite ((0 + p) / 1)%float = true /\ ((0 + p) / 1 =? p)%float = true).
Proof.
  apply (calculateMonteCarlo_one_simulation pow_example (list float) draw_list
           1000 0.05 2 1 [1; 2; 3; 5; 10; 30]%float
           [0.01; 0.015; 0.02; 0.025; 0.03; 0.035]%float demo_curve
           [0.001; -0.002; 0.003]%float _).
  - reflexivity.
  - discriminate.
  - reflexivity.
  - reflexivity.
Defined.
